(** * blconf channel, value bridge, struct codec and settings bridge

    A shallow embedding of [blconf-channel.c] (the channel object, the
    16-bit wire workaround, the array and struct marshalling, the change
    notification re-scoping and the singleton registry) and of
    [xfconf-gsettings-backend.c] (the settings bridge built on top of a
    channel), followed by the properties proved about them.

    C strings are [string]s, a possibly-NULL [gchar *] is an
    [option string]; integers are [Z] with the C conversions written out;
    hash tables keyed by strings are [gmap string _]; the caller's struct is
    a byte buffer. Code that lives outside these two files (the cache, the
    D-Bus client, GLib's transform table, the build-time alignment macros)
    is taken as a parameter. *)

From Stdlib Require Import ZArith Lia String Ascii Bool List.
From stdpp Require Import base option list gmap strings relations.

Set Warnings "-register-all".
Local Open Scope Z_scope.

(* ===================================================================== *)
(** ** C strings *)
(* ===================================================================== *)

(** A [gchar *] that may be NULL. *)
Definition gchar_p := option string.

(** [g_str_has_prefix (str, prefix)]: [strncmp (str, prefix, strlen (prefix)) == 0]. *)
Fixpoint g_str_has_prefix (str prefix : string) {struct prefix} : bool :=
  match prefix with
  | EmptyString => true
  | String c prefix' =>
      match str with
      | EmptyString => false
      | String d str' => if Ascii.eqb d c then g_str_has_prefix str' prefix' else false
      end
  end.

(** Pointer arithmetic [s += n] on a string of at least [n] characters. *)
Fixpoint str_advance (n : nat) (s : string) : string :=
  match n with
  | O => s
  | S n' => match s with
            | EmptyString => EmptyString
            | String _ s' => str_advance n' s'
            end
  end.

(** [!*s]: the string is empty. *)
Definition str_is_empty (s : string) : bool :=
  match s with EmptyString => true | String _ _ => false end.

(** [g_strconcat (a, b, NULL)] where [b] may be NULL, which ends the
    argument list early. *)
Definition g_strconcat (a : string) (b : gchar_p) : string :=
  match b with
  | Some s => (a ++ s)%string
  | None => a
  end.

(* ===================================================================== *)
(** ** Integer conversions *)
(* ===================================================================== *)

(** Conversion to an unsigned [w]-bit type. *)
Definition cast_u (w : Z) (v : Z) : Z := v mod 2 ^ w.

(** Conversion to a signed [w]-bit type (two's complement). *)
Definition cast_s (w : Z) (v : Z) : Z :=
  (v + 2 ^ (w - 1)) mod 2 ^ w - 2 ^ (w - 1).

Definition in_u (w : Z) (v : Z) : Prop := 0 <= v < 2 ^ w.
Definition in_s (w : Z) (v : Z) : Prop := - 2 ^ (w - 1) <= v < 2 ^ (w - 1).

(** An opaque [gpointer]; [0] is NULL. *)
Definition gpointer := Z.
Definition NULL : gpointer := 0.

(* ===================================================================== *)
(** ** GType and GValue *)
(* ===================================================================== *)

(** The type ids the code switches on; any other registered id is
    [G_TYPE_OTHER]. *)
Inductive GType :=
| G_TYPE_INVALID
| G_TYPE_STRING
| G_TYPE_UCHAR
| G_TYPE_CHAR
| G_TYPE_UINT
| G_TYPE_INT
| G_TYPE_UINT64
| G_TYPE_INT64
| G_TYPE_FLOAT
| G_TYPE_DOUBLE
| G_TYPE_BOOLEAN
| BLCONF_TYPE_UINT16
| BLCONF_TYPE_INT16
| G_TYPE_STRV
| BLCONF_TYPE_G_VALUE_ARRAY
| G_TYPE_OTHER (id : N).

Global Instance GType_eq_dec : EqDecision GType.
Proof. solve_decision. Defined.

(** A [GValue]: a type tag with its payload. [GV_unset] is the zero-filled
    value [{ 0, }] whose type is [G_TYPE_INVALID]. Floats and doubles carry
    their bit pattern: nothing here computes with them. A boxed value array
    ([GPtrArray] of [GValue *]) is a list. *)
Inductive GValue :=
| GV_unset
| GV_string (s : gchar_p)
| GV_uchar (v : Z)
| GV_char (v : Z)
| GV_uint (v : Z)
| GV_int (v : Z)
| GV_uint64 (v : Z)
| GV_int64 (v : Z)
| GV_float (bits : Z)
| GV_double (bits : Z)
| GV_boolean (b : bool)
| GV_uint16 (v : Z)
| GV_int16 (v : Z)
| GV_strv (l : list string)
| GV_array (arr : list GValue)
| GV_other (id : N) (payload : Z).

Definition G_VALUE_TYPE (v : GValue) : GType :=
  match v with
  | GV_unset => G_TYPE_INVALID
  | GV_string _ => G_TYPE_STRING
  | GV_uchar _ => G_TYPE_UCHAR
  | GV_char _ => G_TYPE_CHAR
  | GV_uint _ => G_TYPE_UINT
  | GV_int _ => G_TYPE_INT
  | GV_uint64 _ => G_TYPE_UINT64
  | GV_int64 _ => G_TYPE_INT64
  | GV_float _ => G_TYPE_FLOAT
  | GV_double _ => G_TYPE_DOUBLE
  | GV_boolean _ => G_TYPE_BOOLEAN
  | GV_uint16 _ => BLCONF_TYPE_UINT16
  | GV_int16 _ => BLCONF_TYPE_INT16
  | GV_strv _ => G_TYPE_STRV
  | GV_array _ => BLCONF_TYPE_G_VALUE_ARRAY
  | GV_other id _ => G_TYPE_OTHER id
  end.

(** The typed getters. Each one returns the payload when the value holds
    its type and the type's zero otherwise (GLib's [g_return_val_if_fail]). *)
Definition g_value_get_uchar (v : GValue) : Z := match v with GV_uchar x => x | _ => 0 end.
Definition g_value_get_schar (v : GValue) : Z := match v with GV_char x => x | _ => 0 end.
Definition g_value_get_uint (v : GValue) : Z := match v with GV_uint x => x | _ => 0 end.
Definition g_value_get_int (v : GValue) : Z := match v with GV_int x => x | _ => 0 end.
Definition g_value_get_uint64 (v : GValue) : Z := match v with GV_uint64 x => x | _ => 0 end.
Definition g_value_get_int64 (v : GValue) : Z := match v with GV_int64 x => x | _ => 0 end.
Definition g_value_get_float (v : GValue) : Z := match v with GV_float x => x | _ => 0 end.
Definition g_value_get_double (v : GValue) : Z := match v with GV_double x => x | _ => 0 end.
Definition g_value_get_boolean (v : GValue) : bool := match v with GV_boolean b => b | _ => false end.
Definition g_value_get_string (v : GValue) : gchar_p := match v with GV_string s => s | _ => None end.
Definition blconf_g_value_get_uint16 (v : GValue) : Z := match v with GV_uint16 x => x | _ => 0 end.
Definition blconf_g_value_get_int16 (v : GValue) : Z := match v with GV_int16 x => x | _ => 0 end.

(** The payload of an integer value is within its C type. *)
Fixpoint gvalue_wf (v : GValue) : Prop :=
  match v with
  | GV_uchar x => in_u 8 x
  | GV_char x => in_s 8 x
  | GV_uint x => in_u 32 x
  | GV_int x => in_s 32 x
  | GV_uint64 x => in_u 64 x
  | GV_int64 x => in_s 64 x
  | GV_float x => in_u 32 x
  | GV_double x => in_u 64 x
  | GV_uint16 x => in_u 16 x
  | GV_int16 x => in_s 16 x
  | GV_array arr => (fix all (l : list GValue) : Prop :=
                       match l with
                       | [] => True
                       | e :: l' => gvalue_wf e /\ all l'
                       end) arr
  | _ => True
  end.

(* ===================================================================== *)
(** ** Memory: the caller's struct and the strings it points to *)
(* ===================================================================== *)

(** The caller's struct is a buffer of bytes, each in [0, 256). *)
Abbreviation Mem := (list Z) (only parsing).

Definition bytes_ok (m : Mem) : Prop := Forall (fun b => 0 <= b < 256) m.

(** The object representation of an integer: [n] bytes, least significant
    first, two's complement for a negative value. *)
Fixpoint le_encode (n : nat) (v : Z) : list Z :=
  match n with
  | O => []
  | S n' => v mod 256 :: le_encode n' (v / 256)
  end.

Fixpoint le_decode (l : list Z) : Z :=
  match l with
  | [] => 0
  | b :: l' => b + 256 * le_decode l'
  end.

(** [*(ctype * )(base + off)] read as an unsigned number of [n] bytes. *)
Definition mem_load (m : Mem) (off : Z) (n : nat) : Z :=
  le_decode (take n (drop (Z.to_nat off) m)).

(** [*(ctype * )(base + off) = v]. A store that does not lie within the
    buffer is outside the model and leaves it alone. *)
Definition mem_store (m : Mem) (off : Z) (n : nat) (v : Z) : Mem :=
  let o := Z.to_nat off in
  if bool_decide (0 <= off) && bool_decide (o + n <= length m)%nat
  then take o m ++ le_encode n v ++ drop (o + n) m
  else m.

(** The strings the struct's [gchar *] members point to. The pointer to the
    [i]-th allocation is [i + 1]; [0] is NULL. An allocation is never
    reused, so [g_strdup] returns a pointer no live string has. *)
Abbreviation Heap := (list string) (only parsing).

Definition heap_deref (heap : Heap) (p : Z) : gchar_p :=
  if p =? 0 then None else heap !! Z.to_nat (p - 1).

Definition g_strdup (heap : Heap) (s : string) : Heap * Z :=
  (heap ++ [s], Z.of_nat (length heap) + 1).

(** [g_value_dup_string]: a new copy of the value's string, NULL for NULL. *)
Definition g_value_dup_string (heap : Heap) (val : GValue) : Heap * Z :=
  match g_value_get_string val with
  | Some s => g_strdup heap s
  | None => (heap, 0)
  end.

(** The build-time constants of [config.h]: the alignment of each member
    type and the size of a pointer. *)
Class Platform := {
  ALIGNOF_GPOINTER : Z;
  ALIGNOF_GUCHAR : Z;
  ALIGNOF_GCHAR : Z;
  ALIGNOF_GUINT32 : Z;
  ALIGNOF_GINT32 : Z;
  ALIGNOF_GUINT64 : Z;
  ALIGNOF_GINT64 : Z;
  ALIGNOF_GFLOAT : Z;
  ALIGNOF_GDOUBLE : Z;
  ALIGNOF_GBOOLEAN : Z;
  ALIGNOF_GUINT16 : Z;
  ALIGNOF_GINT16 : Z;
  sizeof_gpointer : Z;
}.

(** The usual 64-bit table. *)
Definition lp64 : Platform := {|
  ALIGNOF_GPOINTER := 8;
  ALIGNOF_GUCHAR := 1;
  ALIGNOF_GCHAR := 1;
  ALIGNOF_GUINT32 := 4;
  ALIGNOF_GINT32 := 4;
  ALIGNOF_GUINT64 := 8;
  ALIGNOF_GINT64 := 8;
  ALIGNOF_GFLOAT := 4;
  ALIGNOF_GDOUBLE := 8;
  ALIGNOF_GBOOLEAN := 4;
  ALIGNOF_GUINT16 := 2;
  ALIGNOF_GINT16 := 2;
  sizeof_gpointer := 8;
|}.

(* ===================================================================== *)
(** ** Collaborators *)
(* ===================================================================== *)

(** What the two files call but do not define: the property cache
    ([blconf-cache.c]), the D-Bus client binding, GLib's value transform
    table and UTF-8 validator, and the GVariant conversion of the settings
    bridge. Boolean results are the C return values; a lookup that returns
    FALSE is [None]. *)
Class Collaborators := {
  BlconfCache : Type;
  blconf_cache_new : string -> BlconfCache;
  blconf_cache_prefetch : BlconfCache -> gchar_p -> BlconfCache;
  blconf_cache_lookup : BlconfCache -> gchar_p -> option GValue;
  blconf_cache_set : BlconfCache -> gchar_p -> GValue -> bool * BlconfCache;
  blconf_cache_reset : BlconfCache -> gchar_p -> bool -> bool * BlconfCache;
  (** [None]: the remote call failed; [Some locked] otherwise. *)
  blconf_client_is_property_locked : gchar_p -> gchar_p -> option bool;
  (** [g_value_transform (src, dest)] with [dest] initialised to a type. *)
  g_value_transform : GValue -> GType -> option GValue;
  g_utf8_validate : string -> bool;
  GVariant : Type;
  xfconf_gvariant_to_gvalue : GVariant -> option GValue;
}.

(* ===================================================================== *)
(** ** The channel *)
(* ===================================================================== *)

Section channel.
Context `{Collaborators}.

(** [struct _BlconfChannel]. [channel_name] and [cache] are NULL in a
    zero-filled instance; a channel returned by the constructor has both. *)
Record BlconfChannel := {
  is_singleton : bool;
  disposed : bool;
  channel_name : gchar_p;
  property_base : gchar_p;
  cache : option BlconfCache;
}.

Definition with_cache (ch : BlconfChannel) (c : BlconfCache) : BlconfChannel :=
  {| is_singleton := is_singleton ch;
     disposed := disposed ch;
     channel_name := channel_name ch;
     property_base := property_base ch;
     cache := Some c |}.

(** [REAL_PROP (channel, property)]. *)
Definition REAL_PROP (channel : BlconfChannel) (property : gchar_p) : gchar_p :=
  match property_base channel with
  | Some base => Some (g_strconcat base property)
  | None => property
  end.

(** A signal emission [property-changed::detail (property, value)]. *)
Record PropertyChanged := {
  sig_detail : string;
  sig_property : string;
  sig_value : GValue;
}.

(** [blconf_channel_property_changed]: the handler connected to the cache's
    change signal. The result is what it emits on the channel. ([strcmp]
    against the NULL name of a channel that was never constructed is
    undefined; the event is dropped here.) *)
Definition blconf_channel_property_changed (channel : BlconfChannel)
    (channel_name' : string) (property : string) (value : GValue)
  : list PropertyChanged :=
  if negb (match channel_name channel with
           | Some name => String.eqb channel_name' name
           | None => false
           end)
     || match property_base channel with
        | Some base => negb (g_str_has_prefix property base)
        | None => false
        end
  then []
  else
    let property :=
      match property_base channel with
      | Some base =>
          let property := str_advance (String.length base) property in
          if str_is_empty property then "/"%string else property
      | None => property
      end in
    [ {| sig_detail := property; sig_property := property; sig_value := value |} ].

(** [blconf_channel_set_internal]. A channel without a cache cannot reach
    the store. *)
Definition blconf_channel_set_internal (channel : BlconfChannel)
    (property : gchar_p) (value : GValue) : bool * BlconfChannel :=
  let real_property := REAL_PROP channel property in
  match property, cache channel with
  | Some _, Some c =>
      let '(ret, c') := blconf_cache_set c real_property value in
      (ret, with_cache channel c')
  | _, _ => (false, channel)
  end.

(** [blconf_channel_get_internal]. [value] is the caller's [GValue]: unset,
    or initialised to the type the result is to be transformed into. The
    result is the return value and the content of [value] afterwards. *)
Definition blconf_channel_get_internal (channel : BlconfChannel)
    (property : gchar_p) (value : GValue) : bool * GValue :=
  let real_property := REAL_PROP channel property in
  match cache channel with
  | None => (false, value)
  | Some c =>
      match blconf_cache_lookup c real_property with
      | None => (false, value)
      | Some val =>
          if decide (G_VALUE_TYPE value = G_TYPE_INVALID) then (true, val)
          else
            match g_value_transform val (G_VALUE_TYPE value) with
            | Some value' => (true, value')
            | None => (false, value)
            end
      end
  end.

(** [blconf_channel_is_property_locked]. *)
Definition blconf_channel_is_property_locked (channel : BlconfChannel)
    (property : gchar_p) : bool :=
  let real_property := REAL_PROP channel property in
  match blconf_client_is_property_locked (channel_name channel) property with
  | Some locked => locked
  | None => false
  end.

(** The [g_return_if_fail] guard of [blconf_channel_reset_property]:
    [(property_base && property_base[0] && property_base[1]) || recursive]. *)
Definition reset_property_guard (property_base' : gchar_p) (recursive : bool) : bool :=
  match property_base' with
  | Some (String _ (String _ _)) => true
  | _ => recursive
  end.

(** [blconf_channel_reset_property]. *)
Definition blconf_channel_reset_property (channel : BlconfChannel)
    (property_base' : gchar_p) (recursive : bool) : BlconfChannel :=
  let real_property_base := REAL_PROP channel property_base' in
  if negb (reset_property_guard property_base' recursive) then channel
  else
    match cache channel with
    | Some c => with_cache channel (snd (blconf_cache_reset c real_property_base recursive))
    | None => channel
    end.

(* --------------------------------------------------------------------- *)
(** *** The value bridge: scalars and value arrays *)
(* --------------------------------------------------------------------- *)

Definition is_16bit (v : GValue) : bool :=
  bool_decide (G_VALUE_TYPE v = BLCONF_TYPE_UINT16)
  || bool_decide (G_VALUE_TYPE v = BLCONF_TYPE_INT16).

(** The body of the second loop of [blconf_fixup_16bit_ints]. *)
Definition fixup_16bit_elem (v_src : GValue) : GValue :=
  if decide (G_VALUE_TYPE v_src = BLCONF_TYPE_UINT16)
  then GV_uint (blconf_g_value_get_uint16 v_src)
  else if decide (G_VALUE_TYPE v_src = BLCONF_TYPE_INT16)
  then GV_int (blconf_g_value_get_int16 v_src)
  else v_src.

(** [blconf_fixup_16bit_ints]: NULL ([None]) when no element is a 16-bit
    integer, else a new array in which those are widened. *)
Definition blconf_fixup_16bit_ints (arr : list GValue) : option (list GValue) :=
  if existsb is_16bit arr then Some (fixup_16bit_elem <$> arr) else None.

(** The loop of [blconf_transform_array]; [arr_dest] holds the elements
    converted so far and is freed, not returned, on failure. *)
Fixpoint blconf_transform_array_loop (arr_src : list GValue) (gtype : GType)
    (arr_dest : list GValue) : option (list GValue) :=
  match arr_src with
  | [] => Some arr_dest
  | value_src :: rest =>
      if decide (G_VALUE_TYPE value_src = gtype)
      then blconf_transform_array_loop rest gtype (arr_dest ++ [value_src])
      else
        match g_value_transform value_src gtype with
        | Some value_dest =>
            blconf_transform_array_loop rest gtype (arr_dest ++ [value_dest])
        | None => None
        end
  end.

(** [blconf_transform_array]. *)
Definition blconf_transform_array (arr_src : list GValue) (gtype : GType)
  : option (list GValue) :=
  if (length arr_src =? 0)%nat then None
  else if decide (gtype = G_TYPE_INVALID) then None
  else blconf_transform_array_loop arr_src gtype [].

(** [blconf_channel_get_property]. [value] is the caller's [GValue] (unset
    or initialised to the wanted type); the result is the return value and
    the content of [value] afterwards. *)
Definition blconf_channel_get_property (channel : BlconfChannel)
    (property : gchar_p) (value : GValue) : bool * GValue :=
  match property with
  | None => (false, value)
  | Some _ =>
      let '(ret, val1) := blconf_channel_get_internal channel property GV_unset in
      if ret then
        if bool_decide (G_VALUE_TYPE value <> G_TYPE_INVALID)
           && bool_decide (G_VALUE_TYPE value <> G_VALUE_TYPE val1)
        then
          match val1 with
          | GV_array boxed =>
              match blconf_transform_array boxed (G_VALUE_TYPE value) with
              | Some arr => (true, GV_array arr)
              | None => (false, value)
              end
          | _ =>
              match g_value_transform val1 (G_VALUE_TYPE value) with
              | Some value' => (true, value')
              | None => (false, value)
              end
          end
        else (true, val1)
      else (false, value)
  end.

(** The value [blconf_channel_set_property] hands to
    [blconf_channel_set_internal]: 16-bit integers are intercepted. *)
Definition set_property_wire_value (value : GValue) : GValue :=
  if decide (G_VALUE_TYPE value = BLCONF_TYPE_UINT16)
  then GV_uint (blconf_g_value_get_uint16 value)
  else if decide (G_VALUE_TYPE value = BLCONF_TYPE_INT16)
  then GV_int (blconf_g_value_get_int16 value)
  else
    match value with
    | GV_array boxed =>
        match blconf_fixup_16bit_ints boxed with
        | Some arr_new => GV_array arr_new
        | None => value
        end
    | _ => value
    end.

(** The two [g_return_val_if_fail] guards of [blconf_channel_set_property]. *)
Definition set_property_guard (property : gchar_p) (value : GValue) : bool :=
  bool_decide (is_Some property)
  && bool_decide (G_VALUE_TYPE value <> G_TYPE_INVALID)
  && match value with
     | GV_string (Some s) => g_utf8_validate s
     | _ => true
     end.

(** [blconf_channel_set_property]. *)
Definition blconf_channel_set_property (channel : BlconfChannel)
    (property : gchar_p) (value : GValue) : bool * BlconfChannel :=
  if negb (set_property_guard property value) then (false, channel)
  else blconf_channel_set_internal channel property (set_property_wire_value value).

(** [blconf_channel_get_arrayv]. *)
Definition blconf_channel_get_arrayv (channel : BlconfChannel)
    (property : gchar_p) : option (list GValue) :=
  match property with
  | None => None
  | Some _ =>
      let '(ret, val) := blconf_channel_get_internal channel property GV_unset in
      if negb ret then None
      else
        match val with
        | GV_array arr => if (length arr =? 0)%nat then None else Some arr
        | _ => None
        end
  end.

(** [blconf_channel_set_arrayv]. *)
Definition blconf_channel_set_arrayv (channel : BlconfChannel)
    (property : gchar_p) (values : list GValue) : bool * BlconfChannel :=
  match property with
  | None => (false, channel)
  | Some _ =>
      let values_new := blconf_fixup_16bit_ints values in
      blconf_channel_set_internal channel property
        (GV_array (match values_new with Some v => v | None => values end))
  end.

(** What one iteration of [blconf_channel_get_array_valist] stores through
    the next pointer argument, as a value of the requested C type; [None]
    for a type the switch does not know. *)
Definition get_array_valist_store (cur_value_type : GType) (val : GValue)
  : option GValue :=
  match cur_value_type with
  | G_TYPE_UCHAR => Some (GV_uchar (g_value_get_uchar val))
  | G_TYPE_CHAR => Some (GV_char (g_value_get_schar val))
  | G_TYPE_UINT => Some (GV_uint (g_value_get_uint val))
  | G_TYPE_INT => Some (GV_int (g_value_get_int val))
  | G_TYPE_UINT64 => Some (GV_uint64 (g_value_get_uint64 val))
  | G_TYPE_INT64 => Some (GV_int64 (g_value_get_int64 val))
  | G_TYPE_FLOAT => Some (GV_float (g_value_get_float val))
  | G_TYPE_DOUBLE => Some (GV_double (g_value_get_double val))
  | G_TYPE_BOOLEAN => Some (GV_boolean (g_value_get_boolean val))
  | G_TYPE_STRING => Some (GV_string (g_value_get_string val))
  | BLCONF_TYPE_UINT16 => Some (GV_uint16 (cast_u 16 (g_value_get_uint val)))
  | BLCONF_TYPE_INT16 => Some (GV_int16 (cast_s 16 (g_value_get_int val)))
  | G_TYPE_STRV => Some (match val with GV_strv l => GV_strv l | _ => GV_strv [] end)
  | _ => None
  end.

(** The element/argument type test of [blconf_channel_get_array_valist]. *)
Definition array_valist_type_ok (val : GValue) (cur_value_type : GType) : bool :=
  bool_decide (G_VALUE_TYPE val = cur_value_type)
  || (bool_decide (G_VALUE_TYPE val = G_TYPE_UINT)
      && bool_decide (cur_value_type = BLCONF_TYPE_UINT16))
  || (bool_decide (G_VALUE_TYPE val = G_TYPE_INT)
      && bool_decide (cur_value_type = BLCONF_TYPE_INT16)).

(** The loop of [blconf_channel_get_array_valist] over the argument types
    ([G_TYPE_INVALID] or the end of the list terminates them); [i] is the
    index and [out] what has been stored so far. *)
Fixpoint get_array_valist_loop (arr : list GValue) (types : list GType)
    (i : nat) (out : list GValue) : bool * list GValue :=
  match types with
  | [] | G_TYPE_INVALID :: _ =>
      if (i <? length arr)%nat then (false, out) else (true, out)
  | cur_value_type :: rest =>
      if Z.of_nat i >? cast_u 32 (Z.of_nat (length arr) - 1) then (false, out)
      else
        match arr !! i with
        | None => (false, out)
        | Some val =>
            if negb (array_valist_type_ok val cur_value_type) then (false, out)
            else
              match get_array_valist_store cur_value_type val with
              | Some stored => get_array_valist_loop arr rest (S i) (out ++ [stored])
              | None => (false, out)
              end
        end
  end.

(** [blconf_channel_get_array_valist]: the return value and the values
    stored through the pointer arguments, in order. *)
Definition blconf_channel_get_array_valist (channel : BlconfChannel)
    (property : gchar_p) (types : list GType) : bool * list GValue :=
  match blconf_channel_get_arrayv channel property with
  | None => (false, [])
  | Some arr => get_array_valist_loop arr types 0 []
  end.

End channel.

(* --------------------------------------------------------------------- *)
(** *** The struct codec *)
(* --------------------------------------------------------------------- *)

Section struct_codec.
Context `{Platform}.

(** [gsize] is as wide as a pointer. *)
Definition gsize_bits : Z := 8 * sizeof_gpointer.

(** [ALIGN_VAL (val, align)] on a [gsize] value and an [int] constant:
    [((val) + ((align) - 1)) & ~((align) - 1)]. *)
Definition ALIGN_VAL (val align : Z) : Z :=
  Z.land (cast_u gsize_bits (val + (align - 1))) (Z.lnot (align - 1)).

(** The walk of [blconf_channel_get_structv]: the string heap, the caller's
    struct and [cur_offset]. *)
Record StructWalk := {
  sw_heap : Heap;
  sw_struct : Mem;
  sw_offset : Z;
}.

(** [SET_STRUCT_VAL (ctype, GTYPE, alignment, cvalgetter)]: check the
    element's type, align, store through the member pointer, advance.
    [None] is the [goto out]. *)
Definition SET_STRUCT_VAL (sizeof_ctype : nat) (GTYPE : GType) (alignment : Z)
    (cvalgetter : Heap -> GValue -> Heap * Z) (val : GValue) (w : StructWalk)
  : option StructWalk :=
  if decide (G_VALUE_TYPE val <> GTYPE) then None
  else
    let cur_offset := ALIGN_VAL (sw_offset w) alignment in
    let '(heap, cval) := cvalgetter (sw_heap w) val in
    Some {| sw_heap := heap;
            sw_struct := mem_store (sw_struct w) cur_offset sizeof_ctype cval;
            sw_offset := cast_u gsize_bits (cur_offset + Z.of_nat sizeof_ctype) |}.

Definition pure_getter (get : GValue -> Z) : Heap -> GValue -> Heap * Z :=
  fun heap val => (heap, get val).

(** The [switch (member_types[i])] of [blconf_channel_get_structv]. *)
Definition get_structv_member (member_type : GType) (val : GValue) (w : StructWalk)
  : option StructWalk :=
  match member_type with
  | G_TYPE_STRING =>
      SET_STRUCT_VAL (Z.to_nat sizeof_gpointer) G_TYPE_STRING ALIGNOF_GPOINTER
        g_value_dup_string val w
  | G_TYPE_UCHAR =>
      SET_STRUCT_VAL 1 G_TYPE_UCHAR ALIGNOF_GUCHAR (pure_getter g_value_get_uchar) val w
  | G_TYPE_CHAR =>
      SET_STRUCT_VAL 1 G_TYPE_CHAR ALIGNOF_GCHAR (pure_getter g_value_get_schar) val w
  | G_TYPE_UINT =>
      SET_STRUCT_VAL 4 G_TYPE_UINT ALIGNOF_GUINT32 (pure_getter g_value_get_uint) val w
  | G_TYPE_INT =>
      SET_STRUCT_VAL 4 G_TYPE_INT ALIGNOF_GINT32 (pure_getter g_value_get_int) val w
  | G_TYPE_UINT64 =>
      SET_STRUCT_VAL 8 G_TYPE_UINT64 ALIGNOF_GUINT64 (pure_getter g_value_get_uint64) val w
  | G_TYPE_INT64 =>
      SET_STRUCT_VAL 8 G_TYPE_INT64 ALIGNOF_GINT64 (pure_getter g_value_get_int64) val w
  | G_TYPE_FLOAT =>
      SET_STRUCT_VAL 4 G_TYPE_FLOAT ALIGNOF_GFLOAT (pure_getter g_value_get_float) val w
  | G_TYPE_DOUBLE =>
      SET_STRUCT_VAL 8 G_TYPE_DOUBLE ALIGNOF_GDOUBLE (pure_getter g_value_get_double) val w
  | G_TYPE_BOOLEAN =>
      SET_STRUCT_VAL 4 G_TYPE_BOOLEAN ALIGNOF_GBOOLEAN
        (pure_getter (fun v => Z.b2z (g_value_get_boolean v))) val w
  | BLCONF_TYPE_UINT16 =>
      SET_STRUCT_VAL 2 G_TYPE_UINT ALIGNOF_GUINT16 (pure_getter g_value_get_uint) val w
  | BLCONF_TYPE_INT16 =>
      SET_STRUCT_VAL 2 G_TYPE_INT ALIGNOF_GINT16 (pure_getter g_value_get_int) val w
  | _ => None
  end.

(** The [for] loop of [blconf_channel_get_structv] over the members and the
    array elements of the same index. The walk is returned as the loop left
    it, also on failure. *)
Fixpoint get_structv_loop (member_types : list GType) (arr : list GValue)
    (w : StructWalk) : bool * StructWalk :=
  match member_types, arr with
  | [], _ => (true, w)
  | _ :: _, [] => (false, w)
  | member_type :: member_types', val :: arr' =>
      match get_structv_member member_type val w with
      | Some w' => get_structv_loop member_types' arr' w'
      | None => (false, w)
      end
  end.

Context `{Collaborators}.

(** [blconf_channel_get_structv]: the return value, and the string heap and
    the caller's struct afterwards. [n_members] is the length of
    [member_types]. *)
Definition blconf_channel_get_structv (channel : BlconfChannel)
    (property : gchar_p) (heap : Heap) (value_struct : Mem)
    (member_types : list GType) : bool * Heap * Mem :=
  if negb (bool_decide (is_Some property)) || (length member_types =? 0)%nat
  then (false, heap, value_struct)
  else
    match blconf_channel_get_arrayv channel property with
    | None => (false, heap, value_struct)
    | Some arr =>
        if negb (length arr =? length member_types)%nat
        then (false, heap, value_struct)
        else
          let '(ret, w) :=
            get_structv_loop member_types arr
              {| sw_heap := heap; sw_struct := value_struct; sw_offset := 0 |} in
          (ret, sw_heap w, sw_struct w)
    end.

(** [GET_STRUCT_VAL (ctype, GTYPE, alignment, cvalsetter)]: align, read
    through the member pointer into a new value, advance. [cvalsetter]
    receives the [sizeof_ctype] bytes read, as an unsigned number. *)
Definition GET_STRUCT_VAL (sizeof_ctype : nat) (alignment : Z)
    (cvalsetter : Z -> GValue) (value_struct : Mem) (cur_offset : Z)
  : GValue * Z :=
  let cur_offset := ALIGN_VAL cur_offset alignment in
  (cvalsetter (mem_load value_struct cur_offset sizeof_ctype),
   cast_u gsize_bits (cur_offset + Z.of_nat sizeof_ctype)).

(** The [switch (member_types[i])] of [blconf_channel_set_structv]. *)
Definition set_structv_member (heap : Heap) (value_struct : Mem)
    (member_type : GType) (cur_offset : Z) : option (GValue * Z) :=
  match member_type with
  | G_TYPE_STRING =>
      Some (GET_STRUCT_VAL (Z.to_nat sizeof_gpointer) ALIGNOF_GPOINTER
              (fun p => GV_string (heap_deref heap p)) value_struct cur_offset)
  | G_TYPE_UCHAR =>
      Some (GET_STRUCT_VAL 1 ALIGNOF_GUCHAR GV_uchar value_struct cur_offset)
  | G_TYPE_CHAR =>
      Some (GET_STRUCT_VAL 1 ALIGNOF_GCHAR (fun c => GV_char (cast_s 8 c))
              value_struct cur_offset)
  | G_TYPE_UINT =>
      Some (GET_STRUCT_VAL 4 ALIGNOF_GUINT32 GV_uint value_struct cur_offset)
  | G_TYPE_INT =>
      Some (GET_STRUCT_VAL 4 ALIGNOF_GINT32 (fun i => GV_int (cast_s 32 i))
              value_struct cur_offset)
  | G_TYPE_UINT64 =>
      Some (GET_STRUCT_VAL 8 ALIGNOF_GUINT64 GV_uint64 value_struct cur_offset)
  | G_TYPE_INT64 =>
      Some (GET_STRUCT_VAL 8 ALIGNOF_GINT64 (fun i => GV_int64 (cast_s 64 i))
              value_struct cur_offset)
  | G_TYPE_FLOAT =>
      Some (GET_STRUCT_VAL 4 ALIGNOF_GFLOAT GV_float value_struct cur_offset)
  | G_TYPE_DOUBLE =>
      Some (GET_STRUCT_VAL 8 ALIGNOF_GDOUBLE GV_double value_struct cur_offset)
  | G_TYPE_BOOLEAN =>
      Some (GET_STRUCT_VAL 4 ALIGNOF_GBOOLEAN
              (fun b => GV_boolean (negb (b =? 0))) value_struct cur_offset)
  | BLCONF_TYPE_UINT16 =>
      Some (GET_STRUCT_VAL 2 ALIGNOF_GUINT16 GV_uint16 value_struct cur_offset)
  | BLCONF_TYPE_INT16 =>
      Some (GET_STRUCT_VAL 2 ALIGNOF_GINT16 (fun i => GV_int16 (cast_s 16 i))
              value_struct cur_offset)
  | _ => None
  end.

(** The [for] loop of [blconf_channel_set_structv]; [arr] collects the
    values and [None] is the [goto out]. *)
Fixpoint set_structv_loop (heap : Heap) (value_struct : Mem)
    (member_types : list GType) (cur_offset : Z) (arr : list GValue)
  : option (list GValue) :=
  match member_types with
  | [] => Some arr
  | member_type :: member_types' =>
      match set_structv_member heap value_struct member_type cur_offset with
      | Some (val, cur_offset') =>
          set_structv_loop heap value_struct member_types' cur_offset' (arr ++ [val])
      | None => None
      end
  end.

(** [blconf_channel_set_structv]. *)
Definition blconf_channel_set_structv (channel : BlconfChannel)
    (property : gchar_p) (heap : Heap) (value_struct : Mem)
    (member_types : list GType) : bool * BlconfChannel :=
  if negb (bool_decide (is_Some property)) || (length member_types =? 0)%nat
  then (false, channel)
  else
    match set_structv_loop heap value_struct member_types 0 [] with
    | Some arr => blconf_channel_set_arrayv channel property arr
    | None => (false, channel)
    end.

End struct_codec.

(* ===================================================================== *)
(** ** The settings bridge ([xfconf-gsettings-backend.c]) *)
(* ===================================================================== *)

(** The bridge calls the channel through its [xfconf_channel_*] names; they
    are the [blconf_channel_*] functions above. *)

Section backend.
Context `{Collaborators}.

(** [struct _XfconfGsettingsBackend]. [changed_prop] maps a key written
    through the bridge to the origin tag of that write. [subscribed_prop]
    is only ever walked through [g_hash_table_get_keys]: it is kept as that
    list of keys. *)
Record XfconfGsettingsBackend := {
  channel : BlconfChannel;
  changed_prop : gmap string gpointer;
  subscribed_prop : list string;
}.

(** What the bridge does towards GSettings and the log. *)
Inductive BackendOutput :=
| g_settings_backend_changed (key : string) (origin_tag : gpointer)
| g_warning_not_expected (property : string).

(** The [for] loop over the subscribed keys: emits on the first key that is
    a prefix of [property] and stops. *)
Fixpoint subscribed_scan (keys : list string) (property : string)
  : bool * list BackendOutput :=
  match keys with
  | [] => (false, [])
  | l_data :: l_next =>
      if g_str_has_prefix property l_data
      then (true, [g_settings_backend_changed property NULL])
      else subscribed_scan l_next property
  end.

(** [xfconf_gsettings_backend_property_changed_cb]. *)
Definition xfconf_gsettings_backend_property_changed_cb
    (self : XfconfGsettingsBackend) (property : string) (value : GValue)
  : XfconfGsettingsBackend * list BackendOutput :=
  let '(self, found, out) :=
    match changed_prop self !! property with
    | Some origin_tag =>
        ({| channel := channel self;
            changed_prop := delete property (changed_prop self);
            subscribed_prop := subscribed_prop self |},
         true,
         [g_settings_backend_changed property origin_tag])
    | None =>
        let '(found, out) := subscribed_scan (subscribed_prop self) property in
        (self, found, out)
    end in
  (self, if found then out else out ++ [g_warning_not_expected property]).

(** [xfconf_gsettings_backend_write]. *)
Definition xfconf_gsettings_backend_write (self : XfconfGsettingsBackend)
    (key : string) (variant : GVariant) (origin_tag : gpointer)
  : bool * XfconfGsettingsBackend :=
  match xfconf_gvariant_to_gvalue variant with
  | Some value =>
      let changed := <[key := origin_tag]> (changed_prop self) in
      let '(ret_val, channel') :=
        blconf_channel_set_property (channel self) (Some key) value in
      let changed := if ret_val then changed else delete key changed in
      (false, {| channel := channel';
                 changed_prop := changed;
                 subscribed_prop := subscribed_prop self |})
  | None => (false, self)
  end.

End backend.

(* ===================================================================== *)
(** ** The singleton registry and the constructor *)
(* ===================================================================== *)

(** A [BlconfChannel *]: the identity of a channel object. *)
Definition ObjId := nat.

(** [GObjectConstructParam]: the name of the [pspec] and the value. *)
Definition GObjectConstructParam := (string * GValue)%type.

Definition IS_SINGLETON_DEFAULT : bool := true.

(** Where a thread running [blconf_channel_constructor] stands. *)
Inductive CtorPc :=
| PcEntry
| PcLocked
| PcLooked (channel : option ObjId)
| PcHave (channel : ObjId)
| PcUnlocked (channel : ObjId)
| PcReturned (result : option ObjId).

Record CtorThread := {
  ct_props : list GObjectConstructParam;
  ct_pc : CtorPc;
}.

Section constructor.
Context `{Collaborators}.

(** The process-wide state the constructor works on: the lock
    [G_LOCK (__singletons)] with the thread holding it, the table
    [__channel_singletons] (NULL until first used) and the channel objects
    allocated so far. *)
Record ProcessState := {
  singletons_lock : option nat;
  channel_singletons : option (gmap string ObjId);
  objects : gmap ObjId BlconfChannel;
  next_object : ObjId;
}.

Definition set_lock (st : ProcessState) (l : option nat) : ProcessState :=
  {| singletons_lock := l;
     channel_singletons := channel_singletons st;
     objects := objects st;
     next_object := next_object st |}.

Definition set_singletons (st : ProcessState) (t : gmap string ObjId) : ProcessState :=
  {| singletons_lock := singletons_lock st;
     channel_singletons := Some t;
     objects := objects st;
     next_object := next_object st |}.

Definition set_object (st : ProcessState) (o : ObjId) (ch : BlconfChannel) : ProcessState :=
  {| singletons_lock := singletons_lock st;
     channel_singletons := channel_singletons st;
     objects := <[o := ch]> (objects st);
     next_object := next_object st |}.

(** The first loop of the constructor over the construct properties. *)
Fixpoint constructor_args_loop (construct_properties : list GObjectConstructParam)
    (channel_name' : gchar_p) (is_singleton' : bool) : gchar_p * bool :=
  match construct_properties with
  | [] => (channel_name', is_singleton')
  | (name, value) :: rest =>
      if String.eqb name "channel-name"
      then constructor_args_loop rest (g_value_get_string value) is_singleton'
      else if String.eqb name "is-singleton"
      then constructor_args_loop rest channel_name' (g_value_get_boolean value)
      else constructor_args_loop rest channel_name' is_singleton'
  end.

Definition constructor_args (construct_properties : list GObjectConstructParam)
  : gchar_p * bool :=
  constructor_args_loop construct_properties None IS_SINGLETON_DEFAULT.

(** [blconf_channel_set_g_property], by property name. *)
Definition blconf_channel_set_g_property (ch : BlconfChannel) (name : string)
    (value : GValue) : BlconfChannel :=
  if String.eqb name "channel-name" then
    {| is_singleton := is_singleton ch; disposed := disposed ch;
       channel_name := g_value_get_string value;
       property_base := property_base ch; cache := cache ch |}
  else if String.eqb name "property-base" then
    {| is_singleton := is_singleton ch; disposed := disposed ch;
       channel_name := channel_name ch;
       property_base := g_value_get_string value; cache := cache ch |}
  else if String.eqb name "is-singleton" then
    {| is_singleton := g_value_get_boolean value; disposed := disposed ch;
       channel_name := channel_name ch;
       property_base := property_base ch; cache := cache ch |}
  else ch.

(** The parent ([GObject]) constructor: a new zero-filled instance on which
    every construct property is set. *)
Definition parent_constructor (construct_properties : list GObjectConstructParam)
    (st : ProcessState) : ObjId * ProcessState :=
  let zero := {| is_singleton := false; disposed := false; channel_name := None;
                 property_base := None; cache := None |} in
  let ch := fold_left (fun ch p => blconf_channel_set_g_property ch (fst p) (snd p))
                      construct_properties zero in
  let o := next_object st in
  (o, {| singletons_lock := singletons_lock st;
         channel_singletons := channel_singletons st;
         objects := <[o := ch]> (objects st);
         next_object := S o |}).

(** The tail of the constructor: [if (!channel->cache) { ... }]. *)
Definition constructor_attach_cache (channel : ObjId) (channel_name' : string)
    (st : ProcessState) : ProcessState :=
  match objects st !! channel with
  | Some ch =>
      match cache ch with
      | None =>
          set_object st channel
            (with_cache ch (blconf_cache_prefetch (blconf_cache_new channel_name')
                                                  (property_base ch)))
      | Some _ => st
      end
  | None => st
  end.

(** [blconf_channel_constructor] run by one thread with nobody else holding
    the lock: the returned object (NULL is [None]) and the state. *)
Definition blconf_channel_constructor
    (construct_properties : list GObjectConstructParam) (st : ProcessState)
  : option ObjId * ProcessState :=
  let '(channel_name', is_singleton') := constructor_args construct_properties in
  match channel_name' with
  | None => (None, st)
  | Some name =>
      let '(channel, st) :=
        if is_singleton' then
          let '(channel, st) :=
            match channel_singletons st with
            | None => (None, set_singletons st ∅)
            | Some t => (t !! name, st)
            end in
          match channel with
          | None =>
              let '(channel, st) := parent_constructor construct_properties st in
              (channel,
               set_singletons st (<[name := channel]> (default ∅ (channel_singletons st))))
          | Some channel => (channel, st)
          end
        else parent_constructor construct_properties st in
      (Some channel, constructor_attach_cache channel name st)
  end.

(** The same function cut at the points where another thread can run:
    taking the lock, reading the table, creating and registering, releasing
    the lock, attaching the cache. [None]: the thread cannot move (it waits
    for the lock, or has returned). *)
Definition ctor_step (tid : nat) (construct_properties : list GObjectConstructParam)
    (pc : CtorPc) (st : ProcessState) : option (CtorPc * ProcessState) :=
  let '(channel_name', is_singleton') := constructor_args construct_properties in
  match channel_name' with
  | None =>
      match pc with
      | PcEntry => Some (PcReturned None, st)
      | _ => None
      end
  | Some name =>
      match pc with
      | PcEntry =>
          if is_singleton' then
            match singletons_lock st with
            | None => Some (PcLocked, set_lock st (Some tid))
            | Some _ => None
            end
          else
            let '(channel, st) := parent_constructor construct_properties st in
            Some (PcUnlocked channel, st)
      | PcLocked =>
          match channel_singletons st with
          | None => Some (PcLooked None, set_singletons st ∅)
          | Some t => Some (PcLooked (t !! name), st)
          end
      | PcLooked None =>
          let '(channel, st) := parent_constructor construct_properties st in
          Some (PcHave channel,
                set_singletons st (<[name := channel]> (default ∅ (channel_singletons st))))
      | PcLooked (Some channel) => Some (PcHave channel, st)
      | PcHave channel => Some (PcUnlocked channel, set_lock st None)
      | PcUnlocked channel =>
          Some (PcReturned (Some channel), constructor_attach_cache channel name st)
      | PcReturned _ => None
      end
  end.

(** Threads of one process running the constructor, interleaved. *)
Definition CtorConfig := (ProcessState * list CtorThread)%type.

Inductive ctor_interleave : CtorConfig -> CtorConfig -> Prop :=
| ctor_interleave_thread st threads tid th pc' st' :
    threads !! tid = Some th ->
    ctor_step tid (ct_props th) (ct_pc th) st = Some (pc', st') ->
    ctor_interleave (st, threads)
      (st', <[tid := {| ct_props := ct_props th; ct_pc := pc' |}]> threads).

End constructor.

(* ===================================================================== *)
(** ** Vocabulary of the statements *)
(* ===================================================================== *)

(** The cache serves a write to the next lookup of the same path. *)
Definition cache_read_your_writes `{Collaborators} : Prop :=
  forall c k v c', blconf_cache_set c k v = (true, c') -> blconf_cache_lookup c' k = Some v.

(** The types [blconf_channel_get_array_valist] and
    [blconf_channel_set_array_valist] know. *)
Definition array_valist_known (t : GType) : bool :=
  match t with
  | G_TYPE_UCHAR | G_TYPE_CHAR | G_TYPE_UINT | G_TYPE_INT | G_TYPE_UINT64
  | G_TYPE_INT64 | G_TYPE_FLOAT | G_TYPE_DOUBLE | G_TYPE_BOOLEAN | G_TYPE_STRING
  | BLCONF_TYPE_UINT16 | BLCONF_TYPE_INT16 | G_TYPE_STRV => true
  | _ => false
  end.

(** Converting one array element to a target type on its own: kept when it
    already has the type, transformed otherwise. *)
Definition array_elem_convert `{Collaborators} (gtype : GType) (value_src : GValue)
  : option GValue :=
  if decide (G_VALUE_TYPE value_src = gtype) then Some value_src
  else g_value_transform value_src gtype.

(** What the two [switch] statements of the struct codec do for a member
    type, as one table: the alignment macro, [sizeof (ctype)], the type the
    array element must have, how the bytes read from the struct become a
    value, what is stored for a value, and whether the member is a plain
    number whose bytes are its value (neither a pointer nor a [gboolean]). *)
Record MemberCodec := {
  mc_align : Z;
  mc_size : nat;
  mc_wire : GType;
  mc_read : Heap -> Z -> GValue;
  mc_get : Heap -> GValue -> Heap * Z;
  mc_plain : bool;
}.

Section struct_vocabulary.
Context `{Platform}.

Definition member_codec (member_type : GType) : option MemberCodec :=
  match member_type with
  | G_TYPE_STRING =>
      Some {| mc_align := ALIGNOF_GPOINTER; mc_size := Z.to_nat sizeof_gpointer;
              mc_wire := G_TYPE_STRING;
              mc_read := fun heap p => GV_string (heap_deref heap p);
              mc_get := g_value_dup_string; mc_plain := false |}
  | G_TYPE_UCHAR =>
      Some {| mc_align := ALIGNOF_GUCHAR; mc_size := 1; mc_wire := G_TYPE_UCHAR;
              mc_read := fun _ => GV_uchar;
              mc_get := pure_getter g_value_get_uchar; mc_plain := true |}
  | G_TYPE_CHAR =>
      Some {| mc_align := ALIGNOF_GCHAR; mc_size := 1; mc_wire := G_TYPE_CHAR;
              mc_read := fun _ c => GV_char (cast_s 8 c);
              mc_get := pure_getter g_value_get_schar; mc_plain := true |}
  | G_TYPE_UINT =>
      Some {| mc_align := ALIGNOF_GUINT32; mc_size := 4; mc_wire := G_TYPE_UINT;
              mc_read := fun _ => GV_uint;
              mc_get := pure_getter g_value_get_uint; mc_plain := true |}
  | G_TYPE_INT =>
      Some {| mc_align := ALIGNOF_GINT32; mc_size := 4; mc_wire := G_TYPE_INT;
              mc_read := fun _ i => GV_int (cast_s 32 i);
              mc_get := pure_getter g_value_get_int; mc_plain := true |}
  | G_TYPE_UINT64 =>
      Some {| mc_align := ALIGNOF_GUINT64; mc_size := 8; mc_wire := G_TYPE_UINT64;
              mc_read := fun _ => GV_uint64;
              mc_get := pure_getter g_value_get_uint64; mc_plain := true |}
  | G_TYPE_INT64 =>
      Some {| mc_align := ALIGNOF_GINT64; mc_size := 8; mc_wire := G_TYPE_INT64;
              mc_read := fun _ i => GV_int64 (cast_s 64 i);
              mc_get := pure_getter g_value_get_int64; mc_plain := true |}
  | G_TYPE_FLOAT =>
      Some {| mc_align := ALIGNOF_GFLOAT; mc_size := 4; mc_wire := G_TYPE_FLOAT;
              mc_read := fun _ => GV_float;
              mc_get := pure_getter g_value_get_float; mc_plain := true |}
  | G_TYPE_DOUBLE =>
      Some {| mc_align := ALIGNOF_GDOUBLE; mc_size := 8; mc_wire := G_TYPE_DOUBLE;
              mc_read := fun _ => GV_double;
              mc_get := pure_getter g_value_get_double; mc_plain := true |}
  | G_TYPE_BOOLEAN =>
      Some {| mc_align := ALIGNOF_GBOOLEAN; mc_size := 4; mc_wire := G_TYPE_BOOLEAN;
              mc_read := fun _ b => GV_boolean (negb (b =? 0));
              mc_get := pure_getter (fun v => Z.b2z (g_value_get_boolean v));
              mc_plain := false |}
  | BLCONF_TYPE_UINT16 =>
      Some {| mc_align := ALIGNOF_GUINT16; mc_size := 2; mc_wire := G_TYPE_UINT;
              mc_read := fun _ => GV_uint16;
              mc_get := pure_getter g_value_get_uint; mc_plain := true |}
  | BLCONF_TYPE_INT16 =>
      Some {| mc_align := ALIGNOF_GINT16; mc_size := 2; mc_wire := G_TYPE_INT;
              mc_read := fun _ i => GV_int16 (cast_s 16 i);
              mc_get := pure_getter g_value_get_int; mc_plain := true |}
  | _ => None
  end.

(** The alignment macros are powers of two that fit a [gsize], and a
    pointer has at least one byte. *)
Definition platform_ok : Prop :=
  1 <= sizeof_gpointer
  /\ Forall (fun a => exists k, 0 <= k < gsize_bits /\ a = 2 ^ k)
       [ ALIGNOF_GPOINTER; ALIGNOF_GUCHAR; ALIGNOF_GCHAR; ALIGNOF_GUINT32;
         ALIGNOF_GINT32; ALIGNOF_GUINT64; ALIGNOF_GINT64; ALIGNOF_GFLOAT;
         ALIGNOF_GDOUBLE; ALIGNOF_GBOOLEAN; ALIGNOF_GUINT16; ALIGNOF_GINT16 ].

(** Every member type is one the codec handles and every member, placed by
    the walk from [cur_offset], lies within [len] bytes. *)
Fixpoint struct_fits (len : Z) (cur_offset : Z) (member_types : list GType) : Prop :=
  match member_types with
  | [] => True
  | member_type :: member_types' =>
      match member_codec member_type with
      | None => False
      | Some mc =>
          let o := ALIGN_VAL cur_offset (mc_align mc) in
          o + Z.of_nat (mc_size mc) <= len
          /\ struct_fits len (cast_u gsize_bits (o + Z.of_nat (mc_size mc))) member_types'
      end
  end.

(** A struct conforming to a descriptor: a buffer of bytes, of a size a
    [gsize] can hold with room to align, in which every member fits. *)
Definition struct_conforms (value_struct : Mem) (member_types : list GType) : Prop :=
  bytes_ok value_struct
  /\ Z.of_nat (length value_struct) <= 2 ^ (gsize_bits - 1)
  /\ struct_fits (Z.of_nat (length value_struct)) 0 member_types.

(** The bytes of the unpacked struct [R], member by member from
    [cur_offset]: padding keeps the bytes of the destination [T], the slot
    of a plain number has the bytes of the source [S], and what follows the
    last member is the destination's. *)
Fixpoint struct_bytes_agree (S T R : Mem) (cur_offset : Z) (member_types : list GType)
  : Prop :=
  match member_types with
  | [] => forall i : nat, cur_offset <= Z.of_nat i -> R !! i = T !! i
  | member_type :: member_types' =>
      match member_codec member_type with
      | None => False
      | Some mc =>
          let o := ALIGN_VAL cur_offset (mc_align mc) in
          (forall i : nat, cur_offset <= Z.of_nat i < o -> R !! i = T !! i)
          /\ (mc_plain mc = true ->
              forall i : nat, o <= Z.of_nat i < o + Z.of_nat (mc_size mc) ->
                              R !! i = S !! i)
          /\ struct_bytes_agree S T R (cast_u gsize_bits (o + Z.of_nat (mc_size mc)))
               member_types'
      end
  end.

(** A string or [gboolean] member of the unpacked struct [R] at offset [o],
    against the same member of the source [S]: the string is a copy made by
    this retrieval, an allocation that [heap], the heap before it, does not
    have, with the text of the source's string (NULL for NULL); the
    [gboolean] is 0 for 0 and 1 for everything else. *)
Definition member_converted (heap heap' : Heap) (S R : Mem) (member_type : GType)
    (o : Z) : Prop :=
  match member_type with
  | G_TYPE_STRING =>
      let n := Z.to_nat sizeof_gpointer in
      match heap_deref heap (mem_load S o n) with
      | Some s =>
          heap_deref heap' (mem_load R o n) = Some s
          /\ Z.of_nat (length heap) < mem_load R o n
          /\ mem_load R o n <> mem_load S o n
      | None => mem_load R o n = 0
      end
  | G_TYPE_BOOLEAN => mem_load R o 4 = (if mem_load S o 4 =? 0 then 0 else 1)
  | _ => True
  end.

(** [member_converted] for every member, placed by the walk from
    [cur_offset]. *)
Fixpoint struct_converted_agree (heap heap' : Heap) (S R : Mem) (cur_offset : Z)
    (member_types : list GType) : Prop :=
  match member_types with
  | [] => True
  | member_type :: member_types' =>
      match member_codec member_type with
      | None => False
      | Some mc =>
          let o := ALIGN_VAL cur_offset (mc_align mc) in
          member_converted heap heap' S R member_type o
          /\ struct_converted_agree heap heap' S R
               (cast_u gsize_bits (o + Z.of_nat (mc_size mc))) member_types'
      end
  end.

(** The member type is one the codec handles and the array element has the
    kind that member requires: the walk of [blconf_channel_get_structv] goes
    past such a member, and stops at any other. *)
Definition member_accepts (member_type : GType) (val : GValue) : bool :=
  match member_codec member_type with
  | Some mc => bool_decide (G_VALUE_TYPE val = mc_wire mc)
  | None => false
  end.

(** The slot at offset [o] of the struct [R] holds [val] as a C value of
    the member type: the bytes of the number, as many as the C type has; for
    a string, a pointer to a copy of the text that [heap_before] does not
    have, NULL for NULL; for a [gboolean], 0 or 1. *)
Definition member_stored (heap_before heap' : Heap) (R : Mem) (member_type : GType)
    (o : Z) (val : GValue) : Prop :=
  let holds (n : nat) (cval : Z) := mem_load R o n = cval mod 256 ^ Z.of_nat n in
  match member_type with
  | G_TYPE_STRING =>
      let p := mem_load R o (Z.to_nat sizeof_gpointer) in
      match g_value_get_string val with
      | Some s => heap_deref heap' p = Some s /\ Z.of_nat (length heap_before) < p
      | None => p = 0
      end
  | G_TYPE_UCHAR => holds 1%nat (g_value_get_uchar val)
  | G_TYPE_CHAR => holds 1%nat (g_value_get_schar val)
  | G_TYPE_UINT => holds 4%nat (g_value_get_uint val)
  | G_TYPE_INT => holds 4%nat (g_value_get_int val)
  | G_TYPE_UINT64 => holds 8%nat (g_value_get_uint64 val)
  | G_TYPE_INT64 => holds 8%nat (g_value_get_int64 val)
  | G_TYPE_FLOAT => holds 4%nat (g_value_get_float val)
  | G_TYPE_DOUBLE => holds 8%nat (g_value_get_double val)
  | G_TYPE_BOOLEAN => holds 4%nat (Z.b2z (g_value_get_boolean val))
  | BLCONF_TYPE_UINT16 => holds 2%nat (g_value_get_uint val)
  | BLCONF_TYPE_INT16 => holds 2%nat (g_value_get_int val)
  | _ => False
  end.

(** The struct [R] after a walk from [cur_offset] that stored [vals] into
    the members [member_types] of the destination [T] and nothing else:
    every member holds its value, the padding before it is the
    destination's, and so is every byte from the end of the last member
    stored. *)
Fixpoint struct_holds (heap_before heap' : Heap) (T R : Mem) (cur_offset : Z)
    (member_types : list GType) (vals : list GValue) : Prop :=
  match member_types, vals with
  | member_type :: member_types', val :: vals' =>
      match member_codec member_type with
      | None => False
      | Some mc =>
          let o := ALIGN_VAL cur_offset (mc_align mc) in
          (forall i : nat, cur_offset <= Z.of_nat i < o -> R !! i = T !! i)
          /\ member_stored heap_before heap' R member_type o val
          /\ struct_holds heap_before heap' T R
               (cast_u gsize_bits (o + Z.of_nat (mc_size mc))) member_types' vals'
      end
  | _, _ => forall i : nat, cur_offset <= Z.of_nat i -> R !! i = T !! i
  end.

End struct_vocabulary.

(** The thread is between [G_LOCK] and [G_UNLOCK]. *)
Definition in_critical_section (pc : CtorPc) : bool :=
  match pc with
  | PcLocked | PcLooked _ | PcHave _ => true
  | _ => false
  end.

(** [g_hash_table_lookup (__channel_singletons, name)], NULL for a NULL table. *)
Definition singleton_lookup `{Collaborators} (st : ProcessState) (name : string)
  : option ObjId :=
  match channel_singletons st with
  | Some t => t !! name
  | None => None
  end.

(** What holds of a thread at each point of the constructor: it is in the
    critical section exactly when it holds the lock, and the channel it has
    in hand for a singleton name is the one registered under that name. *)
Definition ctor_thread_ok `{Collaborators} (st : ProcessState) (tid : nat)
    (th : CtorThread) : Prop :=
  (in_critical_section (ct_pc th) = true <-> singletons_lock st = Some tid)
  /\ match ct_pc th with
     | PcEntry => True
     | PcLocked => exists name, constructor_args (ct_props th) = (Some name, true)
     | PcLooked c =>
         exists name, constructor_args (ct_props th) = (Some name, true)
                      /\ singleton_lookup st name = c
     | PcHave o =>
         exists name, constructor_args (ct_props th) = (Some name, true)
                      /\ singleton_lookup st name = Some o
     | PcUnlocked o | PcReturned (Some o) =>
         forall name, constructor_args (ct_props th) = (Some name, true) ->
                      singleton_lookup st name = Some o
     | PcReturned None => fst (constructor_args (ct_props th)) = None
     end.

Definition ctor_invariant `{Collaborators} (cfg : CtorConfig) : Prop :=
  forall tid th, snd cfg !! tid = Some th -> ctor_thread_ok (fst cfg) tid th.

(** A scheduler: run the threads named by [sched], one step each, in that
    order; a thread that cannot move is skipped. *)
Fixpoint ctor_run_schedule `{Collaborators} (sched : list nat) (cfg : CtorConfig)
  : CtorConfig :=
  match sched with
  | [] => cfg
  | tid :: sched' =>
      match snd cfg !! tid with
      | Some th =>
          match ctor_step tid (ct_props th) (ct_pc th) (fst cfg) with
          | Some (pc', st') =>
              ctor_run_schedule sched'
                (st', <[tid := {| ct_props := ct_props th; ct_pc := pc' |}]> (snd cfg))
          | None => ctor_run_schedule sched' cfg
          end
      | None => ctor_run_schedule sched' cfg
      end
  end.

(* ===================================================================== *)
(** ** A test double for the collaborators *)
(* ===================================================================== *)

(** An in-process store standing in for the cache and the daemon: a write
    is visible to the next lookup, ["/foo/bar"] is locked by policy, and the
    transform table widens 32-bit integers to 64 bits and knows nothing
    else. *)
Definition test_collaborators : Collaborators := {|
  BlconfCache := list (gchar_p * GValue);
  blconf_cache_new := fun _ => [];
  blconf_cache_prefetch := fun c _ => c;
  blconf_cache_lookup := fun c k =>
    match List.find (fun e => bool_decide (fst e = k)) c with
    | Some e => Some (snd e)
    | None => None
    end;
  blconf_cache_set := fun c k v => (true, (k, v) :: c);
  blconf_cache_reset := fun c k _ =>
    (true, List.filter (fun e => negb (bool_decide (fst e = k))) c);
  blconf_client_is_property_locked := fun _ p =>
    Some (bool_decide (p = Some "/foo/bar"%string));
  g_value_transform := fun v ty =>
    match v, ty with
    | GV_int x, G_TYPE_INT64 => Some (GV_int64 x)
    | GV_uint x, G_TYPE_UINT64 => Some (GV_uint64 x)
    | _, _ => None
    end;
  g_utf8_validate := fun _ => true;
  GVariant := GValue;
  xfconf_gvariant_to_gvalue := fun v => Some v;
|}.

(** A channel as the constructor leaves it, over the test double. *)
Definition test_channel (name : string) (base : gchar_p) : @BlconfChannel test_collaborators :=
  {| is_singleton := false; disposed := false; channel_name := Some name;
     property_base := base;
     cache := Some (@blconf_cache_new test_collaborators name) |}.

(** The same channel with properties already in its cache. *)
Definition test_channel_holding (name : string) (base : gchar_p)
    (store : list (gchar_p * GValue)) : @BlconfChannel test_collaborators :=
  {| is_singleton := false; disposed := false; channel_name := Some name;
     property_base := base;
     cache := Some (store : @BlconfCache test_collaborators) |}.

(** A bridge with one pending write, for ["/foo"], and one subscription,
    to ["/plugin/"]. *)
Definition test_backend : @XfconfGsettingsBackend test_collaborators :=
  {| channel := test_channel "apps" None;
     changed_prop := {[ "/foo"%string := 7 ]};
     subscribed_prop := ["/plugin/"%string] |}.

(** Two threads asking for the singleton channel ["apps"] in a fresh
    process, and a schedule in which the second tries to enter while the
    first holds the lock and enters as soon as it is released. *)
Definition test_ctor_props : list GObjectConstructParam :=
  [("channel-name"%string, GV_string (Some "apps"%string))].

Definition test_process : @CtorConfig test_collaborators :=
  ({| singletons_lock := None; channel_singletons := None;
      objects := ∅; next_object := 0%nat |},
   [ {| ct_props := test_ctor_props; ct_pc := PcEntry |};
     {| ct_props := test_ctor_props; ct_pc := PcEntry |} ]).

Definition test_schedule : list nat :=
  [0; 1; 0; 1; 0; 0; 1; 1; 0; 1; 1; 1]%nat.

(** The struct [{ guchar; guint64; guint16; gchar * }] on the 64-bit
    platform: 42, 0x0807060504030201, 0x1234 and a pointer to ["hi"], with
    zero padding. *)
Definition test_member_types : list GType :=
  [G_TYPE_UCHAR; G_TYPE_UINT64; BLCONF_TYPE_UINT16; G_TYPE_STRING].

Definition test_heap : list string := ["hi"%string].

Definition test_struct : list Z :=
  [42; 0; 0; 0; 0; 0; 0; 0;
   1; 2; 3; 4; 5; 6; 7; 8;
   52; 18; 0; 0; 0; 0; 0; 0;
   1; 0; 0; 0; 0; 0; 0; 0].

(** A channel whose property ["/pair"] holds two unsigned integers. *)
Definition test_channel_pair : @BlconfChannel test_collaborators :=
  test_channel_holding "apps" None
    [(Some "/pair"%string, GV_array [GV_uint 7; GV_uint 9])].

(* ===================================================================== *)
(** ** The rest of the channel interface *)
(* ===================================================================== *)

Section channel_accessors.
Context `{Collaborators}.

(** [blconf_channel_has_property]. The lookup is made with a NULL value:
    only whether it succeeds is used. *)
Definition blconf_channel_has_property (channel : BlconfChannel)
    (property : gchar_p) : bool :=
  let real_property := REAL_PROP channel property in
  match cache channel with
  | Some c => bool_decide (is_Some (blconf_cache_lookup c real_property))
  | None => false
  end.

(** [blconf_channel_get_string]: a copy of the stored string, or of
    [default_value]. *)
Definition blconf_channel_get_string (channel : BlconfChannel)
    (property : gchar_p) (default_value : gchar_p) : gchar_p :=
  match property with
  | None => None
  | Some _ =>
      let '(ret, val) := blconf_channel_get_internal channel property GV_unset in
      let value :=
        if ret then
          if decide (G_VALUE_TYPE val = G_TYPE_STRING) then g_value_get_string val
          else None
        else None in
      match value with
      | Some s => Some s
      | None => default_value
      end
  end.

(** [blconf_channel_get_int]. *)
Definition blconf_channel_get_int (channel : BlconfChannel)
    (property : gchar_p) (default_value : Z) : Z :=
  let value := default_value in
  match property with
  | None => value
  | Some _ =>
      let '(ret, val) := blconf_channel_get_internal channel property GV_unset in
      if ret then
        if decide (G_VALUE_TYPE val = G_TYPE_INT) then g_value_get_int val else value
      else value
  end.

(** [blconf_channel_get_uint]. The local [value] is a [gint]: the default
    and the stored number pass through it on their way to the [guint32]
    result. *)
Definition blconf_channel_get_uint (channel : BlconfChannel)
    (property : gchar_p) (default_value : Z) : Z :=
  let value := cast_s 32 default_value in
  match property with
  | None => cast_u 32 value
  | Some _ =>
      let '(ret, val) := blconf_channel_get_internal channel property GV_unset in
      let value :=
        if ret then
          if decide (G_VALUE_TYPE val = G_TYPE_UINT)
          then cast_s 32 (g_value_get_uint val) else value
        else value in
      cast_u 32 value
  end.

(** [blconf_channel_get_uint64]. The local [value] is a [gint64]. *)
Definition blconf_channel_get_uint64 (channel : BlconfChannel)
    (property : gchar_p) (default_value : Z) : Z :=
  let value := cast_s 64 default_value in
  match property with
  | None => cast_u 64 value
  | Some _ =>
      let '(ret, val) := blconf_channel_get_internal channel property GV_unset in
      let value :=
        if ret then
          if decide (G_VALUE_TYPE val = G_TYPE_UINT64)
          then cast_s 64 (g_value_get_uint64 val) else value
        else value in
      cast_u 64 value
  end.

(** [blconf_channel_get_double]; a double is its bit pattern. *)
Definition blconf_channel_get_double (channel : BlconfChannel)
    (property : gchar_p) (default_value : Z) : Z :=
  let value := default_value in
  match property with
  | None => value
  | Some _ =>
      let '(ret, val) := blconf_channel_get_internal channel property GV_unset in
      if ret then
        if decide (G_VALUE_TYPE val = G_TYPE_DOUBLE) then g_value_get_double val else value
      else value
  end.

(** [blconf_channel_get_bool]. *)
Definition blconf_channel_get_bool (channel : BlconfChannel)
    (property : gchar_p) (default_value : bool) : bool :=
  let value := default_value in
  match property with
  | None => value
  | Some _ =>
      let '(ret, val) := blconf_channel_get_internal channel property GV_unset in
      if ret then
        if decide (G_VALUE_TYPE val = G_TYPE_BOOLEAN) then g_value_get_boolean val else value
      else value
  end.

(** [blconf_channel_set_string]. [value] may be NULL. *)
Definition blconf_channel_set_string (channel : BlconfChannel)
    (property : gchar_p) (value : gchar_p) : bool * BlconfChannel :=
  match property with
  | None => (false, channel)
  | Some _ =>
      if negb (match value with
               | None => true
               | Some s => g_utf8_validate s
               end)
      then (false, channel)
      else blconf_channel_set_internal channel property (GV_string value)
  end.

(** [blconf_channel_set_int]. *)
Definition blconf_channel_set_int (channel : BlconfChannel)
    (property : gchar_p) (value : Z) : bool * BlconfChannel :=
  match property with
  | None => (false, channel)
  | Some _ => blconf_channel_set_internal channel property (GV_int value)
  end.

(** [blconf_channel_set_uint]. *)
Definition blconf_channel_set_uint (channel : BlconfChannel)
    (property : gchar_p) (value : Z) : bool * BlconfChannel :=
  match property with
  | None => (false, channel)
  | Some _ => blconf_channel_set_internal channel property (GV_uint value)
  end.

(** [blconf_channel_set_uint64]. *)
Definition blconf_channel_set_uint64 (channel : BlconfChannel)
    (property : gchar_p) (value : Z) : bool * BlconfChannel :=
  match property with
  | None => (false, channel)
  | Some _ => blconf_channel_set_internal channel property (GV_uint64 value)
  end.

(** [blconf_channel_set_double]. *)
Definition blconf_channel_set_double (channel : BlconfChannel)
    (property : gchar_p) (value : Z) : bool * BlconfChannel :=
  match property with
  | None => (false, channel)
  | Some _ => blconf_channel_set_internal channel property (GV_double value)
  end.

(** [blconf_channel_set_bool]. *)
Definition blconf_channel_set_bool (channel : BlconfChannel)
    (property : gchar_p) (value : bool) : bool * BlconfChannel :=
  match property with
  | None => (false, channel)
  | Some _ => blconf_channel_set_internal channel property (GV_boolean value)
  end.

(** [blconf_channel_set_string_list]. [values] is the NULL-terminated
    vector as a list; a NULL vector and one whose first entry is NULL are
    both the empty list. *)
Definition blconf_channel_set_string_list (channel : BlconfChannel)
    (property : gchar_p) (values : list string) : bool * BlconfChannel :=
  match property, values with
  | Some _, _ :: _ =>
      let arr := (fun s => GV_string (Some s)) <$> values in
      blconf_channel_set_arrayv channel property arr
  | _, _ => (false, channel)
  end.

(** The loop of [blconf_channel_get_string_list]: [values] collects the
    copies; an element that is not a string frees them and gives NULL. *)
Fixpoint get_string_list_loop (arr : list GValue) (values : list gchar_p)
  : option (list gchar_p) :=
  match arr with
  | [] => Some values
  | val :: arr' =>
      if decide (G_VALUE_TYPE val <> G_TYPE_STRING) then None
      else get_string_list_loop arr' (values ++ [g_value_get_string val])
  end.

(** [blconf_channel_get_string_list]: the entries of the returned vector
    before its terminating NULL slot, or NULL ([None]). *)
Definition blconf_channel_get_string_list (channel : BlconfChannel)
    (property : gchar_p) : option (list gchar_p) :=
  match property with
  | None => None
  | Some _ =>
      match blconf_channel_get_arrayv channel property with
      | None => None
      | Some arr => get_string_list_loop arr []
      end
  end.

(** What one iteration of [blconf_channel_set_array_valist] makes of the
    next pointer argument: [arg] is the argument's type with the C value
    the pointer points to. [None] for a type the switch does not know. *)
Definition set_array_valist_value (arg : GValue) : option GValue :=
  match G_VALUE_TYPE arg with
  | G_TYPE_UCHAR => Some (GV_uchar (g_value_get_uchar arg))
  | G_TYPE_CHAR => Some (GV_char (g_value_get_schar arg))
  | G_TYPE_UINT => Some (GV_uint (g_value_get_uint arg))
  | G_TYPE_INT => Some (GV_int (g_value_get_int arg))
  | G_TYPE_UINT64 => Some (GV_uint64 (g_value_get_uint64 arg))
  | G_TYPE_INT64 => Some (GV_int64 (g_value_get_int64 arg))
  | G_TYPE_FLOAT => Some (GV_float (g_value_get_float arg))
  | G_TYPE_DOUBLE => Some (GV_double (g_value_get_double arg))
  | G_TYPE_BOOLEAN => Some (GV_boolean (g_value_get_boolean arg))
  | G_TYPE_STRING => Some (GV_string (g_value_get_string arg))
  | BLCONF_TYPE_UINT16 => Some (GV_uint (blconf_g_value_get_uint16 arg))
  | BLCONF_TYPE_INT16 => Some (GV_int (blconf_g_value_get_int16 arg))
  | G_TYPE_STRV => Some (match arg with GV_strv l => GV_strv l | _ => GV_strv [] end)
  | _ => None
  end.

(** The loop of [blconf_channel_set_array_valist] over the arguments
    ([G_TYPE_INVALID] or the end of the list terminates them); [arr]
    collects the values and [None] is the [goto out]. *)
Fixpoint set_array_valist_loop (args : list GValue) (arr : list GValue)
  : option (list GValue) :=
  match args with
  | [] => Some arr
  | arg :: args' =>
      if decide (G_VALUE_TYPE arg = G_TYPE_INVALID) then Some arr
      else
        match set_array_valist_value arg with
        | Some val => set_array_valist_loop args' (arr ++ [val])
        | None => None
        end
  end.

(** [blconf_channel_set_array_valist]. *)
Definition blconf_channel_set_array_valist (channel : BlconfChannel)
    (property : gchar_p) (args : list GValue) : bool * BlconfChannel :=
  let first_value_type :=
    match args with
    | [] => G_TYPE_INVALID
    | arg :: _ => G_VALUE_TYPE arg
    end in
  if negb (bool_decide (is_Some property))
     || bool_decide (first_value_type = G_TYPE_INVALID)
  then (false, channel)
  else
    match set_array_valist_loop args [] with
    | Some arr => blconf_channel_set_arrayv channel property arr
    | None => (false, channel)
    end.

End channel_accessors.

(* --------------------------------------------------------------------- *)
(** *** The variable-argument struct entry points *)
(* --------------------------------------------------------------------- *)

(** The loop of [blconf_channel_get_struct_valist] and
    [blconf_channel_set_struct_valist] that copies the member types of the
    argument list ([G_TYPE_INVALID] or the end of the list terminates them)
    into [member_types], a buffer of [cur_size] entries that grows by five
    when it is full. Entries not written yet hold whatever the allocator
    left there, here [G_TYPE_INVALID]; a write beyond the buffer is dropped,
    as [<[_:=_]>] does. The result is the buffer and [n_members]. *)
Fixpoint struct_valist_collect (args : list GType) (member_types : list GType)
    (n_members cur_size : nat) : list GType * nat :=
  match args with
  | [] => (member_types, n_members)
  | cur_member_type :: args' =>
      if decide (cur_member_type = G_TYPE_INVALID) then (member_types, n_members)
      else
        let '(member_types, cur_size) :=
          if (n_members =? cur_size)%nat
          then (member_types ++ replicate 5 G_TYPE_INVALID, (cur_size + 5)%nat)
          else (member_types, cur_size) in
        struct_valist_collect args' (<[n_members := cur_member_type]> member_types)
          (S n_members) cur_size
  end.

Definition valist_first_type (args : list GType) : GType :=
  match args with
  | [] => G_TYPE_INVALID
  | first_member_type :: _ => first_member_type
  end.

Section struct_valist.
Context `{Platform} `{Collaborators}.

(** [blconf_channel_get_struct_valist]; [args] is [first_member_type]
    followed by the variable arguments. *)
Definition blconf_channel_get_struct_valist (channel : BlconfChannel)
    (property : gchar_p) (heap : Heap) (value_struct : Mem) (args : list GType)
  : bool * Heap * Mem :=
  if negb (bool_decide (is_Some property))
     || bool_decide (valist_first_type args = G_TYPE_INVALID)
  then (false, heap, value_struct)
  else
    let '(member_types, n_members) :=
      struct_valist_collect args (replicate 5 G_TYPE_INVALID) 0 5 in
    blconf_channel_get_structv channel property heap value_struct
      (take n_members member_types).

(** [blconf_channel_set_struct_valist]. *)
Definition blconf_channel_set_struct_valist (channel : BlconfChannel)
    (property : gchar_p) (heap : Heap) (value_struct : Mem) (args : list GType)
  : bool * BlconfChannel :=
  if negb (bool_decide (is_Some property))
     || bool_decide (valist_first_type args = G_TYPE_INVALID)
  then (false, channel)
  else
    let '(member_types, n_members) :=
      struct_valist_collect args (replicate 5 G_TYPE_INVALID) 0 5 in
    blconf_channel_set_structv channel property heap value_struct
      (take n_members member_types).

End struct_valist.

(* --------------------------------------------------------------------- *)
(** *** Construction through the public functions, and shutdown *)
(* --------------------------------------------------------------------- *)

Section channel_lifecycle.
Context `{Collaborators}.

(** [g_object_new (BLCONF_TYPE_CHANNEL, ...)]: the constructor receives
    every construct property of the class, with the value given by the
    caller or the default of its [GParamSpec]. *)
Definition construct_params (channel_name' property_base' : gchar_p)
    (is_singleton' : bool) : list GObjectConstructParam :=
  [ ("channel-name"%string, GV_string channel_name');
    ("property-base"%string, GV_string property_base');
    ("is-singleton"%string, GV_boolean is_singleton') ].

(** [blconf_channel_get]. *)
Definition blconf_channel_get (channel_name' : gchar_p) (st : ProcessState)
  : option ObjId * ProcessState :=
  blconf_channel_constructor (construct_params channel_name' None IS_SINGLETON_DEFAULT) st.

(** [blconf_channel_new]. *)
Definition blconf_channel_new (channel_name' : gchar_p) (st : ProcessState)
  : option ObjId * ProcessState :=
  blconf_channel_constructor (construct_params channel_name' None false) st.

(** [blconf_channel_new_with_property_base]. *)
Definition blconf_channel_new_with_property_base (channel_name' property_base' : gchar_p)
    (st : ProcessState) : option ObjId * ProcessState :=
  blconf_channel_constructor (construct_params channel_name' property_base' false) st.

(** GObject's reference counting, as far as the shutdown uses it.
    [ref_count] holds the number of references on every live object.
    [g_object_unref]: the count goes down by one; the object whose last
    reference goes is disposed of (its cache is released) and freed: it is
    no longer among the objects. *)
Definition g_object_unref (o : ObjId)
    (live : gmap ObjId BlconfChannel * gmap ObjId nat)
  : gmap ObjId BlconfChannel * gmap ObjId nat :=
  let '(objs, ref_count) := live in
  match ref_count !! o with
  | Some (S (S n)) => (objs, <[o := S n]> ref_count)
  | _ => (delete o objs, delete o ref_count)
  end.

(** [g_hash_table_destroy] on the table of singletons, created with
    [g_object_unref] as the destroy notify of its values: every channel in
    the table loses the reference the table held. *)
Definition g_hash_table_destroy (t : gmap string ObjId)
    (live : gmap ObjId BlconfChannel * gmap ObjId nat)
  : gmap ObjId BlconfChannel * gmap ObjId nat :=
  foldr (fun entry live => g_object_unref (snd entry) live) live (map_to_list t).

(** [_blconf_channel_shutdown], run with nobody else holding the lock: the
    table is destroyed and the pointer reset; without a table nothing
    happens. *)
Definition _blconf_channel_shutdown (st : ProcessState) (ref_count : gmap ObjId nat)
  : ProcessState * gmap ObjId nat :=
  match channel_singletons st with
  | Some t =>
      let '(objs, ref_count) := g_hash_table_destroy t (objects st, ref_count) in
      ({| singletons_lock := singletons_lock st;
          channel_singletons := None;
          objects := objs;
          next_object := next_object st |}, ref_count)
  | None => (st, ref_count)
  end.

(** [blconf_channel_get_g_property], by property name: the value stored in
    [value], and whether [G_OBJECT_WARN_INVALID_PROPERTY_ID] was reached.
    The [is-singleton] case has no [break] and runs into [default]. *)
Definition blconf_channel_get_g_property (ch : BlconfChannel) (name : string)
    (value : GValue) : GValue * bool :=
  if String.eqb name "channel-name" then (GV_string (channel_name ch), false)
  else if String.eqb name "property-base" then (GV_string (property_base ch), false)
  else if String.eqb name "is-singleton" then (GV_boolean (is_singleton ch), true)
  else (value, true).

End channel_lifecycle.

(* --------------------------------------------------------------------- *)
(** *** The rest of the settings bridge *)
(* --------------------------------------------------------------------- *)

Section backend_operations.
Context `{Collaborators}.

(** [xfconf_gsettings_backend_reset]. *)
Definition xfconf_gsettings_backend_reset (self : XfconfGsettingsBackend)
    (key : string) (origin_tag : gpointer) : XfconfGsettingsBackend :=
  {| channel := blconf_channel_reset_property (channel self) (Some key) true;
     changed_prop := <[key := origin_tag]> (changed_prop self);
     subscribed_prop := subscribed_prop self |}.

(** [xfconf_gsettings_backend_get_writable]. *)
Definition xfconf_gsettings_backend_get_writable (self : XfconfGsettingsBackend)
    (key : string) : bool :=
  negb (blconf_channel_is_property_locked (channel self) (Some key)).

(** GLib's variant types and the conversion of [xfconf-gvaluefuncs], which
    the bridge calls and does not define. *)
Variable GVariantType : Type.
Variable xfconf_gvalue_to_gvariant : GValue -> GVariant.
Variable g_variant_is_of_type : GVariant -> GVariantType -> bool.

(** [xfconf_gsettings_backend_read]; [None] is the function's own
    [return NULL]. *)
Definition xfconf_gsettings_backend_read (self : XfconfGsettingsBackend)
    (key : string) (expected_type : GVariantType) (default_value : bool)
  : option GVariant :=
  if default_value then None
  else
    let '(found, value) :=
      blconf_channel_get_property (channel self) (Some key) GV_unset in
    if negb found then None
    else
      let variant := xfconf_gvalue_to_gvariant value in
      if negb (g_variant_is_of_type variant expected_type) then None
      else Some variant.

End backend_operations.

(* --------------------------------------------------------------------- *)
(** *** More vocabulary and test data *)
(* --------------------------------------------------------------------- *)

(** The types of a variable argument list, up to its terminator. *)
Fixpoint valist_types (args : list GType) : list GType :=
  match args with
  | [] => []
  | t :: args' => if decide (t = G_TYPE_INVALID) then [] else t :: valist_types args'
  end.

(** The test double with a validator that accepts 7-bit text only. *)
Definition ascii_collaborators : Collaborators := {|
  BlconfCache := @BlconfCache test_collaborators;
  blconf_cache_new := @blconf_cache_new test_collaborators;
  blconf_cache_prefetch := @blconf_cache_prefetch test_collaborators;
  blconf_cache_lookup := @blconf_cache_lookup test_collaborators;
  blconf_cache_set := @blconf_cache_set test_collaborators;
  blconf_cache_reset := @blconf_cache_reset test_collaborators;
  blconf_client_is_property_locked := @blconf_client_is_property_locked test_collaborators;
  g_value_transform := @g_value_transform test_collaborators;
  g_utf8_validate := fun s =>
    forallb (fun a => (N_of_ascii a <? 128)%N) (list_ascii_of_string s);
  GVariant := @GVariant test_collaborators;
  xfconf_gvariant_to_gvalue := @xfconf_gvariant_to_gvalue test_collaborators;
|}.

(** A channel over it. *)
Definition ascii_channel (name : string) (base : gchar_p) : @BlconfChannel ascii_collaborators :=
  {| is_singleton := false; disposed := false; channel_name := Some name;
     property_base := base;
     cache := Some (@blconf_cache_new ascii_collaborators name) |}.

(** The test double with a variant conversion that fails on the unset
    value, a channel over it, and a bridge with one pending write for
    ["/foo"]. *)
Definition strict_collaborators : Collaborators := {|
  BlconfCache := @BlconfCache test_collaborators;
  blconf_cache_new := @blconf_cache_new test_collaborators;
  blconf_cache_prefetch := @blconf_cache_prefetch test_collaborators;
  blconf_cache_lookup := @blconf_cache_lookup test_collaborators;
  blconf_cache_set := @blconf_cache_set test_collaborators;
  blconf_cache_reset := @blconf_cache_reset test_collaborators;
  blconf_client_is_property_locked := @blconf_client_is_property_locked test_collaborators;
  g_value_transform := @g_value_transform test_collaborators;
  g_utf8_validate := @g_utf8_validate test_collaborators;
  GVariant := GValue;
  xfconf_gvariant_to_gvalue := fun v =>
    match v with
    | GV_unset => None
    | _ => Some v
    end;
|}.

Definition strict_backend : @XfconfGsettingsBackend strict_collaborators :=
  {| channel := {| is_singleton := false; disposed := false;
                   channel_name := Some "apps"%string; property_base := None;
                   cache := Some (@blconf_cache_new strict_collaborators "apps") |};
     changed_prop := {[ "/foo"%string := 7 ]};
     subscribed_prop := ["/plugin/"%string] |}.

(** A process with the singletons ["a"] and ["b"]; the first is held by
    the table alone, the second by one more owner. *)
Definition test_two_singletons : @ProcessState test_collaborators :=
  {| singletons_lock := None;
     channel_singletons := Some (<["b"%string := 1%nat]> (<["a"%string := 0%nat]> ∅));
     objects := <[1%nat := test_channel "b" None]> (<[0%nat := test_channel "a" None]> ∅);
     next_object := 2%nat |}.

Definition test_ref_count : gmap ObjId nat := <[1%nat := 2%nat]> (<[0%nat := 1%nat]> ∅).

(** A bridge subscribed to two keys, and the same with the keys in the
    other order. *)
Definition test_backend_two : @XfconfGsettingsBackend test_collaborators :=
  {| channel := test_channel "apps" None;
     changed_prop := ∅;
     subscribed_prop := ["/panel/"%string; "/plugin/"%string] |}.

Definition test_backend_two_swapped : @XfconfGsettingsBackend test_collaborators :=
  {| channel := test_channel "apps" None;
     changed_prop := ∅;
     subscribed_prop := ["/plugin/"%string; "/panel/"%string] |}.

(* ===================================================================== *)
(** * Properties *)
(* ===================================================================== *)

(* ===================================================================== *)

(** ** Strings *)

Lemma append_cons (c : ascii) (s t : string) :
  (String c s ++ t)%string = String c (s ++ t)%string.
Proof. reflexivity. Qed.

Lemma g_str_has_prefix_app (base rest : string) :
  g_str_has_prefix (base ++ rest) base = true.
Proof.
  induction base as [|c base IH]; [reflexivity|].
  rewrite append_cons. simpl. by rewrite Ascii.eqb_refl.
Qed.

Lemma g_str_has_prefix_inv (str base : string) :
  g_str_has_prefix str base = true -> exists rest, str = (base ++ rest)%string.
Proof.
  revert str. induction base as [|c base IH]; intros str Hp; simpl in *.
  - by exists str.
  - destruct str as [|d str]; [done|].
    destruct (Ascii.eqb d c) eqn:E; [|done].
    apply Ascii.eqb_eq in E as ->.
    destruct (IH _ Hp) as [rest ->]. exists rest. by rewrite append_cons.
Qed.

Lemma g_str_has_prefix_false (str base : string) :
  (forall rest, str <> (base ++ rest)%string) -> g_str_has_prefix str base = false.
Proof.
  intros Hno. destruct (g_str_has_prefix str base) eqn:E; [|done].
  destruct (g_str_has_prefix_inv _ _ E) as [rest ->]. by destruct (Hno rest).
Qed.

Lemma str_advance_app (base rest : string) :
  str_advance (String.length base) (base ++ rest) = rest.
Proof.
  induction base as [|c base IH]; [reflexivity|].
  rewrite append_cons. simpl. done.
Qed.

Lemma str_is_empty_spec (s : string) : str_is_empty s = true <-> s = ""%string.
Proof. destruct s; simpl; split; done. Qed.

(** ** The notification router *)

Section router_properties.
Context `{Collaborators}.

(** C5. A raw change event is dropped when it is for another channel, and
    when the channel has a property base that the absolute property does not
    start with; otherwise it is emitted once, keyed by the property with the
    base stripped, an empty remainder becoming ["/"] (and by the property as
    it is when the channel has no base). *)
Theorem property_changed_rescoped (channel : BlconfChannel)
    (name cname property : string) (value : GValue) :
  channel_name channel = Some name ->
  (cname <> name ->
   blconf_channel_property_changed channel cname property value = [])
  /\ (forall base, property_base channel = Some base ->
        (forall rest, property <> (base ++ rest)%string) ->
        blconf_channel_property_changed channel cname property value = [])
  /\ (forall base rest, cname = name -> property_base channel = Some base ->
        property = (base ++ rest)%string ->
        let local := if decide (rest = ""%string) then "/"%string else rest in
        blconf_channel_property_changed channel cname property value =
        [ {| sig_detail := local; sig_property := local; sig_value := value |} ])
  /\ (cname = name -> property_base channel = None ->
        blconf_channel_property_changed channel cname property value =
        [ {| sig_detail := property; sig_property := property; sig_value := value |} ]).
Proof.
  intros Hname. unfold blconf_channel_property_changed. rewrite Hname.
  repeat split.
  - intros Hne. apply String.eqb_neq in Hne. by rewrite Hne.
  - intros base Hbase Hno. rewrite Hbase, (g_str_has_prefix_false _ _ Hno).
    simpl. by rewrite orb_true_r.
  - intros base rest -> Hbase ->. rewrite Hbase, String.eqb_refl.
    rewrite g_str_has_prefix_app, str_advance_app. simpl.
    destruct rest; simpl; done.
  - intros -> Hbase. by rewrite Hbase, String.eqb_refl.
Qed.

End router_properties.

Lemma property_changed_rescoped_witness :
  blconf_channel_property_changed (test_channel "apps" (Some "/foo"%string))
    "apps" "/foo/bar" (GV_int 5)
  = [ {| sig_detail := "/bar"; sig_property := "/bar"; sig_value := GV_int 5 |} ]
  /\ blconf_channel_property_changed (test_channel "apps" (Some "/foo"%string))
       "apps" "/other/x" (GV_int 5) = [].
Proof.
  split.
  - destruct (property_changed_rescoped (test_channel "apps" (Some "/foo"%string))
                "apps" "apps" "/foo/bar" (GV_int 5) eq_refl) as (_ & _ & Hemit & _).
    apply (Hemit "/foo"%string "/bar"%string); reflexivity.
  - destruct (property_changed_rescoped (test_channel "apps" (Some "/foo"%string))
                "apps" "apps" "/other/x" (GV_int 5) eq_refl) as (_ & Hdrop & _).
    apply (Hdrop "/foo"%string); [reflexivity|].
    intros rest E. cbv in E. congruence.
Defined.

(** ** Channel operations *)

Section channel_properties.
Context `{Collaborators}.

(** The path sent to the locked-state collaborator is the [property]
    argument as the caller gave it. *)
Lemma is_property_locked_query (channel : BlconfChannel) (property : gchar_p) :
  blconf_channel_is_property_locked channel property =
  default false (blconf_client_is_property_locked (channel_name channel) property).
Proof.
  unfold blconf_channel_is_property_locked.
  by destruct (blconf_client_is_property_locked _ _).
Qed.

(** C9. With a NULL or empty property base, a non-recursive reset fails the
    guard and returns before the cache is called, whatever the cache is;
    a recursive one passes the guard and resets the resolved base in the
    cache. *)
Theorem reset_root_validation (channel : BlconfChannel) (property_base' : gchar_p) :
  property_base' = None \/ property_base' = Some ""%string ->
  (reset_property_guard property_base' false = false
   /\ blconf_channel_reset_property channel property_base' false = channel)
  /\ (reset_property_guard property_base' true = true
      /\ forall c, cache channel = Some c ->
           blconf_channel_reset_property channel property_base' true =
           with_cache channel
             (snd (blconf_cache_reset c (REAL_PROP channel property_base') true))).
Proof.
  intros [-> | ->]; unfold blconf_channel_reset_property; simpl;
    repeat split; intros c Hc; by rewrite Hc.
Qed.

End channel_properties.

Lemma reset_root_validation_witness :
  blconf_channel_reset_property (test_channel "apps" None) (Some ""%string) false
  = test_channel "apps" None
  /\ reset_property_guard (Some ""%string) true = true.
Proof.
  destruct (reset_root_validation (test_channel "apps" None) (Some ""%string)
              (or_intror eq_refl)) as [[_ Hrej] [Hok _]].
  split; [exact Hrej | exact Hok].
Defined.

(** C8. On a channel scoped to ["/foo"], asking whether ["/bar"] is locked
    queries the collaborator with ["/bar"], not with the absolute path
    ["/foo/bar"]: the collaborator reports the absolute path locked and the
    channel answers "not locked". *)
Theorem is_property_locked_ignores_property_base :
  let channel := test_channel "apps" (Some "/foo"%string) in
  REAL_PROP channel (Some "/bar"%string) = Some "/foo/bar"%string
  /\ @blconf_client_is_property_locked test_collaborators (channel_name channel)
       (REAL_PROP channel (Some "/bar"%string)) = Some true
  /\ blconf_channel_is_property_locked channel (Some "/bar"%string) = false.
Proof. repeat split. Qed.

(** ** The settings bridge *)

Section backend_properties.
Context `{Collaborators}.

Lemma subscribed_scan_found (keys : list string) (property : string) :
  (exists key rest, key ∈ keys /\ property = (key ++ rest)%string) ->
  subscribed_scan keys property = (true, [g_settings_backend_changed property NULL]).
Proof.
  intros (key & rest & Hin & ->).
  induction keys as [|k keys IH]; [by apply elem_of_nil in Hin|].
  simpl. destruct (g_str_has_prefix (key ++ rest) k) eqn:E; [done|].
  apply elem_of_cons in Hin as [-> | Hin]; [|by apply IH].
  by rewrite g_str_has_prefix_app in E.
Qed.

Lemma subscribed_scan_not_found (keys : list string) (property : string) :
  (forall key rest, key ∈ keys -> property <> (key ++ rest)%string) ->
  subscribed_scan keys property = (false, []).
Proof.
  induction keys as [|k keys IH]; intros Hno; [done|].
  simpl. rewrite g_str_has_prefix_false.
  - apply IH. intros key rest Hin. apply Hno. by apply elem_of_cons; right.
  - intros rest. apply Hno. by apply elem_of_cons; left.
Qed.

(** C6. A change event for a key in the pending-write table is emitted once
    with the stored origin tag and the entry is removed, whatever is
    subscribed; with no such entry it is emitted once with a NULL origin tag
    when some subscribed key is a prefix of the property; with neither it is
    only logged as not expected. The callback always returns. *)
Theorem property_changed_cb_routing (self : XfconfGsettingsBackend)
    (property : string) (value : GValue) :
  (forall origin_tag, changed_prop self !! property = Some origin_tag ->
     xfconf_gsettings_backend_property_changed_cb self property value =
     ({| channel := channel self;
         changed_prop := delete property (changed_prop self);
         subscribed_prop := subscribed_prop self |},
      [g_settings_backend_changed property origin_tag]))
  /\ (changed_prop self !! property = None ->
      (exists key rest, key ∈ subscribed_prop self /\ property = (key ++ rest)%string) ->
      xfconf_gsettings_backend_property_changed_cb self property value =
      (self, [g_settings_backend_changed property NULL]))
  /\ (changed_prop self !! property = None ->
      (forall key rest, key ∈ subscribed_prop self -> property <> (key ++ rest)%string) ->
      xfconf_gsettings_backend_property_changed_cb self property value =
      (self, [g_warning_not_expected property])).
Proof.
  unfold xfconf_gsettings_backend_property_changed_cb. repeat split.
  - intros origin_tag Hfound. by rewrite Hfound.
  - intros Hnone Hsub. by rewrite Hnone, (subscribed_scan_found _ _ Hsub).
  - intros Hnone Hsub. by rewrite Hnone, (subscribed_scan_not_found _ _ Hsub).
Qed.

(** C10. The write operation of the bridge returns FALSE for every key,
    variant and origin tag; when the variant converts and the channel
    reports the property set, the pending-write entry stays recorded and the
    return value is FALSE all the same. *)
Theorem backend_write_returns_false (self : XfconfGsettingsBackend)
    (key : string) (variant : GVariant) (origin_tag : gpointer) :
  fst (xfconf_gsettings_backend_write self key variant origin_tag) = false
  /\ (forall value channel',
        xfconf_gvariant_to_gvalue variant = Some value ->
        blconf_channel_set_property (channel self) (Some key) value = (true, channel') ->
        xfconf_gsettings_backend_write self key variant origin_tag =
        (false, {| channel := channel';
                   changed_prop := <[key := origin_tag]> (changed_prop self);
                   subscribed_prop := subscribed_prop self |})).
Proof.
  unfold xfconf_gsettings_backend_write. split.
  - destruct (xfconf_gvariant_to_gvalue variant); [|done].
    by destruct (blconf_channel_set_property _ _ _).
  - intros value channel' Hconv Hset. by rewrite Hconv, Hset.
Qed.

End backend_properties.

Lemma property_changed_cb_routing_witness :
  xfconf_gsettings_backend_property_changed_cb test_backend "/foo" (GV_int 5)
  = ({| channel := channel test_backend;
        changed_prop := delete "/foo"%string (changed_prop test_backend);
        subscribed_prop := subscribed_prop test_backend |},
     [g_settings_backend_changed "/foo" 7])
  /\ xfconf_gsettings_backend_property_changed_cb test_backend "/plugin/count" (GV_uint 42)
     = (test_backend, [g_settings_backend_changed "/plugin/count" NULL])
  /\ xfconf_gsettings_backend_property_changed_cb test_backend "/other" GV_unset
     = (test_backend, [g_warning_not_expected "/other"]).
Proof.
  split; [|split].
  - destruct (property_changed_cb_routing test_backend "/foo" (GV_int 5)) as (Hp & _ & _).
    apply Hp. reflexivity.
  - destruct (property_changed_cb_routing test_backend "/plugin/count" (GV_uint 42))
      as (_ & Hs & _).
    apply Hs; [reflexivity|].
    exists "/plugin/"%string, "count"%string. split; [|reflexivity].
    apply list_elem_of_singleton. reflexivity.
  - destruct (property_changed_cb_routing test_backend "/other" GV_unset) as (_ & _ & Hn).
    apply Hn; [reflexivity|].
    intros key rest Hin E. apply list_elem_of_singleton in Hin. subst key.
    cbv in E. congruence.
Defined.

Lemma backend_write_returns_false_witness :
  xfconf_gsettings_backend_write test_backend "/plugin/count" (GV_uint 42) 9
  = (false,
     {| channel := snd (blconf_channel_set_property (channel test_backend)
                          (Some "/plugin/count"%string) (GV_uint 42));
        changed_prop := <["/plugin/count"%string := 9]> (changed_prop test_backend);
        subscribed_prop := subscribed_prop test_backend |}).
Proof.
  destruct (backend_write_returns_false test_backend "/plugin/count" (GV_uint 42) 9)
    as [_ Hok].
  apply (Hok (GV_uint 42)); reflexivity.
Defined.

(** ** The value bridge *)

Lemma cast_u_small (w v : Z) : in_u w v -> cast_u w v = v.
Proof. intros Hv. unfold cast_u. by apply Z.mod_small. Qed.

Lemma cast_s_small (w v : Z) : 0 < w -> in_s w v -> cast_s w v = v.
Proof.
  intros Hw [Hlo Hhi]. unfold cast_s.
  assert (2 ^ w = 2 * 2 ^ (w - 1)) as Hpow.
  { rewrite <- Z.pow_succ_r by lia. f_equal. lia. }
  rewrite Z.mod_small; lia.
Qed.

Lemma test_cache_read_your_writes : @cache_read_your_writes test_collaborators.
Proof.
  intros c k v c' Hset. simpl in *. injection Hset as <-.
  simpl. by rewrite bool_decide_eq_true_2.
Qed.

Section value_bridge_properties.
Context `{Collaborators}.

Lemma fixup_16bit_elem_id (v : GValue) : is_16bit v = false -> fixup_16bit_elem v = v.
Proof.
  unfold is_16bit, fixup_16bit_elem. intros Hn.
  apply orb_false_iff in Hn as [H1 H2].
  apply bool_decide_eq_false in H1, H2.
  by rewrite !decide_False.
Qed.

(** Whether or not [blconf_fixup_16bit_ints] allocates, the array that
    reaches the cache is the element-wise fix-up of the caller's. *)
Lemma fixup_16bit_ints_default (arr : list GValue) :
  default arr (blconf_fixup_16bit_ints arr) = fixup_16bit_elem <$> arr.
Proof.
  unfold blconf_fixup_16bit_ints. destruct (existsb is_16bit arr) eqn:E; [done|].
  simpl. induction arr as [|v arr IH]; [done|].
  simpl in E. apply orb_false_iff in E as [Hv Harr].
  rewrite fmap_cons, fixup_16bit_elem_id, <- IH; done.
Qed.

Lemma fixup_16bit_elem_not_16bit (v : GValue) : is_16bit (fixup_16bit_elem v) = false.
Proof.
  unfold fixup_16bit_elem.
  destruct (decide (G_VALUE_TYPE v = BLCONF_TYPE_UINT16)); [done|].
  destruct (decide (G_VALUE_TYPE v = BLCONF_TYPE_INT16)); [done|].
  unfold is_16bit. by rewrite !bool_decide_eq_false_2.
Qed.

(** What is widened on the way out narrows back to itself on the way in. *)
Lemma valist_store_fixup (v : GValue) :
  gvalue_wf v -> array_valist_known (G_VALUE_TYPE v) = true ->
  array_valist_type_ok (fixup_16bit_elem v) (G_VALUE_TYPE v) = true
  /\ get_array_valist_store (G_VALUE_TYPE v) (fixup_16bit_elem v) = Some v.
Proof.
  intros Hwf Hk. destruct v; try done; simpl in *.
  - split; [done|]. unfold fixup_16bit_elem; simpl. by rewrite cast_u_small.
  - split; [done|]. unfold fixup_16bit_elem; simpl. by rewrite cast_s_small.
Qed.

Lemma get_array_valist_loop_step (arr : list GValue) (cur_value_type : GType)
    (rest : list GType) (i : nat) (out : list GValue) (val stored : GValue) :
  Z.of_nat (length arr) < 2 ^ 32 ->
  arr !! i = Some val ->
  array_valist_type_ok val cur_value_type = true ->
  get_array_valist_store cur_value_type val = Some stored ->
  get_array_valist_loop arr (cur_value_type :: rest) i out =
  get_array_valist_loop arr rest (S i) (out ++ [stored]).
Proof.
  intros Hlen Hlook Hok Hst.
  assert ((Z.of_nat i >? cast_u 32 (Z.of_nat (length arr) - 1)) = false) as Hidx.
  { apply lookup_lt_Some in Hlook.
    rewrite cast_u_small by (unfold in_u; lia).
    rewrite Z.gtb_ltb. apply Z.ltb_ge. lia. }
  destruct cur_value_type; simpl in *; try done;
    rewrite Hidx, Hlook, Hok; simpl; by simplify_eq.
Qed.

Lemma get_array_valist_loop_fixup (suf pre out : list GValue) :
  Z.of_nat (length (pre ++ suf)) < 2 ^ 32 ->
  Forall gvalue_wf suf ->
  Forall (fun v => array_valist_known (G_VALUE_TYPE v) = true) suf ->
  get_array_valist_loop (fixup_16bit_elem <$> (pre ++ suf)) (G_VALUE_TYPE <$> suf)
    (length pre) out = (true, out ++ suf).
Proof.
  revert pre out. induction suf as [|v suf IH]; intros pre out Hlen Hwf Hk.
  - simpl. rewrite length_fmap, app_nil_r, Nat.ltb_irrefl. by rewrite app_nil_r.
  - apply Forall_cons in Hwf as [Hwfv Hwf]. apply Forall_cons in Hk as [Hkv Hk].
    destruct (valist_store_fixup v Hwfv Hkv) as [Hok Hst].
    rewrite (fmap_cons G_VALUE_TYPE).
    rewrite (get_array_valist_loop_step _ _ _ _ _ (fixup_16bit_elem v) v);
      [|by rewrite length_fmap| |done|done].
    + replace (pre ++ v :: suf) with ((pre ++ [v]) ++ suf) by by rewrite <- app_assoc.
      replace (S (length pre)) with (length (pre ++ [v]))
        by (rewrite length_app; simpl; lia).
      rewrite IH; [by rewrite <- app_assoc| |done|done].
      by rewrite <- app_assoc.
    + rewrite list_lookup_fmap, lookup_app_r by lia.
      by rewrite Nat.sub_diag.
Qed.


(** A value array written through the channel is what [get_arrayv] returns
    next, when the cache serves writes to later lookups. *)
Lemma set_internal_get_arrayv (channel channel' : BlconfChannel)
    (property : gchar_p) (w : list GValue) :
  cache_read_your_writes ->
  blconf_channel_set_internal channel property (GV_array w) = (true, channel') ->
  w <> [] ->
  blconf_channel_get_arrayv channel' property = Some w.
Proof.
  intros Hryw Hset Hne. unfold blconf_channel_set_internal in Hset.
  destruct property as [name|]; [|done].
  destruct (cache channel) as [c|] eqn:Hc; [|done].
  destruct (blconf_cache_set c _ _) as [ret c'] eqn:Hcs.
  injection Hset as -> <-.
  unfold blconf_channel_get_arrayv, blconf_channel_get_internal. simpl.
  replace (REAL_PROP (with_cache channel c') (Some name))
    with (REAL_PROP channel (Some name)) by done.
  rewrite (Hryw _ _ _ _ Hcs). simpl.
  by destruct w.
Qed.

(** What a successful [set_internal] wrote is what [get_internal] finds
    next, when the cache serves writes to later lookups. *)
Lemma set_internal_get_internal (channel channel' : BlconfChannel)
    (property : gchar_p) (w : GValue) :
  cache_read_your_writes ->
  blconf_channel_set_internal channel property w = (true, channel') ->
  blconf_channel_get_internal channel' property GV_unset = (true, w)
  /\ is_Some property.
Proof.
  intros Hryw Hset. unfold blconf_channel_set_internal in Hset.
  destruct property as [name|]; [|done].
  destruct (cache channel) as [c|] eqn:Hc; [|done].
  destruct (blconf_cache_set c _ _) as [ret c'] eqn:Hcs.
  injection Hset as -> <-.
  unfold blconf_channel_get_internal. simpl.
  replace (REAL_PROP (with_cache channel c') (Some name))
    with (REAL_PROP channel (Some name)) by done.
  by rewrite (Hryw _ _ _ _ Hcs).
Qed.



End value_bridge_properties.



Section array_transform_properties.
Context `{Collaborators}.

Lemma transform_array_loop_all (gtype : GType) (arr_src arr' arr_dest : list GValue) :
  Forall2 (fun s d => array_elem_convert gtype s = Some d) arr_src arr' ->
  blconf_transform_array_loop arr_src gtype arr_dest = Some (arr_dest ++ arr').
Proof.
  intros Hall. revert arr_dest.
  induction Hall as [|s d arr_src arr' Hsd _ IH]; intros arr_dest; simpl.
  - by rewrite app_nil_r.
  - unfold array_elem_convert in Hsd.
    destruct (decide (G_VALUE_TYPE s = gtype)).
    + injection Hsd as <-. by rewrite IH, <- app_assoc.
    + by rewrite Hsd, IH, <- app_assoc.
Qed.

Lemma transform_array_loop_fail (gtype : GType) (arr_src arr_dest : list GValue)
    (e : GValue) :
  e ∈ arr_src -> array_elem_convert gtype e = None ->
  blconf_transform_array_loop arr_src gtype arr_dest = None.
Proof.
  intros Hin He. revert arr_dest.
  induction arr_src as [|s arr_src IH]; intros arr_dest; [by apply elem_of_nil in Hin|].
  simpl. apply elem_of_cons in Hin as [<- | Hin].
  - unfold array_elem_convert in He.
    destruct (decide (G_VALUE_TYPE e = gtype)); [done|]. by rewrite He.
  - destruct (decide (G_VALUE_TYPE s = gtype)); [by apply IH|].
    destruct (g_value_transform s gtype); [by apply IH|done].
Qed.

Lemma transform_array_loop_inv (gtype : GType) (arr_src arr_dest r : list GValue) :
  blconf_transform_array_loop arr_src gtype arr_dest = Some r ->
  exists arr', r = arr_dest ++ arr'
    /\ Forall2 (fun s d => array_elem_convert gtype s = Some d) arr_src arr'.
Proof.
  revert arr_dest. induction arr_src as [|s arr_src IH]; intros arr_dest Hr; simpl in Hr.
  - injection Hr as <-. exists []. by rewrite app_nil_r.
  - destruct (decide (G_VALUE_TYPE s = gtype)) as [Hs|Hs].
    + destruct (IH _ Hr) as (arr' & -> & Hall). exists (s :: arr').
      rewrite <- app_assoc. split; [done|]. constructor; [|done].
      unfold array_elem_convert. by rewrite decide_True.
    + destruct (g_value_transform s gtype) as [d|] eqn:Ht; [|done].
      destruct (IH _ Hr) as (arr' & -> & Hall). exists (d :: arr').
      rewrite <- app_assoc. split; [done|]. constructor; [|done].
      unfold array_elem_convert. by rewrite decide_False.
Qed.

(** C4. When the stored value is a value array and the caller's value is
    initialised to a scalar type, [blconf_channel_get_property] converts
    every element on its own to that type: it returns the array of the
    converted elements when every one converts (and there is at least one),
    and when any element does not convert it returns FALSE and leaves the
    caller's value as it was. There is no third outcome. *)
Theorem get_property_array_all_or_nothing (channel : BlconfChannel)
    (name : string) (value : GValue) (c : BlconfCache) (arr : list GValue) :
  cache channel = Some c ->
  blconf_cache_lookup c (REAL_PROP channel (Some name)) = Some (GV_array arr) ->
  G_VALUE_TYPE value <> G_TYPE_INVALID ->
  G_VALUE_TYPE value <> BLCONF_TYPE_G_VALUE_ARRAY ->
  let converts := fun s d => array_elem_convert (G_VALUE_TYPE value) s = Some d in
  let result := blconf_channel_get_property channel (Some name) value in
  (forall arr', arr <> [] -> Forall2 converts arr arr' -> result = (true, GV_array arr'))
  /\ (forall e, e ∈ arr -> array_elem_convert (G_VALUE_TYPE value) e = None ->
        result = (false, value))
  /\ (result = (false, value)
      \/ exists arr', Forall2 converts arr arr' /\ result = (true, GV_array arr')).
Proof.
  intros Hc Hlook Hty Hnarr converts result.
  assert (result = match blconf_transform_array arr (G_VALUE_TYPE value) with
                   | Some arr' => (true, GV_array arr')
                   | None => (false, value)
                   end) as ->.
  { unfold result, blconf_channel_get_property, blconf_channel_get_internal.
    rewrite Hc, Hlook. simpl.
    by rewrite !bool_decide_eq_true_2. }
  unfold blconf_transform_array.
  rewrite (decide_False (P := G_VALUE_TYPE value = G_TYPE_INVALID)) by done.
  repeat split.
  - intros arr' Hne Hall. destruct arr as [|s arr]; [done|].
    change (length (s :: arr) =? 0)%nat with false. cbv iota.
    by rewrite (transform_array_loop_all _ _ arr' []).
  - intros e Hin He. destruct (length arr =? 0)%nat; [done|].
    by rewrite (transform_array_loop_fail _ _ [] e).
  - destruct (length arr =? 0)%nat; [by left|].
    destruct (blconf_transform_array_loop arr (G_VALUE_TYPE value) []) as [r|] eqn:Hr;
      [|by left].
    destruct (transform_array_loop_inv _ _ _ _ Hr) as (arr' & -> & Hall).
    right. by exists arr'.
Qed.

End array_transform_properties.

Lemma get_property_array_all_or_nothing_witness :
  let good := test_channel_holding "apps" None
                [(Some "/sizes"%string, GV_array [GV_int 1; GV_int64 2])] in
  let bad := test_channel_holding "apps" None
               [(Some "/sizes"%string, GV_array [GV_int 1; GV_string (Some "two"%string)])] in
  blconf_channel_get_property good (Some "/sizes"%string) (GV_int64 0)
  = (true, GV_array [GV_int64 1; GV_int64 2])
  /\ blconf_channel_get_property bad (Some "/sizes"%string) (GV_int64 0)
     = (false, GV_int64 0).
Proof.
  intros good bad. split.
  - destruct (get_property_array_all_or_nothing good "/sizes" (GV_int64 0)
                [(Some "/sizes"%string, GV_array [GV_int 1; GV_int64 2])]
                [GV_int 1; GV_int64 2] eq_refl eq_refl) as (Hall & _); [done|done|].
    apply Hall; [done|]. repeat constructor.
  - destruct (get_property_array_all_or_nothing bad "/sizes" (GV_int64 0)
                [(Some "/sizes"%string, GV_array [GV_int 1; GV_string (Some "two"%string)])]
                [GV_int 1; GV_string (Some "two"%string)] eq_refl eq_refl)
      as (_ & Hfail & _); [done|done|].
    apply (Hfail (GV_string (Some "two"%string))); [|reflexivity].
    apply elem_of_cons. right. apply elem_of_cons. by left.
Defined.

(** ** The singleton registry *)

Section constructor_properties.
Context `{Collaborators}.

Lemma constructor_attach_cache_frame (o : ObjId) (name : string) (st : ProcessState) :
  singletons_lock (constructor_attach_cache o name st) = singletons_lock st
  /\ channel_singletons (constructor_attach_cache o name st) = channel_singletons st.
Proof.
  unfold constructor_attach_cache.
  destruct (objects st !! o) as [ch|]; [|done]. by destruct (cache ch).
Qed.

Lemma singleton_lookup_attach_cache (o : ObjId) (name n : string) (st : ProcessState) :
  singleton_lookup (constructor_attach_cache o name st) n = singleton_lookup st n.
Proof.
  unfold singleton_lookup.
  by rewrite (proj2 (constructor_attach_cache_frame o name st)).
Qed.

(** A step keeps the stepping thread's own invariant. *)
Lemma ctor_step_self (tid : nat) (th : CtorThread) (st st' : ProcessState) (pc' : CtorPc) :
  ctor_thread_ok st tid th ->
  ctor_step tid (ct_props th) (ct_pc th) st = Some (pc', st') ->
  ctor_thread_ok st' tid {| ct_props := ct_props th; ct_pc := pc' |}.
Proof.
  destruct th as [props pc]. unfold ctor_thread_ok, ctor_step. simpl.
  intros [Hlock Hpc] Hstep.
  destruct (constructor_args props) as [cname sing] eqn:Hargs.
  destruct cname as [name|].
  2: { destruct pc; try done. injection Hstep as <- <-. split; done. }
  destruct pc as [| |[c|]|o|o|r]; simpl in *.
  - (* entry *)
    destruct sing.
    + destruct (singletons_lock st) eqn:Hl; [done|]. injection Hstep as <- <-.
      simpl. split; [done|]. by exists name.
    + injection Hstep as <- <-. simpl. split; [done|]. intros n [=].
  - (* locked *)
    destruct Hpc as [name' [= <- ->]].
    destruct (channel_singletons st) as [t|] eqn:Ht; injection Hstep as <- <-.
    + split; [done|]. exists name. split; [done|]. unfold singleton_lookup. by rewrite Ht.
    + split; [done|]. exists name. split; [done|]. done.
  - (* looked, found *)
    injection Hstep as <- <-. done.
  - (* looked, not found *)
    destruct Hpc as (name' & [= <- ->] & Hnone). injection Hstep as <- <-.
    simpl. split; [done|]. exists name. split; [done|].
    unfold singleton_lookup. simpl. apply lookup_insert_eq.
  - (* have *)
    destruct Hpc as (name' & [= <- ->] & Hsome). injection Hstep as <- <-.
    simpl. split; [done|]. intros n [= <-]. done.
  - (* unlocked *)
    injection Hstep as <- <-. simpl.
    rewrite (proj1 (constructor_attach_cache_frame _ _ _)). split; [done|].
    intros n Hn. rewrite singleton_lookup_attach_cache. by apply Hpc.
  - done.
Qed.

(** A step of one thread keeps the invariant of every other thread. *)
Lemma ctor_step_other (tid tid' : nat) (th th' : CtorThread)
    (st st' : ProcessState) (pc' : CtorPc) :
  tid <> tid' ->
  ctor_thread_ok st tid th ->
  ctor_thread_ok st tid' th' ->
  ctor_step tid (ct_props th) (ct_pc th) st = Some (pc', st') ->
  ctor_thread_ok st' tid' th'.
Proof.
  intros Hne [Hlock Hpc] [Hlock' Hpc'] Hstep.
  assert (singletons_lock st = Some tid -> in_critical_section (ct_pc th') = false) as Hout.
  { intros Hl. destruct (in_critical_section (ct_pc th')); [|done].
    destruct Hlock' as [Hl' _]. rewrite Hl in Hl'. specialize (Hl' eq_refl). congruence. }
  destruct th as [props pc]. unfold ctor_step in Hstep. simpl in *.
  destruct (constructor_args props) as [cname sing] eqn:Hargs.
  assert (forall st1,
            singletons_lock st1 = singletons_lock st ->
            (forall n, singleton_lookup st1 n = singleton_lookup st n) ->
            ctor_thread_ok st1 tid' th') as Hframe.
  { intros st1 Hl Hs. split; [by rewrite Hl|].
    destruct (ct_pc th') as [| |c|o|o|[o|]]; try done.
    - destruct Hpc' as (name & ? & ?). exists name. by rewrite Hs.
    - destruct Hpc' as (name & ? & ?). exists name. by rewrite Hs.
    - intros n Hn. rewrite Hs. by apply Hpc'.
    - intros n Hn. rewrite Hs. by apply Hpc'. }
  destruct cname as [name|].
  2: { destruct pc; try done. injection Hstep as <- <-. by apply Hframe. }
  destruct pc as [| |[c|]|o|o|r]; simpl in *.
  - (* entry *)
    destruct sing.
    + destruct (singletons_lock st) eqn:Hl; [done|]. injection Hstep as <- <-.
      split.
      * simpl. split; [|intros [= ->]; done].
        intros Hcs. apply Hlock' in Hcs. done.
      * destruct (ct_pc th') as [| |c|o|o|[o|]]; done.
    + injection Hstep as <- <-. by apply Hframe.
  - (* locked *)
    destruct (channel_singletons st) as [t|] eqn:Ht; injection Hstep as <- <-.
    + by apply Hframe.
    + apply Hframe; [done|]. intros n. unfold singleton_lookup. simpl. by rewrite Ht.
  - injection Hstep as <- <-. by apply Hframe.
  - (* looked, not found: the registration *)
    destruct Hpc as (name' & [= <- ->] & Hnone). injection Hstep as <- <-.
    specialize (Hout (proj1 Hlock eq_refl)).
    split; [done|].
    assert (forall n o, singleton_lookup st n = Some o ->
              singleton_lookup
                (set_singletons (snd (parent_constructor props st))
                   (<[name := fst (parent_constructor props st)]>
                      (default ∅ (channel_singletons (snd (parent_constructor props st))))))
                n = Some o) as Hkeep.
    { intros n o Hn. unfold singleton_lookup in *. simpl.
      destruct (decide (name = n)) as [<-|Hnn]; [congruence|].
      rewrite lookup_insert_ne by done.
      destruct (channel_singletons st); [done|done]. }
    destruct (ct_pc th') as [| |c|o|o|[o|]]; try done.
    + intros n Hn. apply Hkeep. by apply Hpc'.
    + intros n Hn. apply Hkeep. by apply Hpc'.
  - (* have: the unlock *)
    injection Hstep as <- <-.
    specialize (Hout (proj1 Hlock eq_refl)).
    split.
    + simpl. rewrite Hout. split; done.
    + destruct (ct_pc th') as [| |c|o'|o'|[o'|]]; done.
  - (* unlocked *)
    injection Hstep as <- <-. apply Hframe.
    + apply constructor_attach_cache_frame.
    + intros n. apply singleton_lookup_attach_cache.
  - done.
Qed.

Lemma ctor_interleave_invariant (cfg cfg' : CtorConfig) :
  ctor_invariant cfg -> ctor_interleave cfg cfg' -> ctor_invariant cfg'.
Proof.
  intros Hinv Hstep. destruct Hstep as [st threads tid th pc' st' Hth Hstep].
  intros tid' th' Hth'. simpl in *.
  destruct (decide (tid = tid')) as [<-|Hne].
  - rewrite list_lookup_insert_eq in Hth' by (by apply lookup_lt_Some in Hth).
    injection Hth' as <-. eapply ctor_step_self; [|done]. by apply (Hinv tid).
  - rewrite list_lookup_insert_ne in Hth' by done.
    eapply ctor_step_other; [done| | |done].
    + by apply (Hinv tid).
    + by apply (Hinv tid').
Qed.

Lemma ctor_interleave_rtc_invariant (cfg cfg' : CtorConfig) :
  rtc ctor_interleave cfg cfg' -> ctor_invariant cfg -> ctor_invariant cfg'.
Proof.
  induction 1 as [|cfg cfg1 cfg' Hstep _ IH]; [done|].
  intros Hinv. apply IH. by eapply ctor_interleave_invariant.
Qed.

End constructor_properties.

Section constructor_sequential.
Context `{Collaborators}.

Lemma ctor_interleave_in_place (tid : nat) (threads : list CtorThread)
    (props : list GObjectConstructParam) (pc pc' : CtorPc) (st st' : ProcessState) :
  (tid < length threads)%nat ->
  ctor_step tid props pc st = Some (pc', st') ->
  ctor_interleave (st, <[tid := {| ct_props := props; ct_pc := pc |}]> threads)
                  (st', <[tid := {| ct_props := props; ct_pc := pc' |}]> threads).
Proof.
  intros Hlt Hstep.
  rewrite <- (list_insert_insert_eq threads tid
                {| ct_props := props; ct_pc := pc' |} {| ct_props := props; ct_pc := pc |}).
  apply (ctor_interleave_thread st _ tid {| ct_props := props; ct_pc := pc |}); [|done].
  by apply list_lookup_insert_eq.
Qed.

(** The steps, run by one thread without interruption from a state in which
    the lock is free, are [blconf_channel_constructor]. *)
Lemma ctor_steps_sequential (tid : nat) (threads : list CtorThread)
    (props : list GObjectConstructParam) (st : ProcessState) :
  singletons_lock st = None ->
  (tid < length threads)%nat ->
  rtc ctor_interleave
    (st, <[tid := {| ct_props := props; ct_pc := PcEntry |}]> threads)
    (snd (blconf_channel_constructor props st),
     <[tid := {| ct_props := props;
                 ct_pc := PcReturned (fst (blconf_channel_constructor props st)) |}]> threads).
Proof.
  intros Hfree Hlt. unfold blconf_channel_constructor.
  destruct (constructor_args props) as [cname sing] eqn:Hargs.
  destruct st as [l t objs nxt]. simpl in Hfree. subst l.
  destruct cname as [name|]; simpl.
  2: { eapply rtc_l; [|apply rtc_refl].
       apply ctor_interleave_in_place; [done|]. unfold ctor_step. by rewrite Hargs. }
  destruct sing.
  - eapply rtc_l.
    { apply ctor_interleave_in_place; [done|]. unfold ctor_step. rewrite Hargs. simpl. done. }
    destruct t as [t|]; simpl.
    + eapply rtc_l.
      { apply ctor_interleave_in_place; [done|]. unfold ctor_step. rewrite Hargs. simpl. done. }
      destruct (t !! name) as [o|] eqn:Ho; simpl.
      * eapply rtc_l.
        { apply ctor_interleave_in_place; [done|]. unfold ctor_step. rewrite Hargs. done. }
        eapply rtc_l.
        { apply ctor_interleave_in_place; [done|]. unfold ctor_step. rewrite Hargs. done. }
        eapply rtc_l; [|apply rtc_refl].
        apply ctor_interleave_in_place; [done|]. unfold ctor_step. rewrite Hargs. done.
      * eapply rtc_l.
        { apply ctor_interleave_in_place; [done|]. unfold ctor_step. rewrite Hargs. done. }
        eapply rtc_l.
        { apply ctor_interleave_in_place; [done|]. unfold ctor_step. rewrite Hargs. done. }
        eapply rtc_l; [|apply rtc_refl].
        apply ctor_interleave_in_place; [done|]. unfold ctor_step. rewrite Hargs. done.
    + eapply rtc_l.
      { apply ctor_interleave_in_place; [done|]. unfold ctor_step. rewrite Hargs. simpl. done. }
      eapply rtc_l.
      { apply ctor_interleave_in_place; [done|]. unfold ctor_step. rewrite Hargs. done. }
      eapply rtc_l.
      { apply ctor_interleave_in_place; [done|]. unfold ctor_step. rewrite Hargs. done. }
      eapply rtc_l; [|apply rtc_refl].
      apply ctor_interleave_in_place; [done|]. unfold ctor_step. rewrite Hargs. done.
  - eapply rtc_l.
    { apply ctor_interleave_in_place; [done|]. unfold ctor_step. rewrite Hargs. simpl. done. }
    eapply rtc_l; [|apply rtc_refl].
    apply ctor_interleave_in_place; [done|]. unfold ctor_step. rewrite Hargs. done.
Qed.

End constructor_sequential.

Section constructor_uniqueness.
Context `{Collaborators}.

Lemma constructor_keeps_lock (props : list GObjectConstructParam) (st : ProcessState) :
  singletons_lock (snd (blconf_channel_constructor props st)) = singletons_lock st.
Proof.
  unfold blconf_channel_constructor.
  destruct (constructor_args props) as [[name|] sing]; [|done].
  destruct sing; simpl.
  - destruct (channel_singletons st) as [t|]; simpl.
    + destruct (t !! name); simpl; by rewrite (proj1 (constructor_attach_cache_frame _ _ _)).
    + by rewrite (proj1 (constructor_attach_cache_frame _ _ _)).
  - by rewrite (proj1 (constructor_attach_cache_frame _ _ _)).
Qed.

Lemma ctor_invariant_initial (st0 : ProcessState) (threads0 : list CtorThread) :
  singletons_lock st0 = None ->
  Forall (fun th => ct_pc th = PcEntry) threads0 ->
  ctor_invariant (st0, threads0).
Proof.
  intros Hfree Hentry tid th Hth. simpl in *.
  assert (ct_pc th = PcEntry) as Hpc.
  { rewrite Forall_forall in Hentry. apply Hentry. by eapply list_elem_of_lookup_2. }
  unfold ctor_thread_ok. rewrite Hpc, Hfree. simpl. split; [split|]; done.
Qed.

Lemma ctor_invariant_returned (st : ProcessState) (threads : list CtorThread)
    (t : nat) (th : CtorThread) (name : string) (r : option ObjId) :
  ctor_invariant (st, threads) -> threads !! t = Some th ->
  constructor_args (ct_props th) = (Some name, true) ->
  ct_pc th = PcReturned r ->
  exists o, r = Some o /\ singleton_lookup st name = Some o.
Proof.
  intros Hinv Hth Hargs Hpc.
  destruct (Hinv t th Hth) as [_ Hok]. simpl in Hok. rewrite Hpc in Hok.
  destruct r as [o|].
  - exists o. split; [done|]. by apply Hok.
  - by rewrite Hargs in Hok.
Qed.

(** C7. Singleton construction returns the one instance registered under
    the name. Run one after the other, two constructions for a name return
    the same object. Run by any number of threads in any interleaving of
    their steps, starting with the lock free, at most one thread is between
    [G_LOCK] and [G_UNLOCK], and any two constructions for the same name
    that have returned have returned the same object, the one in the
    table. *)
Theorem singleton_constructor_unique :
  (forall (st : ProcessState) props1 props2 name,
     singletons_lock st = None ->
     constructor_args props1 = (Some name, true) ->
     constructor_args props2 = (Some name, true) ->
     exists o,
       fst (blconf_channel_constructor props1 st) = Some o
       /\ fst (blconf_channel_constructor props2
                 (snd (blconf_channel_constructor props1 st))) = Some o)
  /\ (forall (st0 st : ProcessState) threads0 threads,
        singletons_lock st0 = None ->
        Forall (fun th => ct_pc th = PcEntry) threads0 ->
        rtc ctor_interleave (st0, threads0) (st, threads) ->
        (forall t1 t2 th1 th2, threads !! t1 = Some th1 -> threads !! t2 = Some th2 ->
           in_critical_section (ct_pc th1) = true ->
           in_critical_section (ct_pc th2) = true -> t1 = t2)
        /\ (forall t1 t2 th1 th2 name r1 r2,
              threads !! t1 = Some th1 -> threads !! t2 = Some th2 ->
              constructor_args (ct_props th1) = (Some name, true) ->
              constructor_args (ct_props th2) = (Some name, true) ->
              ct_pc th1 = PcReturned r1 -> ct_pc th2 = PcReturned r2 ->
              exists o, r1 = Some o /\ r2 = Some o /\ singleton_lookup st name = Some o)).
Proof.
  split.
  - intros st props1 props2 name Hfree Hargs1 Hargs2.
    set (e1 := {| ct_props := props1; ct_pc := PcEntry |}).
    set (e2 := {| ct_props := props2; ct_pc := PcEntry |}).
    pose proof (ctor_steps_sequential 0 [e1; e2] props1 st Hfree ltac:(simpl; lia)) as Hrun1.
    pose proof (ctor_steps_sequential 1
                  (<[0%nat := {| ct_props := props1;
                                 ct_pc := PcReturned (fst (blconf_channel_constructor props1 st)) |}]>
                     [e1; e2])
                  props2 (snd (blconf_channel_constructor props1 st))
                  ltac:(by rewrite constructor_keeps_lock) ltac:(simpl; lia)) as Hrun2.
    simpl in Hrun1, Hrun2.
    pose proof (ctor_interleave_rtc_invariant _ _ (rtc_trans _ _ _ Hrun1 Hrun2)
                  (ctor_invariant_initial st [e1; e2] Hfree ltac:(by repeat constructor)))
      as Hinv.
    destruct (ctor_invariant_returned _ _ 0 _ name _ Hinv eq_refl Hargs1 eq_refl)
      as (o1 & Hr1 & Ho1).
    destruct (ctor_invariant_returned _ _ 1 _ name _ Hinv eq_refl Hargs2 eq_refl)
      as (o2 & Hr2 & Ho2).
    exists o1. split; [done|]. rewrite Hr2. congruence.
  - intros st0 st threads0 threads Hfree Hentry Hrtc.
    pose proof (ctor_interleave_rtc_invariant _ _ Hrtc
                  (ctor_invariant_initial _ _ Hfree Hentry)) as Hinv.
    split.
    + intros t1 t2 th1 th2 Hth1 Hth2 Hcs1 Hcs2.
      destruct (Hinv t1 th1 Hth1) as [[Hl1 _] _].
      destruct (Hinv t2 th2 Hth2) as [[Hl2 _] _].
      simpl in *. specialize (Hl1 Hcs1). specialize (Hl2 Hcs2). congruence.
    + intros t1 t2 th1 th2 name r1 r2 Hth1 Hth2 Hargs1 Hargs2 Hpc1 Hpc2.
      destruct (ctor_invariant_returned _ _ t1 _ name _ Hinv Hth1 Hargs1 Hpc1)
        as (o1 & -> & Ho1).
      destruct (ctor_invariant_returned _ _ t2 _ name _ Hinv Hth2 Hargs2 Hpc2)
        as (o2 & -> & Ho2).
      exists o1. repeat split; [congruence|done].
Qed.

Lemma ctor_run_schedule_reachable (sched : list nat) (cfg : CtorConfig) :
  rtc ctor_interleave cfg (ctor_run_schedule sched cfg).
Proof.
  revert cfg. induction sched as [|tid sched IH]; intros [st threads]; simpl; [done|].
  destruct (threads !! tid) as [th|] eqn:Hth; [|apply IH].
  destruct (ctor_step tid (ct_props th) (ct_pc th) st) as [[pc' st']|] eqn:Hstep; [|apply IH].
  eapply rtc_l; [|apply IH]. by econstructor.
Qed.

End constructor_uniqueness.

Lemma singleton_constructor_unique_witness :
  (exists o : ObjId,
     fst (blconf_channel_constructor test_ctor_props (fst test_process)) = Some o
     /\ fst (blconf_channel_constructor test_ctor_props
               (snd (blconf_channel_constructor test_ctor_props (fst test_process))))
        = Some o)
  /\ (exists o : ObjId,
        ct_pc <$> snd (ctor_run_schedule test_schedule test_process)
        = [PcReturned (Some o); PcReturned (Some o)]).
Proof.
  destruct (@singleton_constructor_unique test_collaborators) as [Hseq Hconc].
  split.
  - apply (Hseq (fst test_process) test_ctor_props test_ctor_props "apps"%string);
      reflexivity.
  - destruct (Hconc (fst test_process) (fst (ctor_run_schedule test_schedule test_process))
                (snd test_process) (snd (ctor_run_schedule test_schedule test_process))
                eq_refl ltac:(by repeat constructor)) as [_ Hsame].
    { destruct (ctor_run_schedule test_schedule test_process) eqn:E.
      rewrite <- E. apply (ctor_run_schedule_reachable test_schedule test_process). }
    destruct (Hsame 0%nat 1%nat
                {| ct_props := test_ctor_props; ct_pc := PcReturned (Some 0%nat) |}
                {| ct_props := test_ctor_props; ct_pc := PcReturned (Some 0%nat) |}
                "apps"%string (Some 0%nat) (Some 0%nat))
      as (o & Ho & _); try (vm_compute; reflexivity).
    exists o. injection Ho as <-. vm_compute. reflexivity.
Defined.

(** ** Memory *)

Lemma le_encode_length (n : nat) (v : Z) : length (le_encode n v) = n.
Proof. revert v. induction n as [|n IH]; intros v; simpl; [done|]. by rewrite IH. Qed.

Lemma le_encode_bytes_ok (n : nat) (v : Z) : bytes_ok (le_encode n v).
Proof.
  revert v. induction n as [|n IH]; intros v; simpl; [constructor|].
  constructor; [|apply IH]. apply Z.mod_pos_bound. lia.
Qed.

Lemma le_decode_encode (n : nat) (v : Z) :
  le_decode (le_encode n v) = v mod 256 ^ Z.of_nat n.
Proof.
  revert v. induction n as [|n IH]; intros v.
  - simpl. by rewrite Z.mod_1_r.
  - cbn [le_encode le_decode]. rewrite IH.
    rewrite Nat2Z.inj_succ, Z.pow_succ_r by lia.
    rewrite Z.rem_mul_r; [done|lia|]. apply Z.pow_pos_nonneg; lia.
Qed.

Lemma le_decode_bound (l : list Z) :
  bytes_ok l -> 0 <= le_decode l < 256 ^ Z.of_nat (length l).
Proof.
  induction 1 as [|b l Hb _ IH]; [simpl; lia|].
  cbn [le_decode length]. rewrite Nat2Z.inj_succ, Z.pow_succ_r by lia. lia.
Qed.

Lemma le_encode_decode (l : list Z) :
  bytes_ok l -> le_encode (length l) (le_decode l) = l.
Proof.
  induction 1 as [|b l Hb _ IH]; [done|].
  cbn [le_decode length le_encode].
  rewrite (Z.mul_comm 256), Z.mod_add, Z.div_add by lia.
  rewrite Z.mod_small, Z.div_small by lia.
  rewrite Z.add_0_l. by rewrite IH.
Qed.

Lemma bytes_ok_take_drop (m : Mem) (o n : nat) :
  bytes_ok m -> bytes_ok (take n (drop o m)).
Proof. intros Hm. by apply Forall_take, Forall_drop. Qed.

Lemma mem_load_bound (m : Mem) (off : Z) (n : nat) :
  bytes_ok m -> 0 <= off -> Z.of_nat (Z.to_nat off + n) <= Z.of_nat (length m) ->
  0 <= mem_load m off n < 256 ^ Z.of_nat n.
Proof.
  intros Hm Hoff Hfit. unfold mem_load.
  pose proof (le_decode_bound _ (bytes_ok_take_drop m (Z.to_nat off) n Hm)) as Hb.
  rewrite length_take, length_drop in Hb.
  replace (n `min` (length m - Z.to_nat off))%nat with n in Hb by lia. done.
Qed.

Lemma mem_store_length (m : Mem) (off : Z) (n : nat) (v : Z) :
  length (mem_store m off n v) = length m.
Proof.
  unfold mem_store.
  destruct (bool_decide (0 <= off) && bool_decide (Z.to_nat off + n <= length m)%nat) eqn:E;
    [|done].
  apply andb_true_iff in E as [_ E]. apply bool_decide_eq_true in E.
  rewrite !length_app, length_take, le_encode_length, length_drop. lia.
Qed.

Lemma mem_store_bytes_ok (m : Mem) (off : Z) (n : nat) (v : Z) :
  bytes_ok m -> bytes_ok (mem_store m off n v).
Proof.
  intros Hm. unfold mem_store.
  destruct (bool_decide (0 <= off) && bool_decide (Z.to_nat off + n <= length m)%nat);
    [|done].
  apply Forall_app. split; [by apply Forall_take|].
  apply Forall_app. split; [apply le_encode_bytes_ok|by apply Forall_drop].
Qed.

(** A store changes nothing outside its slot. *)
Lemma mem_store_lookup_out (m : Mem) (off : Z) (n : nat) (v : Z) (i : nat) :
  (Z.of_nat i < off \/ off + Z.of_nat n <= Z.of_nat i) ->
  mem_store m off n v !! i = m !! i.
Proof.
  intros Hi. unfold mem_store.
  destruct (bool_decide (0 <= off) && bool_decide (Z.to_nat off + n <= length m)%nat) eqn:E;
    [|done].
  apply andb_true_iff in E as [E0 E]. apply bool_decide_eq_true in E, E0.
  destruct Hi as [Hi|Hi].
  - rewrite lookup_app_l by (rewrite length_take; lia).
    apply lookup_take_lt. lia.
  - rewrite lookup_app_r by (rewrite length_take; lia).
    rewrite lookup_app_r by (rewrite length_take, le_encode_length; lia).
    rewrite lookup_drop, length_take, le_encode_length. f_equal. lia.
Qed.

(** Within the buffer, the slot holds the bytes of the value stored. *)
Lemma mem_store_slot (m : Mem) (off : Z) (n : nat) (v : Z) :
  0 <= off -> off + Z.of_nat n <= Z.of_nat (length m) ->
  take n (drop (Z.to_nat off) (mem_store m off n v)) = le_encode n v.
Proof.
  intros Hoff Hfit. unfold mem_store.
  rewrite bool_decide_eq_true_2 by done.
  rewrite bool_decide_eq_true_2 by lia. simpl.
  rewrite drop_app_length' by (rewrite length_take; lia).
  rewrite take_app_length' by (by rewrite le_encode_length). done.
Qed.

(** Two buffers that agree on a slot load the same number from it. *)
Lemma mem_load_ext (m1 m2 : Mem) (off : Z) (n : nat) :
  0 <= off ->
  (forall i : nat, off <= Z.of_nat i < off + Z.of_nat n -> m1 !! i = m2 !! i) ->
  mem_load m1 off n = mem_load m2 off n.
Proof.
  intros Hoff Hagree. unfold mem_load. f_equal.
  apply list_eq. intros i.
  destruct (decide (i < n)%nat) as [Hi|Hi].
  - rewrite !lookup_take_lt, !lookup_drop by done. apply Hagree. lia.
  - rewrite !lookup_take_ge by lia. done.
Qed.

Lemma mem_load_store (m : Mem) (off : Z) (n : nat) (v : Z) :
  0 <= off -> off + Z.of_nat n <= Z.of_nat (length m) ->
  mem_load (mem_store m off n v) off n = v mod 256 ^ Z.of_nat n.
Proof.
  intros Hoff Hfit. unfold mem_load.
  by rewrite mem_store_slot, le_decode_encode.
Qed.

(** Storing what a slot holds leaves the slot's bytes as they are. *)
Lemma mem_store_load_slot (m m' : Mem) (off : Z) (n : nat) (i : nat) :
  bytes_ok m -> 0 <= off ->
  off + Z.of_nat n <= Z.of_nat (length m) -> length m' = length m ->
  off <= Z.of_nat i < off + Z.of_nat n ->
  mem_store m' off n (mem_load m off n) !! i = m !! i.
Proof.
  intros Hm Hoff Hfit Hlen Hi.
  assert (take n (drop (Z.to_nat off) (mem_store m' off n (mem_load m off n)))
          = take n (drop (Z.to_nat off) m)) as Hslot.
  { rewrite mem_store_slot by lia. unfold mem_load.
    pose proof (le_encode_decode _ (bytes_ok_take_drop m (Z.to_nat off) n Hm)) as Hed.
    rewrite length_take, length_drop in Hed.
    by replace (n `min` (length m - Z.to_nat off))%nat with n in Hed by lia. }
  apply (f_equal (fun l => l !! (i - Z.to_nat off)%nat)) in Hslot.
  rewrite !lookup_take_lt, !lookup_drop in Hslot by lia.
  by replace (Z.to_nat off + (i - Z.to_nat off))%nat with i in Hslot by lia.
Qed.

(** ** The struct codec *)

Lemma le_decode_inj (l1 l2 : list Z) :
  bytes_ok l1 -> bytes_ok l2 -> length l1 = length l2 ->
  le_decode l1 = le_decode l2 -> l1 = l2.
Proof.
  intros H1 H2 Hlen Hdec.
  rewrite <- (le_encode_decode l1 H1), <- (le_encode_decode l2 H2). congruence.
Qed.

(** Two buffers of bytes that load the same number from a slot have the
    same bytes in it. *)
Lemma mem_load_inj (m1 m2 : list Z) (off : Z) (n : nat) (i : nat) :
  bytes_ok m1 -> bytes_ok m2 -> 0 <= off ->
  off + Z.of_nat n <= Z.of_nat (length m1) -> length m2 = length m1 ->
  mem_load m1 off n = mem_load m2 off n ->
  off <= Z.of_nat i < off + Z.of_nat n ->
  m1 !! i = m2 !! i.
Proof.
  intros H1 H2 Hoff Hfit Hlen Hload Hi.
  assert (take n (drop (Z.to_nat off) m1) = take n (drop (Z.to_nat off) m2)) as Hslot.
  { apply le_decode_inj; [by apply bytes_ok_take_drop|by apply bytes_ok_take_drop| |done].
    rewrite !length_take, !length_drop. lia. }
  apply (f_equal (fun l => l !! (i - Z.to_nat off)%nat)) in Hslot.
  rewrite !lookup_take_lt, !lookup_drop in Hslot by lia.
  by replace (Z.to_nat off + (i - Z.to_nat off))%nat with i in Hslot by lia.
Qed.

Lemma cast_s_mod (w raw : Z) :
  0 < w -> 0 <= raw < 2 ^ w -> cast_s w raw mod 2 ^ w = raw.
Proof.
  intros Hw Hraw. unfold cast_s.
  rewrite Zminus_mod_idemp_l.
  replace (raw + 2 ^ (w - 1) - 2 ^ (w - 1)) with raw by lia.
  by apply Z.mod_small.
Qed.

Section struct_codec_properties.
Context `{Platform}.

(** [ALIGN_VAL] rounds up to the next multiple of a power-of-two alignment. *)
Lemma ALIGN_VAL_round_up (off a k : Z) :
  0 <= k -> a = 2 ^ k -> 0 <= off -> off + a <= 2 ^ gsize_bits ->
  ALIGN_VAL off a = a * ((off + (a - 1)) / a)
  /\ off <= ALIGN_VAL off a < off + a.
Proof.
  intros Hk -> Hoff Hfit.
  assert (0 < 2 ^ k) as Hpos by (apply Z.pow_pos_nonneg; lia).
  unfold ALIGN_VAL, cast_u. rewrite Z.mod_small by lia.
  replace (2 ^ k - 1) with (Z.ones k) by (rewrite Z.ones_equiv; lia).
  rewrite <- Z.ldiff_land, Z.ldiff_ones_r by done.
  rewrite Z.shiftr_div_pow2, Z.shiftl_mul_pow2 by done.
  rewrite Z.ones_equiv.
  replace (Z.pred (2 ^ k)) with (2 ^ k - 1) by lia.
  split; [lia|].
  pose proof (Z.div_mod (off + (2 ^ k - 1)) (2 ^ k) ltac:(lia)) as Hdm.
  pose proof (Z.mod_pos_bound (off + (2 ^ k - 1)) (2 ^ k) Hpos) as Hmb.
  lia.
Qed.

Lemma member_codec_align_ok (t : GType) (mc : MemberCodec) :
  platform_ok -> member_codec t = Some mc ->
  exists k, 0 <= k < gsize_bits /\ mc_align mc = 2 ^ k.
Proof.
  intros [_ Hal] Hmc. rewrite Forall_forall in Hal.
  apply Hal. destruct t; simpl in Hmc; try done; injection Hmc as <-; simpl;
    rewrite !elem_of_cons; tauto.
Qed.

Lemma set_structv_member_codec (heap : list string) (S : list Z) (t : GType) (off : Z) :
  set_structv_member heap S t off =
  (fun mc => GET_STRUCT_VAL (mc_size mc) (mc_align mc) (mc_read mc heap) S off)
    <$> member_codec t.
Proof. by destruct t. Qed.

Lemma get_structv_member_codec (t : GType) (val : GValue) (w : StructWalk) :
  get_structv_member t val w =
  mc ← member_codec t;
  SET_STRUCT_VAL (mc_size mc) (mc_wire mc) (mc_align mc) (mc_get mc) val w.
Proof. by destruct t. Qed.

Lemma heap_deref_fresh (heap heap' : list string) (s : string) :
  (heap ++ [s]) `prefix_of` heap' ->
  heap_deref heap' (Z.of_nat (length heap) + 1) = Some s.
Proof.
  intros [k ->]. unfold heap_deref.
  replace (Z.of_nat (length heap) + 1 =? 0) with false by (symmetry; apply Z.eqb_neq; lia).
  replace (Z.to_nat (Z.of_nat (length heap) + 1 - 1)) with (length heap) by lia.
  rewrite <- app_assoc. by rewrite lookup_app_r, Nat.sub_diag by lia.
Qed.

(** A member value read from a struct, fixed up for the wire and stored
    back, reads as the same value; for a plain number the bytes stored are
    the bytes read. *)
Lemma member_codec_roundtrip (t : GType) (mc : MemberCodec)
    (heap0 heap : list string) (raw : Z) :
  platform_ok -> member_codec t = Some mc ->
  0 <= raw < 256 ^ Z.of_nat (mc_size mc) ->
  let v := mc_read mc heap0 raw in
  G_VALUE_TYPE (fixup_16bit_elem v) = mc_wire mc
  /\ let heap2 := fst (mc_get mc heap (fixup_16bit_elem v)) in
     let cval := snd (mc_get mc heap (fixup_16bit_elem v)) in
     heap `prefix_of` heap2
     /\ (length heap2 <= length heap + 1)%nat
     /\ (Z.of_nat (length heap2) < 256 ^ sizeof_gpointer ->
         forall heap', heap2 `prefix_of` heap' ->
           mc_read mc heap' (cval mod 256 ^ Z.of_nat (mc_size mc)) = v)
     /\ (mc_plain mc = true -> cval mod 256 ^ Z.of_nat (mc_size mc) = raw).
Proof.
  intros [Hptr _] Hmc Hraw.
  destruct t; simpl in Hmc; try done; injection Hmc as <-; simpl in *.
  - (* string *)
    split; [done|]. unfold fixup_16bit_elem. simpl.
    destruct (heap_deref heap0 raw) as [s|]; simpl.
    + split; [by apply prefix_app_r|]. split; [rewrite length_app; simpl; lia|].
      split; [|done]. intros Hroom heap' Hpre.
      rewrite length_app in Hroom. simpl in Hroom.
      rewrite Z2Nat.id by lia.
      rewrite Z.mod_small by lia. f_equal. by apply heap_deref_fresh.
    + split; [done|]. split; [lia|]. split; [|done]. intros _ heap' _.
      rewrite Z.mod_0_l by (apply Z.pow_nonzero; lia). done.
  - (* uchar *)
    split; [done|]. unfold fixup_16bit_elem; simpl. split; [done|]. split; [lia|].
    rewrite Z.mod_small by done. done.
  - (* char *)
    split; [done|]. unfold fixup_16bit_elem; simpl. split; [done|]. split; [lia|].
    change (256 ^ 1) with (2 ^ 8) in *. rewrite cast_s_mod by (done || lia). done.
  - (* uint *)
    split; [done|]. unfold fixup_16bit_elem; simpl. split; [done|]. split; [lia|].
    rewrite Z.mod_small by done. done.
  - (* int *)
    split; [done|]. unfold fixup_16bit_elem; simpl. split; [done|]. split; [lia|].
    change (256 ^ 4) with (2 ^ 32) in *. rewrite cast_s_mod by (done || lia). done.
  - (* uint64 *)
    split; [done|]. unfold fixup_16bit_elem; simpl. split; [done|]. split; [lia|].
    rewrite Z.mod_small by done. done.
  - (* int64 *)
    split; [done|]. unfold fixup_16bit_elem; simpl. split; [done|]. split; [lia|].
    change (256 ^ 8) with (2 ^ 64) in *. rewrite cast_s_mod by (done || lia). done.
  - (* float *)
    split; [done|]. unfold fixup_16bit_elem; simpl. split; [done|]. split; [lia|].
    rewrite Z.mod_small by done. done.
  - (* double *)
    split; [done|]. unfold fixup_16bit_elem; simpl. split; [done|]. split; [lia|].
    rewrite Z.mod_small by done. done.
  - (* boolean *)
    split; [done|]. unfold fixup_16bit_elem; simpl. split; [done|]. split; [lia|].
    split; [|done]. intros _ _ _. by destruct (raw =? 0).
  - (* uint16 *)
    split; [done|]. unfold fixup_16bit_elem; simpl. split; [done|]. split; [lia|].
    rewrite Z.mod_small by done. done.
  - (* int16 *)
    split; [done|]. unfold fixup_16bit_elem; simpl. split; [done|]. split; [lia|].
    change (256 ^ 2) with (2 ^ 16) in *. rewrite cast_s_mod by (done || lia). done.
Qed.

End struct_codec_properties.

Section struct_walk_properties.
Context `{Platform}.

Lemma set_structv_loop_acc (heap : list string) (S : list Z) (D : list GType)
    (off : Z) (acc : list GValue) :
  set_structv_loop heap S D off acc
  = (fun vals => acc ++ vals) <$> set_structv_loop heap S D off [].
Proof.
  revert off acc. induction D as [|t D IH]; intros off acc; simpl.
  - by rewrite app_nil_r.
  - destruct (set_structv_member heap S t off) as [[val off']|]; [|done].
    rewrite (IH off' (acc ++ [val])), (IH off' [val]).
    destruct (set_structv_loop heap S D off' []) as [vals|]; simpl; [|done].
    by rewrite <- app_assoc.
Qed.

Lemma set_structv_loop_cons (heap : list string) (S : list Z) (t : GType)
    (D : list GType) (off : Z) :
  set_structv_loop heap S (t :: D) off []
  = '(val, off') ← set_structv_member heap S t off;
    (fun vals => val :: vals) <$> set_structv_loop heap S D off' [].
Proof.
  simpl. destruct (set_structv_member heap S t off) as [[val off']|]; [|done].
  simpl. by rewrite set_structv_loop_acc.
Qed.

Lemma set_structv_loop_length (heap : list string) (S : list Z) (D : list GType)
    (off : Z) (vals : list GValue) :
  set_structv_loop heap S D off [] = Some vals -> length vals = length D.
Proof.
  revert off vals. induction D as [|t D IH]; intros off vals.
  - by intros [= <-].
  - rewrite set_structv_loop_cons.
    destruct (set_structv_member heap S t off) as [[val off']|]; [|done]. simpl.
    destruct (set_structv_loop heap S D off' []) as [vals'|] eqn:E; [|done].
    intros [= <-]. simpl. f_equal. by eapply IH.
Qed.

(** The walk of one descriptor from one offset: packing the source [S],
    fixing up the values for the wire and unpacking them into the
    destination succeeds, touches nothing below the offset, and leaves a
    struct from which packing reads the same values again. *)
Lemma struct_walk_roundtrip (D : list GType) :
  forall (off : Z) (heap0 heap : list string) (S T T1 : list Z),
    platform_ok ->
    bytes_ok S -> bytes_ok T1 -> length T1 = length S ->
    Z.of_nat (length S) <= 2 ^ (gsize_bits - 1) ->
    0 <= off <= Z.of_nat (length S) ->
    struct_fits (Z.of_nat (length S)) off D ->
    Z.of_nat (length heap + length D) < 256 ^ sizeof_gpointer ->
    (forall i : nat, off <= Z.of_nat i -> T1 !! i = T !! i) ->
    exists vals w',
      set_structv_loop heap0 S D off [] = Some vals
      /\ get_structv_loop D (fixup_16bit_elem <$> vals)
           {| sw_heap := heap; sw_struct := T1; sw_offset := off |} = (true, w')
      /\ length (sw_struct w') = length T1
      /\ bytes_ok (sw_struct w')
      /\ heap `prefix_of` sw_heap w'
      /\ (length (sw_heap w') <= length heap + length D)%nat
      /\ (forall i : nat, Z.of_nat i < off -> sw_struct w' !! i = T1 !! i)
      /\ (forall (heap' : list string) (R' : list Z),
            sw_heap w' `prefix_of` heap' ->
            (forall i : nat, off <= Z.of_nat i -> R' !! i = sw_struct w' !! i) ->
            set_structv_loop heap' R' D off [] = Some vals)
      /\ struct_bytes_agree S T (sw_struct w') off D.
Proof.
  induction D as [|t D IH];
    intros off heap0 heap S T T1 Hplat HS HT1 Hlen Hbound Hoff Hfits Hroom HT.
  - exists [], {| sw_heap := heap; sw_struct := T1; sw_offset := off |}. simpl.
    repeat split; try done. lia.
  - simpl in Hfits. destruct (member_codec t) as [mc|] eqn:Hmc; [|done].
    destruct Hfits as [Hfit Hfits].
    destruct (member_codec_align_ok t mc Hplat Hmc) as (k & Hk & Ha).
    assert (2 ^ gsize_bits = 2 * 2 ^ (gsize_bits - 1)) as Hpow.
    { rewrite <- Z.pow_succ_r by lia. f_equal. lia. }
    assert (2 ^ k <= 2 ^ (gsize_bits - 1)) as Hak by (apply Z.pow_le_mono_r; lia).
    destruct (ALIGN_VAL_round_up off (mc_align mc) k) as [_ Ho]; [lia|done|lia|lia|].
    set (o := ALIGN_VAL off (mc_align mc)) in *.
    assert (cast_u gsize_bits (o + Z.of_nat (mc_size mc)) = o + Z.of_nat (mc_size mc)) as Hnext.
    { apply cast_u_small. unfold in_u. lia. }
    rewrite Hnext in Hfits.
    set (raw := mem_load S o (mc_size mc)).
    assert (0 <= raw < 256 ^ Z.of_nat (mc_size mc)) as Hraw.
    { apply mem_load_bound; [done|lia|lia]. }
    destruct (member_codec_roundtrip t mc heap0 heap raw Hplat Hmc Hraw)
      as (Hwire & Hpre & Hgrow & Hread & Hplain).
    set (v := mc_read mc heap0 raw) in *.
    destruct (mc_get mc heap (fixup_16bit_elem v)) as [heap2 cval] eqn:Hget.
    simpl in Hpre, Hgrow, Hread, Hplain.
    set (T2 := mem_store T1 o (mc_size mc) cval).
    assert (forall heap' R', heap2 `prefix_of` heap' ->
              (forall i : nat, o <= Z.of_nat i < o + Z.of_nat (mc_size mc) -> R' !! i = T2 !! i) ->
              mc_read mc heap' (mem_load R' o (mc_size mc)) = v) as Hreread.
    { intros heap' R' Hpre' HR'.
      rewrite (mem_load_ext R' T2 o (mc_size mc)) by (lia || done).
      unfold T2. rewrite mem_load_store by lia. apply Hread; [|done].
      simpl in Hroom. lia. }
    destruct (IH (o + Z.of_nat (mc_size mc)) heap0 heap2 S T T2) as (vals & w' & Hpack & Hunpack
        & HlenR & HokR & HpreR & HgrowR & Hframe & Hre & Hagree); try done.
    { by apply mem_store_bytes_ok. }
    { unfold T2. by rewrite mem_store_length. }
    { lia. }
    { simpl in Hroom. lia. }
    { intros i Hi. unfold T2. rewrite mem_store_lookup_out by lia. apply HT. lia. }
    exists (v :: vals), w'.
    repeat split.
    + rewrite set_structv_loop_cons, set_structv_member_codec, Hmc. simpl.
      unfold GET_STRUCT_VAL. fold o. fold raw. fold v. rewrite Hnext. simpl.
      by rewrite Hpack.
    + rewrite fmap_cons. simpl. rewrite get_structv_member_codec, Hmc. simpl.
      unfold SET_STRUCT_VAL. simpl. rewrite decide_False by (by intros Hn; apply Hn).
      fold o. rewrite Hget, Hnext. done.
    + rewrite HlenR. unfold T2. by rewrite mem_store_length.
    + done.
    + by etrans.
    + simpl. lia.
    + intros i Hi. rewrite Hframe by lia. unfold T2. apply mem_store_lookup_out. lia.
    + intros heap' R' Hpre' HR'.
      rewrite set_structv_loop_cons, set_structv_member_codec, Hmc. simpl.
      unfold GET_STRUCT_VAL. fold o. rewrite Hnext. simpl.
      rewrite Hreread.
      * rewrite (Hre heap' R'); [done|done|]. intros i Hi. apply HR'. lia.
      * by etrans.
      * intros i Hi. rewrite HR' by lia. apply Hframe. lia.
    + simpl. rewrite Hmc. fold o. rewrite Hnext. repeat split.
      * intros i Hi. rewrite Hframe by lia. unfold T2.
        rewrite mem_store_lookup_out by lia. apply HT. lia.
      * intros Hp i Hi. rewrite Hframe by lia.
        symmetry. apply (mem_load_inj S T2 o (mc_size mc)).
        -- done.
        -- by apply mem_store_bytes_ok.
        -- lia.
        -- lia.
        -- unfold T2. by rewrite mem_store_length.
        -- unfold T2. rewrite mem_load_store by lia. by rewrite (Hplain Hp).
        -- lia.
      * done.
Qed.

End struct_walk_properties.

(** *** What a walk of [blconf_channel_get_structv] leaves in the struct *)

Section struct_store_properties.
Context `{Platform}.

(** The walk stops at a member exactly when it is not accepted. *)
Lemma get_structv_member_accepts (t : GType) (val : GValue) (w : StructWalk) :
  is_Some (get_structv_member t val w) <-> member_accepts t val = true.
Proof.
  rewrite get_structv_member_codec. unfold member_accepts.
  destruct (member_codec t) as [mc|]; simpl.
  - unfold SET_STRUCT_VAL.
    destruct (decide (G_VALUE_TYPE val <> mc_wire mc)) as [Hne|Heq].
    + rewrite bool_decide_eq_false_2 by done. split; [by intros [? ?]|done].
    + apply dec_stable in Heq. rewrite bool_decide_eq_true_2 by done.
      destruct (mc_get mc (sw_heap w) val). split; [done|by eexists].
  - split; [by intros [? ?]|done].
Qed.

(** One accepted member: the value is stored at the aligned offset, the
    offset advances by the member's size, and a string is duplicated. *)
Lemma get_structv_member_stores (t : GType) (mc : MemberCodec) (val : GValue)
    (heap0 heap : list string) (T1 : list Z) (off : Z) :
  platform_ok -> member_codec t = Some mc -> G_VALUE_TYPE val = mc_wire mc ->
  0 <= ALIGN_VAL off (mc_align mc) ->
  ALIGN_VAL off (mc_align mc) + Z.of_nat (mc_size mc) <= Z.of_nat (length T1) ->
  heap0 `prefix_of` heap ->
  Z.of_nat (length heap) + 1 < 256 ^ sizeof_gpointer ->
  let o := ALIGN_VAL off (mc_align mc) in
  exists heap2 cval,
    get_structv_member t val {| sw_heap := heap; sw_struct := T1; sw_offset := off |}
    = Some {| sw_heap := heap2;
              sw_struct := mem_store T1 o (mc_size mc) cval;
              sw_offset := cast_u gsize_bits (o + Z.of_nat (mc_size mc)) |}
    /\ heap `prefix_of` heap2 /\ (length heap2 <= length heap + 1)%nat
    /\ forall (heap' : list string) (R : list Z),
         heap2 `prefix_of` heap' ->
         (forall i : nat, o <= Z.of_nat i < o + Z.of_nat (mc_size mc) ->
                          R !! i = mem_store T1 o (mc_size mc) cval !! i) ->
         member_stored heap0 heap' R t o val.
Proof.
  intros [Hptr _] Hmc Hty Ho Hfit Hpre Hroom o.
  rewrite get_structv_member_codec, Hmc. simpl. unfold SET_STRUCT_VAL. simpl.
  rewrite decide_False by (by intros Hn; apply Hn). fold o.
  destruct (mc_get mc heap val) as [heap2 cval] eqn:Hget.
  exists heap2, cval. split; [done|].
  assert (forall R : list Z,
            (forall i : nat, o <= Z.of_nat i < o + Z.of_nat (mc_size mc) ->
                             R !! i = mem_store T1 o (mc_size mc) cval !! i) ->
            mem_load R o (mc_size mc) = cval mod 256 ^ Z.of_nat (mc_size mc)) as Hload.
  { intros R HR. rewrite (mem_load_ext R (mem_store T1 o (mc_size mc) cval)) by done.
    by apply mem_load_store. }
  destruct t; simpl in Hmc; try done; injection Hmc as <-; simpl in *;
    try (injection Hget as <- <-; split; [done|]; split; [lia|];
         intros heap' R _ HR; unfold member_stored; simpl; by apply Hload).
  (* string *)
  destruct val as [|s| | | | | | | | | | | | | |]; try done.
  unfold g_value_dup_string in Hget. simpl in Hget.
  destruct s as [s|]; injection Hget as <- <-.
  - split; [by apply prefix_app_r|]. split; [rewrite length_app; simpl; lia|].
    intros heap' R Hpre' HR. unfold member_stored. simpl.
    rewrite (Hload R HR). rewrite Z2Nat.id by lia.
    rewrite Z.mod_small by lia.
    split; [by apply heap_deref_fresh|].
    apply prefix_length in Hpre. lia.
  - split; [done|]. split; [lia|].
    intros heap' R _ HR. unfold member_stored. simpl.
    rewrite (Hload R HR). apply Z.mod_0_l. apply Z.pow_nonzero; lia.
Qed.

Lemma get_structv_loop_stores (D : list GType) :
  forall (vals : list GValue) (off : Z) (heap0 heap : list string) (T T1 : list Z),
    platform_ok -> bytes_ok T1 -> length T1 = length T ->
    Z.of_nat (length T) <= 2 ^ (gsize_bits - 1) ->
    0 <= off <= Z.of_nat (length T) ->
    struct_fits (Z.of_nat (length T)) off D ->
    heap0 `prefix_of` heap ->
    Z.of_nat (length heap + length D) < 256 ^ sizeof_gpointer ->
    Forall2 (fun t v => member_accepts t v = true) D vals ->
    (forall i : nat, off <= Z.of_nat i -> T1 !! i = T !! i) ->
    exists w',
      get_structv_loop D vals {| sw_heap := heap; sw_struct := T1; sw_offset := off |}
      = (true, w')
      /\ length (sw_struct w') = length T /\ bytes_ok (sw_struct w')
      /\ heap `prefix_of` sw_heap w'
      /\ (forall i : nat, Z.of_nat i < off -> sw_struct w' !! i = T1 !! i)
      /\ struct_holds heap0 (sw_heap w') T (sw_struct w') off D vals.
Proof.
  induction D as [|t D IH];
    intros vals off heap0 heap T T1 Hplat HT1 Hlen Hbound Hoff Hfits Hpre Hroom Hacc HT.
  - apply Forall2_nil_inv_l in Hacc as ->.
    exists {| sw_heap := heap; sw_struct := T1; sw_offset := off |}. simpl.
    repeat split; try done.
  - apply Forall2_cons_inv_l in Hacc as (val & vals' & Hval & Hacc & ->).
    simpl in Hfits. unfold member_accepts in Hval.
    destruct (member_codec t) as [mc|] eqn:Hmc; [|done].
    apply bool_decide_eq_true in Hval.
    destruct Hfits as [Hfit Hfits].
    destruct (member_codec_align_ok t mc Hplat Hmc) as (k & Hk & Ha).
    assert (2 ^ gsize_bits = 2 * 2 ^ (gsize_bits - 1)) as Hpow.
    { rewrite <- Z.pow_succ_r by lia. f_equal. lia. }
    assert (2 ^ k <= 2 ^ (gsize_bits - 1)) as Hak by (apply Z.pow_le_mono_r; lia).
    destruct (ALIGN_VAL_round_up off (mc_align mc) k) as [_ Ho]; [lia|done|lia|lia|].
    destruct (get_structv_member_stores t mc val heap0 heap T1 off Hplat Hmc Hval)
      as (heap2 & cval & Hstep & Hpre2 & Hgrow & Hstored);
      [lia|lia|done|simpl in Hroom; lia|].
    set (o := ALIGN_VAL off (mc_align mc)) in *.
    assert (cast_u gsize_bits (o + Z.of_nat (mc_size mc)) = o + Z.of_nat (mc_size mc)) as Hnext.
    { apply cast_u_small. unfold in_u. lia. }
    rewrite Hnext in Hfits, Hstep.
    set (T2 := mem_store T1 o (mc_size mc) cval) in *.
    destruct (IH vals' (o + Z.of_nat (mc_size mc)) heap0 heap2 T T2)
      as (w' & Hloop & HlenR & HokR & HpreR & Hframe & Hholds); try done.
    { by apply mem_store_bytes_ok. }
    { unfold T2. by rewrite mem_store_length. }
    { lia. }
    { by etrans. }
    { simpl in Hroom. lia. }
    { intros i Hi. unfold T2. rewrite mem_store_lookup_out by lia. apply HT. lia. }
    exists w'. repeat split.
    + cbn [get_structv_loop]. by rewrite Hstep.
    + done.
    + done.
    + by etrans.
    + intros i Hi. rewrite Hframe by lia. unfold T2. apply mem_store_lookup_out. lia.
    + cbn [struct_holds]. rewrite Hmc. fold o. rewrite Hnext. repeat split.
      * intros i Hi. rewrite Hframe by lia. unfold T2.
        rewrite mem_store_lookup_out by lia. apply HT. lia.
      * apply Hstored; [done|]. intros i Hi. apply Hframe. lia.
      * done.
Qed.

(** The walk over a descriptor stops at the first member that is not
    accepted, in the state the members before it left. *)
Lemma get_structv_loop_stops (i : nat) :
  forall (D : list GType) (arr : list GValue) (t : GType) (val : GValue)
         (w w' : StructWalk),
    D !! i = Some t -> arr !! i = Some val -> member_accepts t val = false ->
    get_structv_loop (take i D) (take i arr) w = (true, w') ->
    get_structv_loop D arr w = (false, w').
Proof.
  induction i as [|i IH]; intros D arr t val w w' HD Harr Hrej Hpre.
  - destruct D as [|t0 D]; [done|]. destruct arr as [|v0 arr]; [done|].
    injection HD as ->. injection Harr as ->. simpl in Hpre. injection Hpre as <-.
    simpl. destruct (get_structv_member t val w) as [w1|] eqn:Hm; [|done].
    assert (is_Some (get_structv_member t val w)) as Hs by (by rewrite Hm).
    apply get_structv_member_accepts in Hs. congruence.
  - destruct D as [|t0 D]; [done|]. destruct arr as [|v0 arr]; [done|].
    simpl in HD, Harr, Hpre. simpl.
    destruct (get_structv_member t0 v0 w) as [w1|]; [|done].
    by apply (IH D arr t val).
Qed.

(** A walk that failed went past accepted members only and stopped at one
    that is not. *)
Lemma get_structv_loop_failed (D : list GType) :
  forall (arr : list GValue) (w w' : StructWalk),
    length arr = length D ->
    get_structv_loop D arr w = (false, w') ->
    exists (i : nat) (t : GType) (val : GValue),
      D !! i = Some t /\ arr !! i = Some val
      /\ member_accepts t val = false
      /\ Forall2 (fun t v => member_accepts t v = true) (take i D) (take i arr)
      /\ get_structv_loop (take i D) (take i arr) w = (true, w').
Proof.
  induction D as [|t D IH]; intros arr w w' Hlen Hfail; [done|].
  destruct arr as [|val arr]; [done|]. simpl in Hfail.
  destruct (get_structv_member t val w) as [w1|] eqn:Hm.
  - destruct (IH arr w1 w' ltac:(simpl in Hlen; lia) Hfail)
      as (i & t' & val' & HD & Harr & Hrej & Hacc & Hpre).
    exists (S i), t', val'. repeat split; try done.
    + simpl. constructor; [|done].
      apply (get_structv_member_accepts t val w). by rewrite Hm.
    + simpl. by rewrite Hm.
  - injection Hfail as <-. exists 0%nat, t, val. repeat split; try done.
    + destruct (member_accepts t val) eqn:Hacc; [|done].
      apply (get_structv_member_accepts t val w) in Hacc. rewrite Hm in Hacc.
      by destruct Hacc.
Qed.

(** A walk that succeeded went past accepted members only. *)
Lemma get_structv_loop_accepted (D : list GType) :
  forall (arr : list GValue) (w w' : StructWalk),
    length arr = length D ->
    get_structv_loop D arr w = (true, w') ->
    Forall2 (fun t v => member_accepts t v = true) D arr.
Proof.
  induction D as [|t D IH]; intros arr w w' Hlen Hloop.
  - destruct arr; [constructor|done].
  - destruct arr as [|val arr]; [done|]. simpl in Hloop.
    destruct (get_structv_member t val w) as [w1|] eqn:Hm; [|done].
    constructor.
    + apply (get_structv_member_accepts t val w). by rewrite Hm.
    + apply (IH arr w1 w'); [simpl in Hlen; lia|done].
Qed.

(** When the values stored are those packed from [S], fixed up for the
    wire, the strings and [gboolean]s stored relate to those of [S]. *)
Lemma struct_holds_converted (D : list GType) :
  forall (off : Z) (vals : list GValue) (heap heap' : list string) (S T R : list Z),
    bytes_ok S ->
    set_structv_loop heap S D off [] = Some vals ->
    struct_holds heap heap' T R off D (fixup_16bit_elem <$> vals) ->
    struct_converted_agree heap heap' S R off D.
Proof.
  induction D as [|t D IH]; intros off vals heap heap' S T R HS Hpack Hholds; [done|].
  rewrite set_structv_loop_cons, set_structv_member_codec in Hpack.
  cbn [struct_converted_agree].
  destruct (member_codec t) as [mc|] eqn:Hmc; [|done]. simpl in Hpack.
  unfold GET_STRUCT_VAL in Hpack. simpl in Hpack.
  destruct (set_structv_loop heap S D _ []) as [vals'|] eqn:Hrest; [|done].
  injection Hpack as <-. rewrite fmap_cons in Hholds. cbn [struct_holds] in Hholds.
  rewrite Hmc in Hholds. destruct Hholds as (_ & Hstored & Hholds).
  split; [|by apply (IH _ vals' heap heap' S T R)].
  set (o := ALIGN_VAL off (mc_align mc)) in *.
  assert (forall n : nat, 0 <= mem_load S o n) as Hraw.
  { intros n. unfold mem_load.
    pose proof (le_decode_bound _ (bytes_ok_take_drop S (Z.to_nat o) n HS)). lia. }
  destruct t; simpl in Hmc; try done; injection Hmc as <-; try exact I.
  - (* string *)
    unfold member_converted, member_stored in *. simpl in *.
    unfold fixup_16bit_elem in Hstored. simpl in Hstored.
    destruct (heap_deref heap (mem_load S o (Z.to_nat sizeof_gpointer))) as [s|] eqn:Hs;
      [|done].
    destruct Hstored as [Hderef Hnew]. split; [done|]. split; [done|].
    unfold heap_deref in Hs.
    destruct (mem_load S o (Z.to_nat sizeof_gpointer) =? 0) eqn:Hz; [done|].
    apply Z.eqb_neq in Hz. apply lookup_lt_Some in Hs.
    specialize (Hraw (Z.to_nat sizeof_gpointer)). lia.
  - (* gboolean *)
    unfold member_converted, member_stored in *. simpl in *.
    unfold fixup_16bit_elem in Hstored. simpl in Hstored.
    rewrite Hstored. by destruct (mem_load S o 4 =? 0).
Qed.

End struct_store_properties.

Lemma lp64_platform_ok : @platform_ok lp64.
Proof.
  split; [simpl; lia|].
  repeat constructor; simpl;
    [exists 3|exists 0|exists 0|exists 2|exists 2|exists 3|exists 3|exists 2
    |exists 3|exists 2|exists 1|exists 1]; (split; [unfold gsize_bits; simpl; lia|done]).
Qed.

Section struct_channel_properties.
Context `{Platform} `{Collaborators}.

Lemma get_structv_loop_fail (D : list GType) :
  forall (arr : list GValue) (w w' : StructWalk),
    length arr = length D ->
    get_structv_loop D arr w = (false, w') ->
    exists (i : nat) (t : GType) (val : GValue),
      D !! i = Some t /\ arr !! i = Some val
      /\ get_structv_loop (take i D) (take i arr) w = (true, w')
      /\ get_structv_member t val w' = None.
Proof.
  induction D as [|t D IH]; intros arr w w' Hlen Hfail; [done|].
  destruct arr as [|val arr]; [done|]. simpl in Hfail.
  destruct (get_structv_member t val w) as [w1|] eqn:Hm.
  - destruct (IH arr w1 w' ltac:(simpl in Hlen; lia) Hfail)
      as (i & t' & val' & HD & Harr & Hpre & Hbad).
    exists (S i), t', val'. repeat split; try done. simpl. by rewrite Hm.
  - injection Hfail as <-. exists 0%nat, t, val. by repeat split.
Qed.

Lemma get_arrayv_some (channel : BlconfChannel) (property : gchar_p)
    (arr : list GValue) :
  blconf_channel_get_arrayv channel property = Some arr ->
  is_Some property /\ arr <> [].
Proof.
  unfold blconf_channel_get_arrayv. destruct property as [name|]; [|done].
  destruct (blconf_channel_get_internal channel (Some name) GV_unset) as [ret val].
  destruct ret; [|done]. destruct val; try done. simpl.
  destruct arr0; [done|]. intros [= <-]. by split.
Qed.

(** C3 (amended). A retrieval that fails before the walk (no property, no
    member, nothing usable in the cache, or an array of another length than
    the descriptor) leaves the destination as it was. When the first member
    that is not accepted, because its type is not one the codec handles or
    because its array element has another kind than the member requires, is
    member [i], the retrieval returns FALSE, and in a destination with room
    for the members before [i] those members have been stored (a string as
    a new copy) while the padding between them and every byte from the end
    of member [i - 1] on are as they were: nothing is stored for member [i]
    or a later one. Every failure with an array of the descriptor's length
    is of this kind. *)
Theorem get_structv_failure_keeps_prefix (channel : BlconfChannel)
    (property : gchar_p) (heap : list string) (T : list Z) (D : list GType) :
  (property = None \/ D = [] \/ blconf_channel_get_arrayv channel property = None ->
   blconf_channel_get_structv channel property heap T D = (false, heap, T))
  /\ (forall arr, blconf_channel_get_arrayv channel property = Some arr ->
        length arr <> length D ->
        blconf_channel_get_structv channel property heap T D = (false, heap, T))
  /\ (forall t val,
        member_accepts t val = false
        <-> member_codec t = None
            \/ exists mc, member_codec t = Some mc /\ G_VALUE_TYPE val <> mc_wire mc)
  /\ (forall arr (i : nat) t val,
        blconf_channel_get_arrayv channel property = Some arr ->
        length arr = length D ->
        D !! i = Some t -> arr !! i = Some val ->
        member_accepts t val = false ->
        Forall2 (fun t v => member_accepts t v = true) (take i D) (take i arr) ->
        platform_ok -> bytes_ok T ->
        Z.of_nat (length T) <= 2 ^ (gsize_bits - 1) ->
        struct_fits (Z.of_nat (length T)) 0 (take i D) ->
        Z.of_nat (length heap + i) < 256 ^ sizeof_gpointer ->
        exists heap' R,
          blconf_channel_get_structv channel property heap T D = (false, heap', R)
          /\ length R = length T
          /\ heap `prefix_of` heap'
          /\ struct_holds heap heap' T R 0 (take i D) (take i arr))
  /\ (forall arr heap' R,
        blconf_channel_get_arrayv channel property = Some arr ->
        length arr = length D ->
        blconf_channel_get_structv channel property heap T D = (false, heap', R) ->
        exists (i : nat) t val,
          D !! i = Some t /\ arr !! i = Some val
          /\ member_accepts t val = false
          /\ Forall2 (fun t v => member_accepts t v = true) (take i D) (take i arr)).
Proof.
  split; [|split; [|split; [|split]]].
  - unfold blconf_channel_get_structv. intros [-> | [-> | Hnone]]; [done| |].
    + by rewrite orb_true_r.
    + rewrite Hnone. by destruct (_ || _).
  - intros arr Harr Hlen. unfold blconf_channel_get_structv. rewrite Harr.
    destruct (_ || _); [done|]. apply Nat.eqb_neq in Hlen. by rewrite Hlen.
  - intros t val. unfold member_accepts. destruct (member_codec t) as [mc|].
    + rewrite bool_decide_eq_false. split.
      * intros Hne. right. by exists mc.
      * intros [?|(mc' & [= <-] & Hne)]; done.
    + split; [by left|done].
  - intros arr i t val Harr Hlen HD Hv Hrej Hacc Hplat HT Hbound Hfits Hroom.
    destruct (get_arrayv_some _ _ _ Harr) as [[name ->] _].
    assert (i < length D)%nat as Hi by (by eapply lookup_lt_Some).
    destruct (get_structv_loop_stores (take i D) (take i arr) 0 heap heap T T)
      as (w' & Hloop & HlenR & _ & Hpre & _ & Hholds); try done.
    { lia. }
    { rewrite length_take. replace (i `min` length D)%nat with i by lia. done. }
    exists (sw_heap w'), (sw_struct w').
    unfold blconf_channel_get_structv. rewrite Harr. simpl.
    replace (length D =? 0)%nat with false by (symmetry; apply Nat.eqb_neq; lia).
    rewrite Hlen, Nat.eqb_refl. simpl.
    by rewrite (get_structv_loop_stops i D arr t val _ w' HD Hv Hrej Hloop).
  - intros arr heap' R Harr Hlen. unfold blconf_channel_get_structv. rewrite Harr.
    destruct (get_arrayv_some _ _ _ Harr) as [[name ->] Hne]. simpl.
    destruct (length D =? 0)%nat eqn:HD0.
    { apply Nat.eqb_eq in HD0. destruct arr; [done|]. simpl in Hlen. lia. }
    rewrite Hlen, Nat.eqb_refl. simpl.
    destruct (get_structv_loop D arr _) as [ret w] eqn:Hloop.
    intros [= -> <- <-].
    destruct (get_structv_loop_failed D arr _ w Hlen Hloop)
      as (i & t & val & ? & ? & ? & ? & _).
    by exists i, t, val.
Qed.

(** C1 (amended). For a struct [S] conforming to a descriptor and a
    destination [T] of the same size: setting [S] and getting the property
    back into [T] succeeds; every member of the result reads as the value it
    has in [S]; the slot of every plain number has the bytes it has in [S];
    a string member points to a copy made by the retrieval, with the text of
    the string in [S], at an address the heap did not have before, so its
    pointer is not the one in [S] (a NULL string stays NULL); a [gboolean]
    is stored as 0 when it is 0 in [S] and as 1 otherwise; padding and the
    bytes after the last member are those of [T]. Each member sits at the
    running offset rounded up to the next multiple of its alignment, and the
    offset then advances by its size. *)
Theorem struct_roundtrip_members (channel channel' : BlconfChannel)
    (property : gchar_p) (heap : list string) (S T : list Z) (D : list GType) :
  platform_ok -> cache_read_your_writes ->
  struct_conforms S D -> bytes_ok T -> length T = length S ->
  Z.of_nat (length heap + length D) < 256 ^ sizeof_gpointer ->
  blconf_channel_set_structv channel property heap S D = (true, channel') ->
  (exists heap' R vals,
     blconf_channel_get_structv channel' property heap T D = (true, heap', R)
     /\ length R = length S /\ bytes_ok R
     /\ heap `prefix_of` heap'
     /\ set_structv_loop heap S D 0 [] = Some vals
     /\ set_structv_loop heap' R D 0 [] = Some vals
     /\ struct_bytes_agree S T R 0 D
     /\ struct_converted_agree heap heap' S R 0 D)
  /\ (forall t mc off, member_codec t = Some mc ->
        0 <= off <= Z.of_nat (length S) ->
        ALIGN_VAL off (mc_align mc) = mc_align mc * ((off + (mc_align mc - 1)) / mc_align mc)
        /\ off <= ALIGN_VAL off (mc_align mc) < off + mc_align mc).
Proof.
  intros Hplat Hryw (HS & Hbound & Hfits) HT Hlen Hroom Hset.
  split.
  - destruct (struct_walk_roundtrip D 0 heap heap S T T Hplat HS HT Hlen Hbound
                ltac:(lia) Hfits Hroom ltac:(done))
      as (vals & w' & Hpack & Hunpack & HlenR & HokR & Hpre & _ & _ & Hre & Hagree).
    pose proof (set_structv_loop_length _ _ _ _ _ Hpack) as Hvals.
    assert (struct_converted_agree heap (sw_heap w') S (sw_struct w') 0 D) as Hconv.
    { pose proof (get_structv_loop_accepted D (fixup_16bit_elem <$> vals) _ w'
                    ltac:(by rewrite length_fmap) Hunpack) as Hacc.
      destruct (get_structv_loop_stores D (fixup_16bit_elem <$> vals) 0 heap heap T T)
        as (w'' & Hloop & _ & _ & _ & _ & Hholds);
        try done; try (by rewrite Hlen); try lia.
      rewrite Hunpack in Hloop. injection Hloop as <-.
      by apply (struct_holds_converted D 0 vals heap (sw_heap w') S T). }
    unfold blconf_channel_set_structv in Hset.
    destruct (negb (bool_decide (is_Some property)) || (length D =? 0)%nat) eqn:Hguard;
      [done|].
    rewrite Hpack in Hset. unfold blconf_channel_set_arrayv in Hset.
    destruct property as [name|]; [|done].
    assert (match blconf_fixup_16bit_ints vals with
            | Some v => v
            | None => vals
            end = fixup_16bit_elem <$> vals) as Hwire.
    { rewrite <- fixup_16bit_ints_default. by destruct (blconf_fixup_16bit_ints vals). }
    rewrite Hwire in Hset.
    apply orb_false_iff in Hguard as [_ HD]. apply Nat.eqb_neq in HD.
    exists (sw_heap w'), (sw_struct w'), vals.
    unfold blconf_channel_get_structv.
    rewrite (set_internal_get_arrayv _ _ _ _ Hryw Hset)
      by (intros Hnil; apply fmap_nil_inv in Hnil; subst vals; simpl in Hvals; lia).
    rewrite (proj2 (Nat.eqb_neq _ _) HD).
    rewrite length_fmap, Hvals, Nat.eqb_refl. simpl. rewrite Hunpack.
    repeat split; try done.
    + congruence.
    + by apply Hre.
  - intros t mc off Hmc Hoff.
    destruct (member_codec_align_ok t mc Hplat Hmc) as (k & Hk & Ha).
    assert (2 ^ gsize_bits = 2 * 2 ^ (gsize_bits - 1)) as Hpow.
    { rewrite <- Z.pow_succ_r by lia. f_equal. lia. }
    assert (2 ^ k <= 2 ^ (gsize_bits - 1)) as Hak by (apply Z.pow_le_mono_r; lia).
    apply (ALIGN_VAL_round_up off (mc_align mc) k); lia.
Qed.

End struct_channel_properties.

(** C3, as stated, fails: the second element has another kind than the
    second member, the retrieval returns FALSE, and the first member has
    been written into the destination. *)
Lemma get_structv_failure_mutates :
  @blconf_channel_get_structv lp64 test_collaborators test_channel_pair
    (Some "/pair"%string) [] [0; 0; 0; 0; 0; 0; 0; 0] [G_TYPE_UINT; G_TYPE_INT]
  = (false, [], [7; 0; 0; 0; 0; 0; 0; 0])
  /\ [7; 0; 0; 0; 0; 0; 0; 0] <> [0; 0; 0; 0; 0; 0; 0; 0].
Proof. split; [vm_compute; reflexivity|discriminate]. Qed.

Lemma get_structv_failure_keeps_prefix_witness :
  exists (heap' : list string) (R : list Z),
    @blconf_channel_get_structv lp64 test_collaborators test_channel_pair
      (Some "/pair"%string) [] [0; 0; 0; 0; 0; 0; 0; 0] [G_TYPE_UINT; G_TYPE_INT]
    = (false, heap', R)
    /\ length R = 8%nat
    /\ [] `prefix_of` heap'
    /\ @struct_holds lp64 [] heap' [0; 0; 0; 0; 0; 0; 0; 0] R 0
         [G_TYPE_UINT] [GV_uint 7].
Proof.
  destruct (@get_structv_failure_keeps_prefix lp64 test_collaborators test_channel_pair
              (Some "/pair"%string) [] [0; 0; 0; 0; 0; 0; 0; 0] [G_TYPE_UINT; G_TYPE_INT])
    as (_ & _ & _ & Hwalk & _).
  apply (Hwalk [GV_uint 7; GV_uint 9] 1%nat G_TYPE_INT (GV_uint 9)).
  - reflexivity.
  - reflexivity.
  - reflexivity.
  - reflexivity.
  - reflexivity.
  - repeat constructor.
  - exact lp64_platform_ok.
  - repeat constructor; lia.
  - vm_compute. discriminate.
  - vm_compute. split; [discriminate|exact I].
  - vm_compute. reflexivity.
Defined.

(** C1, as stated, fails: set and read back into a byte copy of itself, the
    struct comes back with another pointer in its string member. *)
Lemma struct_roundtrip_not_bytewise :
  let set :=
    @blconf_channel_set_structv lp64 test_collaborators (test_channel "apps" None)
      (Some "/s"%string) test_heap test_struct test_member_types in
  fst set = true
  /\ @blconf_channel_get_structv lp64 test_collaborators (snd set)
       (Some "/s"%string) test_heap test_struct test_member_types
     = (true, ["hi"%string; "hi"%string],
        [42; 0; 0; 0; 0; 0; 0; 0;
         1; 2; 3; 4; 5; 6; 7; 8;
         52; 18; 0; 0; 0; 0; 0; 0;
         2; 0; 0; 0; 0; 0; 0; 0])
  /\ [42; 0; 0; 0; 0; 0; 0; 0;
      1; 2; 3; 4; 5; 6; 7; 8;
      52; 18; 0; 0; 0; 0; 0; 0;
      2; 0; 0; 0; 0; 0; 0; 0] <> test_struct.
Proof.
  intros set. split; [vm_compute; reflexivity|].
  split; [vm_compute; reflexivity|discriminate].
Qed.

Lemma struct_roundtrip_members_witness :
  exists (heap' : list string) (R : list Z),
    @blconf_channel_get_structv lp64 test_collaborators
      (snd (@blconf_channel_set_structv lp64 test_collaborators (test_channel "apps" None)
              (Some "/s"%string) test_heap test_struct test_member_types))
      (Some "/s"%string) test_heap (repeat 255 32) test_member_types
    = (true, heap', R)
    /\ @set_structv_loop lp64 heap' R test_member_types 0 []
       = @set_structv_loop lp64 test_heap test_struct test_member_types 0 []
    /\ @struct_bytes_agree lp64 test_struct (repeat 255 32) R 0 test_member_types
    /\ @struct_converted_agree lp64 test_heap heap' test_struct R 0 test_member_types.
Proof.
  destruct (@struct_roundtrip_members lp64 test_collaborators (test_channel "apps" None)
              (snd (@blconf_channel_set_structv lp64 test_collaborators
                      (test_channel "apps" None) (Some "/s"%string) test_heap test_struct
                      test_member_types))
              (Some "/s"%string) test_heap test_struct (repeat 255 32) test_member_types)
    as [(heap' & R & vals & Hget & _ & _ & _ & Hpack & Hsame & Hbytes & Hconv) _].
  - exact lp64_platform_ok.
  - exact test_cache_read_your_writes.
  - split; [|split].
    + unfold test_struct. repeat constructor; lia.
    + vm_compute. discriminate.
    + vm_compute. repeat split; discriminate.
  - simpl. repeat constructor; lia.
  - reflexivity.
  - vm_compute. reflexivity.
  - vm_compute. reflexivity.
  - exists heap', R. split; [exact Hget|]. split; [by rewrite Hpack, Hsame|].
    split; [exact Hbytes|exact Hconv].
Defined.

(** ** The typed accessors *)

Lemma cast_u_cast_s (w v : Z) : 0 < w -> in_u w v -> cast_u w (cast_s w v) = v.
Proof.
  intros Hw [Hlo Hhi]. unfold cast_u, cast_s.
  rewrite Zminus_mod_idemp_l.
  replace (v + 2 ^ (w - 1) - 2 ^ (w - 1)) with v by lia.
  by apply Z.mod_small.
Qed.

Section accessor_properties.
Context `{Collaborators}.

(** X1. A number or boolean written with a typed setter is what the typed
    getter of the same type returns next, whatever default is passed;
    unsigned values above the signed range survive the signed local
    variable of [get_uint] and [get_uint64]. *)
Theorem typed_scalar_roundtrip (channel channel' : BlconfChannel)
    (property : gchar_p) :
  cache_read_your_writes ->
  (forall v d, blconf_channel_set_int channel property v = (true, channel') ->
     blconf_channel_get_int channel' property d = v)
  /\ (forall v d, in_u 32 v ->
        blconf_channel_set_uint channel property v = (true, channel') ->
        blconf_channel_get_uint channel' property d = v)
  /\ (forall v d, in_u 64 v ->
        blconf_channel_set_uint64 channel property v = (true, channel') ->
        blconf_channel_get_uint64 channel' property d = v)
  /\ (forall v d, blconf_channel_set_double channel property v = (true, channel') ->
        blconf_channel_get_double channel' property d = v)
  /\ (forall v d, blconf_channel_set_bool channel property v = (true, channel') ->
        blconf_channel_get_bool channel' property d = v).
Proof.
  intros Hryw.
  assert (forall w, match property with
                    | Some _ => blconf_channel_set_internal channel property w
                    | None => (false, channel)
                    end = (true, channel') ->
            blconf_channel_get_internal channel' property GV_unset = (true, w)
            /\ is_Some property) as Hrt.
  { intros w Hset. destruct property; [|done].
    by apply (set_internal_get_internal channel channel'). }
  repeat split.
  - intros v d Hset. destruct (Hrt _ Hset) as [Hget [name ->]].
    unfold blconf_channel_get_int. by rewrite Hget.
  - intros v d Hv Hset. destruct (Hrt _ Hset) as [Hget [name ->]].
    unfold blconf_channel_get_uint. rewrite Hget. simpl.
    by apply cast_u_cast_s.
  - intros v d Hv Hset. destruct (Hrt _ Hset) as [Hget [name ->]].
    unfold blconf_channel_get_uint64. rewrite Hget. simpl.
    by apply cast_u_cast_s.
  - intros v d Hset. destruct (Hrt _ Hset) as [Hget [name ->]].
    unfold blconf_channel_get_double. by rewrite Hget.
  - intros v d Hset. destruct (Hrt _ Hset) as [Hget [name ->]].
    unfold blconf_channel_get_bool. by rewrite Hget.
Qed.

(** X2. A string written with [set_string] is what [get_string] returns
    next, whatever the default; after a NULL string was written,
    [get_string] returns the default. *)
Theorem string_roundtrip (channel channel' : BlconfChannel) (property : gchar_p)
    (value default_value : gchar_p) :
  cache_read_your_writes ->
  blconf_channel_set_string channel property value = (true, channel') ->
  blconf_channel_get_string channel' property default_value =
  match value with
  | Some s => Some s
  | None => default_value
  end.
Proof.
  intros Hryw Hset. unfold blconf_channel_set_string in Hset.
  destruct property as [name|]; [|done].
  destruct (negb _) in Hset; [done|].
  destruct (set_internal_get_internal _ _ _ _ Hryw Hset) as [Hget _].
  unfold blconf_channel_get_string. rewrite Hget. simpl. by destruct value.
Qed.

(** X3. A typed getter does not convert: when the property is missing, or
    is stored with another type than the getter's, the default comes back
    (for [get_string], also when the stored string is NULL). *)
Theorem typed_getters_never_convert (channel : BlconfChannel) (name : string)
    (c : BlconfCache) :
  cache channel = Some c ->
  let stored := blconf_cache_lookup c (REAL_PROP channel (Some name)) in
  (forall d, (forall v, stored <> Some (GV_int v)) ->
     blconf_channel_get_int channel (Some name) d = d)
  /\ (forall d, in_u 32 d -> (forall v, stored <> Some (GV_uint v)) ->
        blconf_channel_get_uint channel (Some name) d = d)
  /\ (forall d, in_u 64 d -> (forall v, stored <> Some (GV_uint64 v)) ->
        blconf_channel_get_uint64 channel (Some name) d = d)
  /\ (forall d, (forall v, stored <> Some (GV_double v)) ->
        blconf_channel_get_double channel (Some name) d = d)
  /\ (forall d, (forall v, stored <> Some (GV_boolean v)) ->
        blconf_channel_get_bool channel (Some name) d = d)
  /\ (forall d, (forall s, stored <> Some (GV_string (Some s))) ->
        blconf_channel_get_string channel (Some name) d = d).
Proof.
  intros Hc stored. repeat split.
  - intros d Hno. unfold blconf_channel_get_int, blconf_channel_get_internal.
    rewrite Hc. fold stored. destruct stored as [val|]; [|done]. simpl.
    destruct val; try done. by destruct (Hno v).
  - intros d Hd Hno. unfold blconf_channel_get_uint, blconf_channel_get_internal.
    rewrite Hc. fold stored. destruct stored as [val|]; simpl.
    + destruct val; simpl; try (by apply cast_u_cast_s). by destruct (Hno v).
    + by apply cast_u_cast_s.
  - intros d Hd Hno. unfold blconf_channel_get_uint64, blconf_channel_get_internal.
    rewrite Hc. fold stored. destruct stored as [val|]; simpl.
    + destruct val; simpl; try (by apply cast_u_cast_s). by destruct (Hno v).
    + by apply cast_u_cast_s.
  - intros d Hno. unfold blconf_channel_get_double, blconf_channel_get_internal.
    rewrite Hc. fold stored. destruct stored as [val|]; [|done]. simpl.
    destruct val; try done. by destruct (Hno bits).
  - intros d Hno. unfold blconf_channel_get_bool, blconf_channel_get_internal.
    rewrite Hc. fold stored. destruct stored as [val|]; [|done]. simpl.
    destruct val; try done. by destruct (Hno b).
  - intros d Hno. unfold blconf_channel_get_string, blconf_channel_get_internal.
    rewrite Hc. fold stored. destruct stored as [val|]; [|done]. simpl.
    destruct val; try done. simpl. destruct s as [s|]; [|done]. by destruct (Hno s).
Qed.

End accessor_properties.

(** ** Arrays and string lists *)

Section array_properties.
Context `{Collaborators}.

Lemma get_string_list_loop_spec (arr : list GValue) (values vs : list gchar_p) :
  get_string_list_loop arr values = Some vs <->
  exists vs', vs = values ++ vs' /\ arr = GV_string <$> vs'.
Proof.
  revert values. induction arr as [|val arr IH]; intros values; simpl.
  - split.
    + intros [= <-]. exists []. by rewrite app_nil_r.
    + intros (vs' & -> & Hnil). symmetry in Hnil. apply fmap_nil_inv in Hnil as ->.
      by rewrite app_nil_r.
  - destruct (decide (G_VALUE_TYPE val <> G_TYPE_STRING)) as [Hn|Hs].
    + split; [done|]. intros (vs' & _ & Harr).
      destruct vs' as [|v vs']; [done|]. injection Harr as -> _. by destruct Hn.
    + rewrite IH. split.
      * intros (vs' & -> & ->). exists (g_value_get_string val :: vs').
        rewrite <- app_assoc. split; [done|].
        rewrite fmap_cons. f_equal. apply dec_stable in Hs. by destruct val.
      * intros (vs' & -> & Harr). destruct vs' as [|v vs']; [done|].
        injection Harr as -> ->. exists vs'. by rewrite <- app_assoc.
Qed.

(** X4. [get_string_list] returns a vector exactly when the property holds
    a non-empty value array all of whose elements are strings, and then
    returns their strings in order; one element of another type and
    nothing is returned. *)
Theorem get_string_list_all_strings (channel : BlconfChannel) (property : gchar_p)
    (vs : list gchar_p) :
  blconf_channel_get_string_list channel property = Some vs <->
  blconf_channel_get_arrayv channel property = Some (GV_string <$> vs).
Proof.
  unfold blconf_channel_get_string_list.
  destruct property as [name|]; [|done].
  destruct (blconf_channel_get_arrayv channel (Some name)) as [arr|]; [|done].
  rewrite get_string_list_loop_spec. split.
  - by intros (vs' & -> & ->).
  - intros [= ->]. by exists vs.
Qed.

Lemma fixup_16bit_ints_strings (values : list string) :
  fixup_16bit_elem <$> ((fun s => GV_string (Some s)) <$> values)
  = (fun s => GV_string (Some s)) <$> values.
Proof. induction values as [|s values IH]; [done|]. rewrite !fmap_cons. by f_equal. Qed.

Lemma get_string_list_of_arrayv (channel : BlconfChannel) (property : gchar_p)
    (vs : list gchar_p) :
  blconf_channel_get_arrayv channel property = Some (GV_string <$> vs) ->
  blconf_channel_get_string_list channel property = Some vs.
Proof.
  intros Harr. unfold blconf_channel_get_string_list.
  destruct property as [name|]; [|done].
  rewrite Harr. apply get_string_list_loop_spec. by exists vs.
Qed.

(** X5. A string list that was set is the one read back; the empty list is
    refused without the cache being called. *)
Theorem string_list_roundtrip (channel : BlconfChannel) (property : gchar_p)
    (values : list string) :
  cache_read_your_writes ->
  blconf_channel_set_string_list channel property [] = (false, channel)
  /\ (forall channel',
        blconf_channel_set_string_list channel property values = (true, channel') ->
        blconf_channel_get_string_list channel' property = Some (Some <$> values)).
Proof.
  intros Hryw. split; [by destruct property|].
  intros channel' Hset. apply get_string_list_of_arrayv.
  unfold blconf_channel_set_string_list in Hset.
  destruct property as [name|]; [|done].
  destruct values as [|s values]; [done|].
  unfold blconf_channel_set_arrayv in Hset.
  assert (match blconf_fixup_16bit_ints ((fun s => GV_string (Some s)) <$> s :: values) with
          | Some v => v
          | None => (fun s => GV_string (Some s)) <$> s :: values
          end = GV_string <$> (Some <$> s :: values)) as Hwire.
  { transitivity (fixup_16bit_elem <$> ((fun s => GV_string (Some s)) <$> s :: values)).
    - rewrite <- (fixup_16bit_ints_default ((fun s => GV_string (Some s)) <$> s :: values)).
      by destruct (blconf_fixup_16bit_ints _).
    - rewrite fixup_16bit_ints_strings. by rewrite <- list_fmap_compose. }
  rewrite Hwire in Hset.
  by apply (set_internal_get_arrayv channel channel').
Qed.

(** X6. [blconf_fixup_16bit_ints] returns NULL exactly when the array has
    no 16-bit integer. When it returns an array, that array has the length
    of the original, the elements that were not 16-bit integers unchanged
    at their places, no 16-bit integer left, and needs no further fix-up. *)
Theorem fixup_16bit_ints_spec (arr : list GValue) :
  (blconf_fixup_16bit_ints arr = None <-> Forall (fun v => is_16bit v = false) arr)
  /\ (forall arr_new, blconf_fixup_16bit_ints arr = Some arr_new ->
        length arr_new = length arr
        /\ (forall i v, arr !! i = Some v -> is_16bit v = false -> arr_new !! i = Some v)
        /\ Forall (fun v => is_16bit v = false) arr_new
        /\ blconf_fixup_16bit_ints arr_new = None).
Proof.
  assert (forall l, existsb is_16bit l = false <-> Forall (fun v => is_16bit v = false) l)
    as Hex.
  { intros l. induction l as [|v l IH]; simpl.
    - split; [constructor|done].
    - rewrite orb_false_iff, Forall_cons. by rewrite IH. }
  unfold blconf_fixup_16bit_ints. split.
  - rewrite <- Hex. by destruct (existsb is_16bit arr).
  - intros arr_new Hsome.
    destruct (existsb is_16bit arr); [|done]. injection Hsome as <-.
    assert (Forall (fun v => is_16bit v = false) (fixup_16bit_elem <$> arr)) as Hclean.
    { apply Forall_fmap, Forall_true. intros v. apply fixup_16bit_elem_not_16bit. }
    repeat split.
    + by rewrite length_fmap.
    + intros i v Hi Hv. rewrite list_lookup_fmap, Hi. simpl.
      by rewrite fixup_16bit_elem_id.
    + done.
    + apply Hex in Hclean. by rewrite Hclean.
Qed.

Lemma set_array_valist_value_fixup (arg : GValue) :
  array_valist_known (G_VALUE_TYPE arg) = true ->
  set_array_valist_value arg = Some (fixup_16bit_elem arg).
Proof. destruct arg; try done. Qed.

Lemma set_array_valist_loop_known (args arr : list GValue) :
  Forall (fun v => array_valist_known (G_VALUE_TYPE v) = true) args ->
  set_array_valist_loop args arr = Some (arr ++ (fixup_16bit_elem <$> args)).
Proof.
  revert arr. induction args as [|arg args IH]; intros arr Hk; simpl.
  - by rewrite app_nil_r.
  - apply Forall_cons in Hk as [Hk Hks].
    rewrite decide_False by (intros E; rewrite E in Hk; done).
    rewrite set_array_valist_value_fixup by done.
    rewrite IH by done. by rewrite <- app_assoc.
Qed.

Lemma fixup_16bit_elem_idemp (v : GValue) :
  fixup_16bit_elem (fixup_16bit_elem v) = fixup_16bit_elem v.
Proof. apply fixup_16bit_elem_id, fixup_16bit_elem_not_16bit. Qed.

(** X7. Values of the known types written with [set_array_valist] are the
    values [get_array_valist] stores through its pointers when the same
    types are asked for, 16-bit integers included. *)
Theorem array_valist_roundtrip (channel channel' : BlconfChannel)
    (property : gchar_p) (args : list GValue) :
  cache_read_your_writes ->
  Z.of_nat (length args) < 2 ^ 32 ->
  Forall gvalue_wf args ->
  Forall (fun v => array_valist_known (G_VALUE_TYPE v) = true) args ->
  blconf_channel_set_array_valist channel property args = (true, channel') ->
  blconf_channel_get_array_valist channel' property (G_VALUE_TYPE <$> args)
  = (true, args).
Proof.
  intros Hryw Hlen Hwf Hk Hset.
  unfold blconf_channel_set_array_valist in Hset.
  destruct (negb _ || _) eqn:Hguard in Hset; [done|].
  apply orb_false_iff in Hguard as [Hprop Hfirst].
  rewrite set_array_valist_loop_known in Hset by done. simpl in Hset.
  unfold blconf_channel_set_arrayv in Hset.
  destruct property as [name|]; [|done].
  assert (match blconf_fixup_16bit_ints (fixup_16bit_elem <$> args) with
          | Some v => v
          | None => fixup_16bit_elem <$> args
          end = fixup_16bit_elem <$> args) as Hwire.
  { transitivity (fixup_16bit_elem <$> (fixup_16bit_elem <$> args)).
    - rewrite <- (fixup_16bit_ints_default (fixup_16bit_elem <$> args)).
      by destruct (blconf_fixup_16bit_ints _).
    - rewrite <- list_fmap_compose. apply list_fmap_ext.
      intros i v _. apply fixup_16bit_elem_idemp. }
  rewrite Hwire in Hset.
  unfold blconf_channel_get_array_valist.
  rewrite (set_internal_get_arrayv _ _ _ _ Hryw Hset).
  - apply (get_array_valist_loop_fixup args [] []); done.
  - by destruct args.
Qed.

(** X8. One argument of a type [set_array_valist] does not know, before
    the terminator, and nothing is written: FALSE with the channel, and so
    its cache, as they were. *)
Theorem set_array_valist_unknown_type (channel : BlconfChannel) (property : gchar_p)
    (known : list GValue) (bad : GValue) (rest : list GValue) :
  Forall (fun v => array_valist_known (G_VALUE_TYPE v) = true) known ->
  G_VALUE_TYPE bad <> G_TYPE_INVALID ->
  array_valist_known (G_VALUE_TYPE bad) = false ->
  blconf_channel_set_array_valist channel property (known ++ bad :: rest)
  = (false, channel).
Proof.
  intros Hk Hbad Hunk. unfold blconf_channel_set_array_valist.
  destruct (negb _ || _); [done|].
  assert (forall arr, set_array_valist_loop (known ++ bad :: rest) arr = None) as ->; [|done].
  induction known as [|arg known IH]; intros arr; simpl.
  - rewrite decide_False by done. destruct bad; done.
  - apply Forall_cons in Hk as [Hk Hks].
    rewrite decide_False by (intros E; rewrite E in Hk; done).
    rewrite set_array_valist_value_fixup by done. by apply IH.
Qed.

Lemma get_array_valist_loop_out (arr : list GValue) (types : list GType) (i : nat)
    (out out' : list GValue) :
  (i <= length arr)%nat ->
  get_array_valist_loop arr types i out = (true, out') ->
  exists stored,
    out' = out ++ stored
    /\ (i + length stored = length arr)%nat
    /\ Forall2 (fun ty s => G_VALUE_TYPE s = ty) (take (length stored) types) stored
    /\ (types !! length stored = None \/ types !! length stored = Some G_TYPE_INVALID).
Proof.
  revert i out. induction types as [|ty types IH]; intros i out Hle Hloop.
  - simpl in Hloop. destruct (i <? length arr)%nat eqn:Hi; [done|].
    injection Hloop as <-. apply Nat.ltb_ge in Hi. exists [].
    rewrite app_nil_r.
    split; [done|]. split; [simpl; lia|]. split; [constructor|]. by left.
  - assert (ty = G_TYPE_INVALID ->
            exists stored, out' = out ++ stored
              /\ (i + length stored = length arr)%nat
              /\ Forall2 (fun ty s => G_VALUE_TYPE s = ty)
                   (take (length stored) (ty :: types)) stored
              /\ ((ty :: types) !! length stored = None
                  \/ (ty :: types) !! length stored = Some G_TYPE_INVALID)) as Hend.
    { intros ->. simpl in Hloop. destruct (i <? length arr)%nat eqn:Hi; [done|].
      injection Hloop as <-. apply Nat.ltb_ge in Hi. exists [].
      rewrite app_nil_r.
      split; [done|]. split; [simpl; lia|]. split; [constructor|]. by right. }
    destruct (decide (ty = G_TYPE_INVALID)) as [Hinv|Hinv]; [by apply Hend|].
    assert (get_array_valist_loop arr (ty :: types) i out =
            if Z.of_nat i >? cast_u 32 (Z.of_nat (length arr) - 1) then (false, out)
            else match arr !! i with
                 | None => (false, out)
                 | Some val =>
                     if negb (array_valist_type_ok val ty) then (false, out)
                     else match get_array_valist_store ty val with
                          | Some stored =>
                              get_array_valist_loop arr types (S i) (out ++ [stored])
                          | None => (false, out)
                          end
                 end) as Hunf by (by destruct ty).
    rewrite Hunf in Hloop. clear Hunf Hend.
    destruct (Z.of_nat i >? _) in Hloop; [done|].
    destruct (arr !! i) as [val|] eqn:Hval; [|done].
    destruct (negb _) in Hloop; [done|].
    destruct (get_array_valist_store ty val) as [stored|] eqn:Hst; [|done].
    apply lookup_lt_Some in Hval.
    destruct (IH (S i) (out ++ [stored])) as (rest & -> & Hlen & Hty & Hterm);
      [lia|done|].
    exists (stored :: rest). rewrite <- app_assoc. simpl.
    split; [done|]. split; [lia|]. split; [|done].
    constructor; [|done].
    destruct ty; simpl in Hst; try done; injection Hst as <-; try done; by destruct val.
Qed.

(** X9. [get_array_valist] returns TRUE only when exactly as many types are
    asked for as the stored array has elements, and then it has stored one
    value of each requested type, in order. *)
Theorem get_array_valist_success (channel : BlconfChannel) (property : gchar_p)
    (types : list GType) (out : list GValue) :
  blconf_channel_get_array_valist channel property types = (true, out) ->
  exists arr,
    blconf_channel_get_arrayv channel property = Some arr
    /\ length out = length arr
    /\ Forall2 (fun ty s => G_VALUE_TYPE s = ty) (take (length arr) types) out
    /\ (types !! length arr = None \/ types !! length arr = Some G_TYPE_INVALID).
Proof.
  unfold blconf_channel_get_array_valist.
  destruct (blconf_channel_get_arrayv channel property) as [arr|]; [|done].
  intros Hloop. apply get_array_valist_loop_out in Hloop; [|lia].
  destruct Hloop as (stored & -> & Hlen & Hty & Hterm). simpl in *.
  exists arr. rewrite <- Hlen. by repeat split.
Qed.

End array_properties.

(** ** Generic properties: write, read, scope *)

Section property_properties.
Context `{Collaborators}.

Lemma set_internal_lookup (channel channel' : BlconfChannel)
    (property : gchar_p) (w : GValue) :
  cache_read_your_writes ->
  blconf_channel_set_internal channel property w = (true, channel') ->
  exists c', cache channel' = Some c'
             /\ blconf_cache_lookup c' (REAL_PROP channel' property) = Some w.
Proof.
  intros Hryw Hset. unfold blconf_channel_set_internal in Hset.
  destruct property as [name|]; [|done].
  destruct (cache channel) as [c|] eqn:Hc; [|done].
  destruct (blconf_cache_set c _ _) as [ret c'] eqn:Hcs.
  injection Hset as -> <-. exists c'. split; [done|].
  replace (REAL_PROP (with_cache channel c') (Some name))
    with (REAL_PROP channel (Some name)) by done.
  by apply (Hryw _ _ _ _ Hcs).
Qed.

Lemma set_property_wire_value_plain (value : GValue) :
  is_16bit value = false -> (forall arr, value <> GV_array arr) ->
  set_property_wire_value value = value.
Proof.
  intros H16 Harr. unfold set_property_wire_value.
  unfold is_16bit in H16. apply orb_false_iff in H16 as [Hu Hi].
  apply bool_decide_eq_false in Hu, Hi.
  rewrite !decide_False by done.
  destruct value; try done. by edestruct Harr.
Qed.

Lemma set_property_get_unset (channel channel' : BlconfChannel)
    (property : gchar_p) (value : GValue) :
  cache_read_your_writes ->
  blconf_channel_set_property channel property value = (true, channel') ->
  blconf_channel_get_property channel' property GV_unset
  = (true, set_property_wire_value value).
Proof.
  intros Hryw Hset. unfold blconf_channel_set_property in Hset.
  destruct (set_property_guard property value); [|done]. simpl in Hset.
  destruct (set_internal_get_internal channel channel' _ _ Hryw Hset)
    as [Hget [name ->]].
  unfold blconf_channel_get_property. by rewrite Hget.
Qed.

(** X10. A property written with [set_property] exists afterwards, and
    [get_property] into an unset value, or a value of the type that went
    over the wire, returns the wire form of what was written: the value
    itself unless it is a 16-bit integer or an array. *)
Theorem set_property_get_property (channel channel' : BlconfChannel)
    (property : gchar_p) (value : GValue) :
  cache_read_your_writes ->
  blconf_channel_set_property channel property value = (true, channel') ->
  blconf_channel_has_property channel' property = true
  /\ (forall requested,
        G_VALUE_TYPE requested = G_TYPE_INVALID
        \/ G_VALUE_TYPE requested = G_VALUE_TYPE (set_property_wire_value value) ->
        blconf_channel_get_property channel' property requested
        = (true, set_property_wire_value value))
  /\ (is_16bit value = false -> (forall arr, value <> GV_array arr) ->
      blconf_channel_get_property channel' property GV_unset = (true, value)).
Proof.
  intros Hryw Hset. unfold blconf_channel_set_property in Hset.
  destruct (set_property_guard property value); [|done]. simpl in Hset.
  destruct (set_internal_get_internal channel channel' _ _ Hryw Hset)
    as [Hget [name ->]].
  destruct (set_internal_lookup channel channel' _ _ Hryw Hset) as (c' & Hc' & Hl).
  assert (forall requested,
            G_VALUE_TYPE requested = G_TYPE_INVALID
            \/ G_VALUE_TYPE requested = G_VALUE_TYPE (set_property_wire_value value) ->
            blconf_channel_get_property channel' (Some name) requested
            = (true, set_property_wire_value value)) as Hreq.
  { intros requested Hty. unfold blconf_channel_get_property. rewrite Hget.
    destruct Hty as [Hty|Hty].
    - by rewrite (bool_decide_eq_false_2 (G_VALUE_TYPE requested <> G_TYPE_INVALID))
        by (intros Hn; by apply Hn).
    - rewrite (bool_decide_eq_false_2
                 (G_VALUE_TYPE requested <> G_VALUE_TYPE (set_property_wire_value value)))
        by (intros Hn; by apply Hn).
      by rewrite andb_false_r. }
  split; [|split].
  - unfold blconf_channel_has_property. rewrite Hc', Hl.
    by apply bool_decide_eq_true_2.
  - done.
  - intros H16 Harr.
    pose proof (Hreq GV_unset (or_introl eq_refl)) as Hu.
    by rewrite (set_property_wire_value_plain value) in Hu.
Qed.

(** X11. A string that fails UTF-8 validation, and a value that was never
    initialised, are refused by [set_string] and [set_property] before the
    cache is reached: they return FALSE and the channel is as it was. *)
Theorem invalid_values_are_refused (channel : BlconfChannel) (property : gchar_p)
    (s : string) :
  g_utf8_validate s = false ->
  blconf_channel_set_string channel property (Some s) = (false, channel)
  /\ blconf_channel_set_property channel property (GV_string (Some s)) = (false, channel)
  /\ blconf_channel_set_property channel property GV_unset = (false, channel).
Proof.
  intros Hs. unfold blconf_channel_set_string, blconf_channel_set_property,
    set_property_guard. simpl. rewrite Hs.
  split; [|split].
  - by destruct property.
  - by rewrite !andb_false_r.
  - by rewrite andb_false_r.
Qed.

(** X12. A channel restricted to a property base behaves on a property as
    the unrestricted channel over the same cache behaves on the base
    followed by the property: existence, reads, writes and recursive resets
    agree. *)
Theorem property_base_is_a_prefix (scoped flat : BlconfChannel) (base name : string) :
  property_base scoped = Some base ->
  property_base flat = None ->
  cache scoped = cache flat ->
  let full := Some (base ++ name)%string in
  blconf_channel_has_property scoped (Some name) = blconf_channel_has_property flat full
  /\ (forall value, blconf_channel_get_property scoped (Some name) value
                    = blconf_channel_get_property flat full value)
  /\ (forall value,
        fst (blconf_channel_set_property scoped (Some name) value)
        = fst (blconf_channel_set_property flat full value)
        /\ cache (snd (blconf_channel_set_property scoped (Some name) value))
           = cache (snd (blconf_channel_set_property flat full value)))
  /\ cache (blconf_channel_reset_property scoped (Some name) true)
     = cache (blconf_channel_reset_property flat full true).
Proof.
  intros Hb Hf Hc full.
  assert (REAL_PROP scoped (Some name) = REAL_PROP flat full) as Hreal.
  { unfold REAL_PROP. by rewrite Hb, Hf. }
  split; [|split; [|split]].
  - unfold blconf_channel_has_property. by rewrite Hreal, Hc.
  - intros value. unfold blconf_channel_get_property, blconf_channel_get_internal.
    by rewrite Hreal, Hc.
  - intros value. unfold blconf_channel_set_property, set_property_guard.
    rewrite !(bool_decide_eq_true_2 (is_Some (Some _))) by done.
    destruct (_ && _); simpl. 2: { split; [done|exact Hc]. }
    unfold blconf_channel_set_internal. rewrite Hreal, Hc.
    destruct (cache flat) as [c|] eqn:Hcf; [|simpl; split; congruence].
    by destruct (blconf_cache_set c _ _).
  - assert (forall p, reset_property_guard p true = true) as Hg
      by (by intros [[|? [|]]|]).
    unfold blconf_channel_reset_property. rewrite !Hg. simpl. rewrite Hreal, Hc. destruct (cache flat) eqn:Hcf; [reflexivity|]. congruence.
Qed.

End property_properties.

(** ** Structs: unsupported members and the variable-argument entry points *)

Lemma struct_valist_collect_spec (args : list GType) :
  forall (member_types : list GType) (n_members cur_size : nat),
    length member_types = cur_size -> (n_members <= cur_size)%nat ->
    let '(member_types', n_members') :=
      struct_valist_collect args member_types n_members cur_size in
    take n_members' member_types' = take n_members member_types ++ valist_types args.
Proof.
  induction args as [|t args IH]; intros buf n sz Hlen Hn; simpl.
  - by rewrite app_nil_r.
  - destruct (decide (t = G_TYPE_INVALID)) as [|Ht]; [by rewrite app_nil_r|].
    destruct (n =? sz)%nat eqn:Hfull.
    + apply Nat.eqb_eq in Hfull. subst n.
      specialize (IH (<[sz := t]> (buf ++ replicate 5 G_TYPE_INVALID)) (S sz) (sz + 5)%nat).
      destruct (struct_valist_collect args _ _ _) as [buf' n'].
      rewrite IH.
      * rewrite (take_S_r _ _ t).
        -- rewrite take_insert_ge by lia.
           rewrite take_app_le by lia. by rewrite <- app_assoc.
        -- apply list_lookup_insert_eq. rewrite length_app, length_replicate. lia.
      * rewrite length_insert, length_app, length_replicate. lia.
      * lia.
    + apply Nat.eqb_neq in Hfull.
      specialize (IH (<[n := t]> buf) (S n) sz).
      destruct (struct_valist_collect args _ _ _) as [buf' n'].
      rewrite IH.
      * rewrite (take_S_r _ _ t).
        -- rewrite take_insert_ge by lia. by rewrite <- app_assoc.
        -- apply list_lookup_insert_eq. lia.
      * by rewrite length_insert.
      * lia.
Qed.

Section struct_entry_properties.
Context `{Platform} `{Collaborators}.

Lemma set_structv_loop_unsupported (heap : Heap) (value_struct : Mem)
    (member_types : list GType) (cur_offset : Z) (arr : list GValue) :
  set_structv_loop heap value_struct member_types cur_offset arr = None
  <-> Exists (fun t => member_codec t = None) member_types.
Proof.
  revert cur_offset arr. induction member_types as [|t D IH]; intros off arr; simpl.
  - split; [done|]. intros HE. by apply Exists_nil in HE.
  - rewrite set_structv_member_codec, Exists_cons.
    destruct (member_codec t) as [mc|]; simpl.
    + destruct (GET_STRUCT_VAL (mc_size mc) (mc_align mc) (mc_read mc heap)
                  value_struct off) as [val off']. rewrite IH.
      split; [by right|]. by intros [|].
    + split; [by left|done].
Qed.

(** X13. [set_structv] writes a struct exactly when every member type is
    one of its twelve: with any other type among the members, wherever it
    stands, it returns FALSE and the channel is as it was; with none, the
    result is that of [set_arrayv] on the values read from the struct. *)
Theorem set_structv_unsupported_member (channel : BlconfChannel) (property : gchar_p)
    (heap : Heap) (value_struct : Mem) (member_types : list GType) :
  (Exists (fun t => member_codec t = None) member_types ->
   blconf_channel_set_structv channel property heap value_struct member_types
   = (false, channel))
  /\ (Forall (fun t => is_Some (member_codec t)) member_types ->
      member_types <> [] ->
      exists arr,
        length arr = length member_types
        /\ blconf_channel_set_structv channel property heap value_struct member_types
           = blconf_channel_set_arrayv channel property arr).
Proof.
  split.
  - intros HE. unfold blconf_channel_set_structv.
    destruct (_ || _); [done|].
    apply (set_structv_loop_unsupported heap value_struct member_types 0 []) in HE.
    by rewrite HE.
  - intros HF Hne. unfold blconf_channel_set_structv.
    destruct (set_structv_loop heap value_struct member_types 0 []) as [arr|] eqn:Hloop.
    + exists arr. split; [by eapply set_structv_loop_length|].
      destruct property as [name|]; simpl; [|done].
      destruct member_types; [done|]. done.
    + apply set_structv_loop_unsupported in Hloop.
      apply Exists_exists in Hloop as (t & Hin & Hnone).
      rewrite Forall_forall in HF. destruct (HF t Hin) as [mc Hmc]. congruence.
Qed.

(** X14. The variable-argument struct functions pass on exactly the member
    types that precede the terminator, however many: growing the buffer
    five at a time loses and adds nothing. *)
Theorem struct_valist_is_structv (channel : BlconfChannel) (property : gchar_p)
    (heap : Heap) (value_struct : Mem) (args : list GType) :
  blconf_channel_get_struct_valist channel property heap value_struct args
  = blconf_channel_get_structv channel property heap value_struct (valist_types args)
  /\ blconf_channel_set_struct_valist channel property heap value_struct args
     = blconf_channel_set_structv channel property heap value_struct (valist_types args).
Proof.
  pose proof (struct_valist_collect_spec args (replicate 5 G_TYPE_INVALID) 0 5
                ltac:(done) ltac:(lia)) as Hcol.
  unfold blconf_channel_get_struct_valist, blconf_channel_set_struct_valist.
  destruct (struct_valist_collect args _ 0 5) as [buf n]. simpl in Hcol. rewrite Hcol.
  destruct property as [name|]; simpl.
  - destruct args as [|t args]; simpl.
    + split; [|done]. unfold blconf_channel_get_structv. done.
    + destruct (decide (t = G_TYPE_INVALID)) as [->|Ht].
      * rewrite bool_decide_eq_true_2 by done. split; [|done].
        unfold blconf_channel_get_structv. done.
      * by rewrite bool_decide_eq_false_2 by done.
  - split; [|done]. unfold blconf_channel_get_structv. done.
Qed.

End struct_entry_properties.

(** ** The life cycle of channels *)

Section lifecycle_properties.
Context `{Collaborators}.

Lemma constructor_args_construct_params (channel_name' property_base' : gchar_p)
    (is_singleton' : bool) :
  constructor_args (construct_params channel_name' property_base' is_singleton')
  = (channel_name', is_singleton').
Proof. done. Qed.

(** X15. [blconf_channel_new] and [blconf_channel_new_with_property_base]
    allocate a new object on every call and never touch the singleton
    table: the object has the name and the base asked for, is not a
    singleton and has a cache of its own, prefetched for the base; every
    other object is as it was. Two calls for one name return two objects.
    A NULL name returns NULL and changes nothing. *)
Theorem channel_new_is_fresh (st : ProcessState) (name : string) (base : gchar_p) :
  blconf_channel_new (Some name) st
  = blconf_channel_new_with_property_base (Some name) None st
  /\ blconf_channel_new_with_property_base None base st = (None, st)
  /\ (let '(r, st') := blconf_channel_new_with_property_base (Some name) base st in
      r = Some (next_object st)
      /\ next_object st' = S (next_object st)
      /\ channel_singletons st' = channel_singletons st
      /\ singletons_lock st' = singletons_lock st
      /\ objects st' !! next_object st
         = Some {| is_singleton := false; disposed := false;
                   channel_name := Some name; property_base := base;
                   cache := Some (blconf_cache_prefetch (blconf_cache_new name) base) |}
      /\ (forall o, o <> next_object st -> objects st' !! o = objects st !! o)
      /\ fst (blconf_channel_new_with_property_base (Some name) base st')
         = Some (S (next_object st))).
Proof.
  split; [done|]. split; [done|].
  unfold blconf_channel_new_with_property_base, blconf_channel_constructor.
  rewrite constructor_args_construct_params.
  unfold parent_constructor, constructor_attach_cache, set_object. simpl.
  rewrite lookup_insert_eq. simpl.
  repeat split.
  - by rewrite lookup_insert_eq.
  - intros o Ho. by rewrite !lookup_insert_ne.
Qed.

(** X16. Once [blconf_channel_get] has returned the channel of a name,
    asking again is a no-op: the same object comes back and nothing in the
    process changes, neither the table, nor an object, nor a cache. *)
Theorem channel_get_is_idempotent (st : ProcessState) (name : string) :
  let '(r, st') := blconf_channel_get (Some name) st in
  is_Some r
  /\ singleton_lookup st' name = r
  /\ blconf_channel_get (Some name) st' = (r, st').
Proof.
  unfold blconf_channel_get, blconf_channel_constructor.
  rewrite constructor_args_construct_params. unfold IS_SINGLETON_DEFAULT.
  assert (forall (o : ObjId) (s : ProcessState),
            singleton_lookup s name = Some o ->
            singleton_lookup (constructor_attach_cache o name s) name = Some o
            /\ (let '(channel, s1) :=
                  let '(channel, s1) :=
                    match channel_singletons (constructor_attach_cache o name s) with
                    | None => (None, set_singletons (constructor_attach_cache o name s) ∅)
                    | Some t => (t !! name, constructor_attach_cache o name s)
                    end in
                  match channel with
                  | None =>
                      let '(channel, s2) :=
                        parent_constructor (construct_params (Some name) None true) s1 in
                      (channel,
                       set_singletons s2
                         (<[name := channel]> (default ∅ (channel_singletons s2))))
                  | Some channel => (channel, s1)
                  end in
                (Some channel, constructor_attach_cache channel name s1))
               = (Some o, constructor_attach_cache o name s)) as Hagain.
  { intros o s Hlook.
    assert (channel_singletons (constructor_attach_cache o name s) = channel_singletons s)
      as Htab.
    { unfold constructor_attach_cache.
      destruct (objects s !! o) as [ch|]; [|done]. by destruct (cache ch). }
    unfold singleton_lookup in *. rewrite Htab.
    destruct (channel_singletons s) as [t|]; [|done].
    split; [done|]. rewrite Hlook. f_equal.
    unfold constructor_attach_cache at 1.
    unfold constructor_attach_cache.
    destruct (objects s !! o) as [ch|] eqn:Ho; simpl.
    - destruct (cache ch) eqn:Hc; simpl.
      + by rewrite Ho, Hc.
      + by rewrite lookup_insert_eq.
    - by rewrite Ho. }
  destruct (channel_singletons st) as [t|] eqn:Ht.
  - destruct (t !! name) as [o|] eqn:Hname.
    + split; [done|]. apply Hagain. unfold singleton_lookup. by rewrite Ht.
    + unfold parent_constructor. simpl. split; [done|].
      apply Hagain. unfold singleton_lookup. simpl. by rewrite lookup_insert_eq.
  - unfold parent_constructor. simpl. split; [done|].
    apply Hagain. unfold singleton_lookup. simpl. by rewrite lookup_insert_eq.
Qed.

Lemma g_hash_table_destroy_other (l : list (string * ObjId)) (o : ObjId)
    (live : gmap ObjId BlconfChannel * gmap ObjId nat) :
  o ∉ l.*2 ->
  let live' := foldr (fun entry live => g_object_unref (snd entry) live) live l in
  fst live' !! o = fst live !! o /\ snd live' !! o = snd live !! o.
Proof.
  induction l as [|[n o'] l IH]; intros Hnot; simpl; [done|].
  rewrite fmap_cons, not_elem_of_cons in Hnot. destruct Hnot as [Hne Hnot].
  destruct (IH Hnot) as [IHo IHr]. simpl in Hne.
  destruct (foldr _ live l) as [objs refs]. simpl in *.
  unfold g_object_unref. destruct (refs !! o') as [[|[|k]]|]; simpl.
  - by rewrite !lookup_delete_ne.
  - by rewrite !lookup_delete_ne.
  - by rewrite lookup_insert_ne.
  - by rewrite !lookup_delete_ne.
Qed.

Lemma g_hash_table_destroy_entry (l : list (string * ObjId)) (n : string) (o : ObjId)
    (live : gmap ObjId BlconfChannel * gmap ObjId nat) :
  NoDup l.*2 -> (n, o) ∈ l ->
  let live' := foldr (fun entry live => g_object_unref (snd entry) live) live l in
  match snd live !! o with
  | Some (S (S k)) => fst live' !! o = fst live !! o /\ snd live' !! o = Some (S k)
  | _ => fst live' !! o = None /\ snd live' !! o = None
  end.
Proof.
  induction l as [|[n' o'] l IH]; intros Hnd Hin; [by apply elem_of_nil in Hin|].
  rewrite fmap_cons in Hnd. apply NoDup_cons in Hnd as [Hfresh Hnd]. simpl in Hfresh.
  apply elem_of_cons in Hin as [[= <- <-]|Hin]; simpl.
  - destruct (g_hash_table_destroy_other l o live Hfresh) as [Ho Hr].
    destruct (foldr _ live l) as [objs refs]. simpl in *.
    unfold g_object_unref. rewrite Hr.
    destruct (snd live !! o) as [[|[|k]]|]; simpl.
    + by rewrite !lookup_delete_eq.
    + by rewrite !lookup_delete_eq.
    + by rewrite lookup_insert_eq.
    + by rewrite !lookup_delete_eq.
  - assert (o' <> o) as Hne.
    { intros ->. apply Hfresh. apply list_elem_of_fmap. by exists (n, o). }
    specialize (IH Hnd Hin). simpl in IH.
    destruct (foldr _ live l) as [objs refs]. simpl in *.
    unfold g_object_unref.
    destruct (refs !! o') as [[|[|k']]|]; simpl;
      rewrite ?lookup_delete_ne, ?lookup_insert_ne by done; done.
Qed.

(** X17. [_blconf_channel_shutdown] drops the table and the reference it
    held on every channel in it: a channel nobody else holds is freed, one
    that is held elsewhere stays with one reference less, and objects that
    are not in the table are untouched. The next [blconf_channel_get], for
    whatever name, constructs a channel with a cache of its own and
    registers it in a table that holds nothing else. A second shutdown
    finds no table and releases nothing. *)
Theorem shutdown_forgets_singletons (st : ProcessState) (ref_count : gmap ObjId nat)
    (name : string) :
  let '(st1, ref_count1) := _blconf_channel_shutdown st ref_count in
  channel_singletons st1 = None
  /\ _blconf_channel_shutdown st1 ref_count1 = (st1, ref_count1)
  /\ (forall o, (forall n, singleton_lookup st n <> Some o) ->
        objects st1 !! o = objects st !! o /\ ref_count1 !! o = ref_count !! o)
  /\ ((forall n1 n2 o, singleton_lookup st n1 = Some o ->
                       singleton_lookup st n2 = Some o -> n1 = n2) ->
      forall n o, singleton_lookup st n = Some o ->
        match ref_count !! o with
        | Some (S (S k)) =>
            objects st1 !! o = objects st !! o /\ ref_count1 !! o = Some (S k)
        | _ => objects st1 !! o = None /\ ref_count1 !! o = None
        end)
  /\ (let '(r, st2) := blconf_channel_get (Some name) st1 in
      exists o,
        r = Some o
        /\ channel_singletons st2 = Some {[ name := o ]}
        /\ objects st2 !! o
           = Some {| is_singleton := true; disposed := false;
                     channel_name := Some name; property_base := None;
                     cache := Some (blconf_cache_prefetch (blconf_cache_new name) None) |}).
Proof.
  unfold _blconf_channel_shutdown at 1, singleton_lookup.
  destruct (channel_singletons st) as [t|] eqn:Ht.
  - unfold g_hash_table_destroy.
    pose proof (fun o => g_hash_table_destroy_other (map_to_list t) o (objects st, ref_count))
      as Hother.
    pose proof (fun n o => g_hash_table_destroy_entry (map_to_list t) n o
                             (objects st, ref_count)) as Hentry.
    simpl in Hother, Hentry.
    destruct (foldr _ (objects st, ref_count) (map_to_list t)) as [objs refs].
    simpl in *.
    split; [done|]. split; [done|]. split; [|split].
    + intros o Hnot. apply Hother. intros Hin.
      apply list_elem_of_fmap in Hin as ([n o'] & -> & Hin).
      apply elem_of_map_to_list in Hin. by destruct (Hnot n).
    + intros Hinj n o Hn. apply (Hentry n o); [|by apply elem_of_map_to_list].
      apply NoDup_fmap_2_strong; [|apply NoDup_map_to_list].
      intros [n1 o1] [n2 o2] H1 H2 Heq. simpl in Heq. subst o2.
      apply elem_of_map_to_list in H1, H2. by rewrite (Hinj n1 n2 o1).
    + exists (next_object st). split; [done|].
      unfold constructor_attach_cache, set_singletons, set_object. simpl.
      rewrite lookup_insert_eq. simpl. split; [done|].
      by rewrite lookup_insert_eq.
  - split; [done|]. split; [unfold _blconf_channel_shutdown; by rewrite Ht|].
    split; [done|]. split; [done|].
    unfold blconf_channel_get, blconf_channel_constructor.
    rewrite constructor_args_construct_params. unfold IS_SINGLETON_DEFAULT. rewrite Ht.
    unfold parent_constructor, constructor_attach_cache, set_object. simpl.
    rewrite lookup_insert_eq. simpl.
    exists (next_object st). split; [done|]. split; [done|].
    by rewrite lookup_insert_eq.
Qed.

(** X18. What the constructor stores through [set_g_property] is what
    [get_g_property] reports for the same property; reading [is-singleton]
    also reaches the warning for an invalid property id, since its case
    runs into [default]. *)
Theorem g_property_roundtrip (ch : BlconfChannel) (before : GValue) :
  (forall s, blconf_channel_get_g_property
               (blconf_channel_set_g_property ch "channel-name" (GV_string s))
               "channel-name" before = (GV_string s, false))
  /\ (forall s, blconf_channel_get_g_property
                  (blconf_channel_set_g_property ch "property-base" (GV_string s))
                  "property-base" before = (GV_string s, false))
  /\ (forall b, blconf_channel_get_g_property
                  (blconf_channel_set_g_property ch "is-singleton" (GV_boolean b))
                  "is-singleton" before = (GV_boolean b, true))
  /\ (forall name value,
        name <> "channel-name"%string -> name <> "property-base"%string ->
        name <> "is-singleton"%string ->
        blconf_channel_set_g_property ch name value = ch
        /\ blconf_channel_get_g_property ch name before = (before, true)).
Proof.
  split; [done|]. split; [done|]. split; [done|].
  intros name value H1 H2 H3.
  unfold blconf_channel_set_g_property, blconf_channel_get_g_property.
  apply String.eqb_neq in H1, H2, H3. by rewrite H1, H2, H3.
Qed.

End lifecycle_properties.

(** ** The settings bridge: writes, resets, reads and their events *)

Lemma subscribed_scan_existsb (keys : list string) (property : string) :
  subscribed_scan keys property
  = if existsb (g_str_has_prefix property) keys
    then (true, [g_settings_backend_changed property NULL])
    else (false, []).
Proof.
  induction keys as [|k keys IH]; simpl; [done|].
  by destruct (g_str_has_prefix property k).
Qed.

Lemma existsb_Permutation {A} (f : A -> bool) (l l' : list A) :
  l ≡ₚ l' -> existsb f l = existsb f l'.
Proof.
  induction 1 as [|x l l' _ IH|x y l|l l' l'' _ IH1 _ IH2]; simpl.
  - done.
  - by rewrite IH.
  - by destruct (f x), (f y).
  - by rewrite IH1.
Qed.

Section bridge_properties.
Context `{Collaborators}.

(** X19. What the change callback emits and leaves behind does not depend
    on the order in which the subscribed keys are walked: the list that
    [g_hash_table_get_keys] returns may come in any order. *)
Theorem property_changed_cb_any_key_order (self self' : XfconfGsettingsBackend)
    (property : string) (value : GValue) :
  channel self' = channel self ->
  changed_prop self' = changed_prop self ->
  subscribed_prop self' ≡ₚ subscribed_prop self ->
  snd (xfconf_gsettings_backend_property_changed_cb self' property value)
  = snd (xfconf_gsettings_backend_property_changed_cb self property value)
  /\ changed_prop (fst (xfconf_gsettings_backend_property_changed_cb self' property value))
     = changed_prop (fst (xfconf_gsettings_backend_property_changed_cb self property value))
  /\ length (snd (xfconf_gsettings_backend_property_changed_cb self property value)) = 1%nat.
Proof.
  intros Hch Hcp Hperm. unfold xfconf_gsettings_backend_property_changed_cb.
  rewrite Hcp. destruct (changed_prop self !! property) as [tag|]; [done|].
  rewrite !subscribed_scan_existsb, (existsb_Permutation _ _ _ Hperm).
  by destruct (existsb _ _).
Qed.

(** X20. A write through the bridge records the origin tag for the key
    when the variant converts and the channel accepts the value; the change
    event that follows is then reported with that tag and the table is as
    before the write, without the key. A write the channel refuses leaves
    no entry for the key, not even an older one, so a later event for it is
    never attributed to a tag. A variant that does not convert leaves the
    bridge as it was: an older entry for the key stays, and the next event
    for the key is reported with the older tag. *)
Theorem backend_write_then_event (self : XfconfGsettingsBackend) (key : string)
    (variant : GVariant) (origin_tag : gpointer) :
  let self' := snd (xfconf_gsettings_backend_write self key variant origin_tag) in
  match xfconf_gvariant_to_gvalue variant with
  | Some value =>
      let accepted := fst (blconf_channel_set_property (channel self) (Some key) value) in
      changed_prop self'
      = (if accepted then <[key := origin_tag]> (changed_prop self)
         else delete key (changed_prop self))
      /\ (accepted = true ->
          forall v, xfconf_gsettings_backend_property_changed_cb self' key v
                    = ({| channel := channel self';
                          changed_prop := delete key (changed_prop self);
                          subscribed_prop := subscribed_prop self |},
                       [g_settings_backend_changed key origin_tag]))
      /\ (accepted = false ->
          forall v,
            fst (xfconf_gsettings_backend_property_changed_cb self' key v) = self'
            /\ forall k tag,
                 g_settings_backend_changed k tag
                 ∈ snd (xfconf_gsettings_backend_property_changed_cb self' key v) ->
                 tag = NULL)
  | None =>
      self' = self
      /\ forall older v,
           changed_prop self !! key = Some older ->
           xfconf_gsettings_backend_property_changed_cb self' key v
           = ({| channel := channel self;
                 changed_prop := delete key (changed_prop self);
                 subscribed_prop := subscribed_prop self |},
              [g_settings_backend_changed key older])
  end.
Proof.
  intros self'. subst self'.
  unfold xfconf_gsettings_backend_write.
  destruct (xfconf_gvariant_to_gvalue variant) as [value|].
  - destruct (blconf_channel_set_property (channel self) (Some key) value)
      as [ret channel'] eqn:Hset. simpl.
    destruct ret.
    + split; [done|]. split; [|done]. intros _ v.
      unfold xfconf_gsettings_backend_property_changed_cb. simpl.
      rewrite lookup_insert_eq. by rewrite delete_insert_eq.
    + split; [by rewrite delete_insert_eq|]. split; [done|]. intros _ v.
      unfold xfconf_gsettings_backend_property_changed_cb. simpl.
      rewrite delete_insert_eq, lookup_delete_eq.
      rewrite subscribed_scan_existsb.
      destruct (existsb _ _); simpl.
      * split; [done|]. intros k tag Hin. apply list_elem_of_singleton in Hin.
        by injection Hin as _ ->.
      * split; [done|]. intros k tag Hin. apply list_elem_of_singleton in Hin. done.
  - simpl. split; [done|]. intros older v Hold.
    unfold xfconf_gsettings_backend_property_changed_cb. by rewrite Hold.
Qed.

(** X21. A reset through the bridge is always recursive, so it reaches the
    cache for every key, also the root and the empty name; the origin tag
    is pending afterwards, and the change event that follows is reported
    with it and leaves the table as before the reset, without the key. *)
Theorem backend_reset_then_event (self : XfconfGsettingsBackend) (key : string)
    (origin_tag : gpointer) :
  let self' := xfconf_gsettings_backend_reset self key origin_tag in
  (forall c, cache (channel self) = Some c ->
     cache (channel self')
     = Some (snd (blconf_cache_reset c (REAL_PROP (channel self) (Some key)) true)))
  /\ changed_prop self' !! key = Some origin_tag
  /\ forall v, xfconf_gsettings_backend_property_changed_cb self' key v
               = ({| channel := channel self';
                     changed_prop := delete key (changed_prop self);
                     subscribed_prop := subscribed_prop self |},
                  [g_settings_backend_changed key origin_tag]).
Proof.
  intros self'. subst self'. unfold xfconf_gsettings_backend_reset.
  split; [|split].
  - intros c Hc. simpl. unfold blconf_channel_reset_property.
    replace (reset_property_guard (Some key) true) with true by (by destruct key as [|? [|]]).
    simpl. by rewrite Hc.
  - simpl. by rewrite lookup_insert_eq.
  - intros v. unfold xfconf_gsettings_backend_property_changed_cb. simpl.
    rewrite lookup_insert_eq. by rewrite delete_insert_eq.
Qed.

(** X22. The bridge reports a key writable unless the daemon answered that
    it is locked: when the call fails the key counts as writable. The
    answer depends on the channel's name and the key alone. *)
Theorem get_writable_fails_open (self : XfconfGsettingsBackend) (key : string) :
  (xfconf_gsettings_backend_get_writable self key = false
   <-> blconf_client_is_property_locked (channel_name (channel self)) (Some key)
       = Some true)
  /\ (blconf_client_is_property_locked (channel_name (channel self)) (Some key) = None ->
      xfconf_gsettings_backend_get_writable self key = true)
  /\ (forall other, channel_name (channel other) = channel_name (channel self) ->
        xfconf_gsettings_backend_get_writable other key
        = xfconf_gsettings_backend_get_writable self key).
Proof.
  unfold xfconf_gsettings_backend_get_writable, blconf_channel_is_property_locked.
  split; [|split].
  - destruct (blconf_client_is_property_locked _ _) as [[|]|]; simpl; split; congruence.
  - by intros ->.
  - by intros other ->.
Qed.

Section bridge_read.
Variable GVariantType : Type.
Variable xfconf_gvalue_to_gvariant : GValue -> GVariant.
Variable g_variant_is_of_type : GVariant -> GVariantType -> bool.

(** X23. [read] never hands out a variant that is not of the expected
    type: whatever it returns is the conversion of the stored value and
    passed the type test. It returns NULL when the default is asked for
    and when the channel has no value for the key. After a write the
    channel accepted, it yields the conversion of the wire form of the
    written value, if that has the expected type. *)
Theorem backend_read_is_typed (self : XfconfGsettingsBackend) (key : string)
    (expected_type : GVariantType) :
  let read := xfconf_gsettings_backend_read GVariantType xfconf_gvalue_to_gvariant
                g_variant_is_of_type in
  read self key expected_type true = None
  /\ (forall variant, read self key expected_type false = Some variant ->
        g_variant_is_of_type variant expected_type = true
        /\ exists value,
             blconf_channel_get_property (channel self) (Some key) GV_unset = (true, value)
             /\ variant = xfconf_gvalue_to_gvariant value)
  /\ (blconf_channel_has_property (channel self) (Some key) = false ->
      read self key expected_type false = None)
  /\ (cache_read_your_writes ->
      forall written value origin_tag,
        xfconf_gvariant_to_gvalue written = Some value ->
        fst (blconf_channel_set_property (channel self) (Some key) value) = true ->
        read (snd (xfconf_gsettings_backend_write self key written origin_tag))
          key expected_type false
        = let variant := xfconf_gvalue_to_gvariant (set_property_wire_value value) in
          if g_variant_is_of_type variant expected_type then Some variant else None).
Proof.
  intros read. subst read. unfold xfconf_gsettings_backend_read.
  split; [done|]. split; [|split].
  - intros variant Hread.
    destruct (blconf_channel_get_property (channel self) (Some key) GV_unset)
      as [found value] eqn:Hget.
    destruct found; simpl in Hread; [|done].
    destruct (g_variant_is_of_type _ _) eqn:Hty; simpl in Hread; [|done].
    injection Hread as <-. split; [done|]. by exists value.
  - intros Hhas. unfold blconf_channel_has_property in Hhas.
    unfold blconf_channel_get_property, blconf_channel_get_internal.
    destruct (cache (channel self)) as [c|]; [|done].
    destruct (blconf_cache_lookup c _) as [val|]; [|done].
    apply bool_decide_eq_false in Hhas. by destruct Hhas.
  - intros Hryw written value origin_tag Hv Hacc.
    unfold xfconf_gsettings_backend_write. rewrite Hv.
    destruct (blconf_channel_set_property (channel self) (Some key) value)
      as [ret channel'] eqn:Hset. simpl in Hacc. subst ret. cbn [snd channel].
    rewrite (set_property_get_unset _ _ _ _ Hryw Hset). simpl.
    by destruct (g_variant_is_of_type _ _).
Qed.

End bridge_read.

End bridge_properties.

(** ** Value arrays and change events of a channel's own writes *)

Section array_and_event_properties.
Context `{Collaborators}.

(** X24. An array written with [set_arrayv] is read back by [get_arrayv]
    with its 16-bit integers widened. The empty array is the exception: it
    is written, the property exists afterwards, and [get_arrayv] returns
    NULL for it. *)
Theorem arrayv_roundtrip (channel channel' : BlconfChannel) (property : gchar_p)
    (values : list GValue) :
  cache_read_your_writes ->
  blconf_channel_set_arrayv channel property values = (true, channel') ->
  blconf_channel_has_property channel' property = true
  /\ blconf_channel_get_property channel' property GV_unset
     = (true, GV_array (fixup_16bit_elem <$> values))
  /\ blconf_channel_get_arrayv channel' property
     = match values with
       | [] => None
       | _ :: _ => Some (fixup_16bit_elem <$> values)
       end.
Proof.
  intros Hryw Hset. unfold blconf_channel_set_arrayv in Hset.
  destruct property as [name|]; [|done].
  assert (match blconf_fixup_16bit_ints values with
          | Some v => v
          | None => values
          end = fixup_16bit_elem <$> values) as Hwire.
  { rewrite <- fixup_16bit_ints_default. by destruct (blconf_fixup_16bit_ints values). }
  rewrite Hwire in Hset.
  destruct (set_internal_get_internal channel channel' _ _ Hryw Hset) as [Hget _].
  destruct (set_internal_lookup channel channel' _ _ Hryw Hset) as (c' & Hc' & Hl).
  split; [|split].
  - unfold blconf_channel_has_property. rewrite Hc', Hl. by apply bool_decide_eq_true_2.
  - unfold blconf_channel_get_property. by rewrite Hget.
  - unfold blconf_channel_get_arrayv. rewrite Hget. by destruct values.
Qed.

(** X25. The change event of a property the channel itself addresses comes
    back under the name the caller used: the handler strips what
    [REAL_PROP] prepended. The channel hears nothing of the property of a
    channel by another name. *)
Theorem own_property_event_is_local (channel : BlconfChannel) (cname property : string)
    (real_property : string) (value : GValue) :
  channel_name channel = Some cname ->
  property <> ""%string ->
  REAL_PROP channel (Some property) = Some real_property ->
  blconf_channel_property_changed channel cname real_property value
  = [ {| sig_detail := property; sig_property := property; sig_value := value |} ]
  /\ forall other, other <> cname ->
       blconf_channel_property_changed channel other real_property value = [].
Proof.
  intros Hname Hne Hreal. unfold REAL_PROP in Hreal.
  unfold blconf_channel_property_changed. rewrite Hname.
  split.
  - rewrite String.eqb_refl.
    destruct (property_base channel) as [base|]; simpl in *.
    + injection Hreal as <-. rewrite g_str_has_prefix_app, str_advance_app. simpl.
      by destruct property.
    + by injection Hreal as <-.
  - intros other Ho. apply String.eqb_neq in Ho. by rewrite Ho.
Qed.

End array_and_event_properties.

(** ** The properties above at concrete inputs *)

Lemma typed_scalar_roundtrip_witness :
  let channel := test_channel "apps" None in
  let property := Some "/panel/size"%string in
  blconf_channel_get_uint
    (snd (blconf_channel_set_uint channel property 4000000000)) property 0
  = 4000000000
  /\ blconf_channel_get_int
       (snd (blconf_channel_set_int channel property (-5))) property 0
     = -5.
Proof.
  intros channel property. split.
  - destruct (typed_scalar_roundtrip channel
                (snd (blconf_channel_set_uint channel property 4000000000)) property
                test_cache_read_your_writes) as (_ & Hu & _).
    apply Hu; [unfold in_u; lia | reflexivity].
  - destruct (typed_scalar_roundtrip channel
                (snd (blconf_channel_set_int channel property (-5))) property
                test_cache_read_your_writes) as (Hi & _).
    apply Hi. reflexivity.
Defined.

Lemma string_roundtrip_witness :
  let channel := test_channel "apps" None in
  let property := Some "/panel/title"%string in
  blconf_channel_get_string
    (snd (blconf_channel_set_string channel property (Some "hi"%string))) property None
  = Some "hi"%string.
Proof.
  intros channel property.
  apply (string_roundtrip channel
           (snd (blconf_channel_set_string channel property (Some "hi"%string)))
           property (Some "hi"%string) None test_cache_read_your_writes).
  reflexivity.
Defined.

Lemma typed_getters_never_convert_witness :
  let channel := test_channel_holding "apps" None [(Some "/n"%string, GV_uint 7)] in
  blconf_channel_get_int channel (Some "/n"%string) 3 = 3
  /\ blconf_channel_get_string channel (Some "/n"%string) (Some "none"%string)
     = Some "none"%string.
Proof.
  intros channel.
  destruct (typed_getters_never_convert channel "/n"
              [(Some "/n"%string, GV_uint 7)] eq_refl) as (Hi & _ & _ & _ & _ & Hs).
  split.
  - apply Hi. intros v Heq. vm_compute in Heq. discriminate.
  - apply Hs. intros s Heq. vm_compute in Heq. discriminate.
Defined.

Lemma string_list_roundtrip_witness :
  let channel := test_channel "apps" None in
  let property := Some "/panel/items"%string in
  blconf_channel_get_string_list
    (snd (blconf_channel_set_string_list channel property ["a"; "b"]%string)) property
  = Some [Some "a"; Some "b"]%string.
Proof.
  intros channel property.
  destruct (string_list_roundtrip channel property ["a"; "b"]%string
              test_cache_read_your_writes) as [_ Hrt].
  apply Hrt. reflexivity.
Defined.

Lemma array_valist_roundtrip_witness :
  let channel := test_channel "apps" None in
  let property := Some "/panel/geometry"%string in
  let args := [GV_uint16 42; GV_string (Some "x"%string); GV_int16 (-3)] in
  blconf_channel_get_array_valist
    (snd (blconf_channel_set_array_valist channel property args)) property
    [BLCONF_TYPE_UINT16; G_TYPE_STRING; BLCONF_TYPE_INT16]
  = (true, args).
Proof.
  intros channel property args.
  apply (array_valist_roundtrip channel
           (snd (blconf_channel_set_array_valist channel property args)) property args
           test_cache_read_your_writes).
  - simpl. lia.
  - repeat constructor; unfold in_u, in_s; simpl; lia.
  - repeat constructor.
  - reflexivity.
Defined.

Lemma set_array_valist_unknown_type_witness :
  let channel := test_channel "apps" None in
  blconf_channel_set_array_valist channel (Some "/panel/geometry"%string)
    [GV_int 1; GV_array []; GV_int 2]
  = (false, channel).
Proof.
  intros channel.
  apply (set_array_valist_unknown_type channel (Some "/panel/geometry"%string)
           [GV_int 1] (GV_array []) [GV_int 2]).
  - repeat constructor.
  - simpl. discriminate.
  - reflexivity.
Defined.

Lemma get_array_valist_success_witness :
  exists arr,
    blconf_channel_get_arrayv test_channel_pair (Some "/pair"%string) = Some arr
    /\ length [GV_uint 7; GV_uint 9] = length arr
    /\ Forall2 (fun ty s => G_VALUE_TYPE s = ty)
         (take (length arr) [G_TYPE_UINT; G_TYPE_UINT]) [GV_uint 7; GV_uint 9]
    /\ ([G_TYPE_UINT; G_TYPE_UINT] !! length arr = None
        \/ [G_TYPE_UINT; G_TYPE_UINT] !! length arr = Some G_TYPE_INVALID).
Proof.
  apply (get_array_valist_success test_channel_pair (Some "/pair"%string)
           [G_TYPE_UINT; G_TYPE_UINT] [GV_uint 7; GV_uint 9]).
  reflexivity.
Defined.

Lemma set_property_get_property_witness :
  let channel := test_channel "apps" (Some "/panel"%string) in
  let property := Some "/size"%string in
  let channel' := snd (blconf_channel_set_property channel property (GV_int16 (-3))) in
  blconf_channel_has_property channel' property = true
  /\ blconf_channel_get_property channel' property GV_unset = (true, GV_int (-3))
  /\ blconf_channel_get_property
       (snd (blconf_channel_set_property channel property (GV_double 5)))
       property GV_unset
     = (true, GV_double 5).
Proof.
  intros channel property channel'.
  destruct (set_property_get_property channel channel' property (GV_int16 (-3))
              test_cache_read_your_writes eq_refl) as (Hhas & Hget & _).
  destruct (set_property_get_property channel
              (snd (blconf_channel_set_property channel property (GV_double 5)))
              property (GV_double 5) test_cache_read_your_writes eq_refl)
    as (_ & _ & Hplain).
  split; [exact Hhas|]. split.
  - apply (Hget GV_unset). by left.
  - apply Hplain; [reflexivity|]. intros arr. discriminate.
Defined.

Lemma invalid_values_are_refused_witness :
  let channel := ascii_channel "apps" None in
  let property := Some "/panel/title"%string in
  let s := String (ascii_of_nat 255) EmptyString in
  blconf_channel_set_string channel property (Some s) = (false, channel)
  /\ blconf_channel_set_property channel property (GV_string (Some s)) = (false, channel)
  /\ blconf_channel_set_property channel property GV_unset = (false, channel).
Proof.
  intros channel property s.
  apply (invalid_values_are_refused channel property s).
  reflexivity.
Defined.

Lemma property_base_is_a_prefix_witness :
  let scoped := test_channel_holding "apps" (Some "/panel"%string)
                  [(Some "/panel/size"%string, GV_int 24)] in
  let flat := test_channel_holding "apps" None
                [(Some "/panel/size"%string, GV_int 24)] in
  blconf_channel_has_property scoped (Some "/size"%string)
  = blconf_channel_has_property flat (Some "/panel/size"%string)
  /\ blconf_channel_get_property scoped (Some "/size"%string) GV_unset
     = blconf_channel_get_property flat (Some "/panel/size"%string) GV_unset.
Proof.
  intros scoped flat.
  destruct (property_base_is_a_prefix scoped flat "/panel" "/size" eq_refl eq_refl eq_refl)
    as (Hhas & Hget & _).
  split; [exact Hhas|]. apply (Hget GV_unset).
Defined.

Lemma set_structv_unsupported_member_witness :
  let channel := test_channel "apps" None in
  @blconf_channel_set_structv lp64 test_collaborators channel (Some "/s"%string)
    test_heap test_struct [G_TYPE_UCHAR; G_TYPE_STRV; G_TYPE_UINT]
  = (false, channel).
Proof.
  intros channel.
  destruct (@set_structv_unsupported_member lp64 test_collaborators channel
              (Some "/s"%string) test_heap test_struct
              [G_TYPE_UCHAR; G_TYPE_STRV; G_TYPE_UINT]) as [Hbad _].
  apply Hbad. apply Exists_cons_tl, Exists_cons_hd. reflexivity.
Defined.

Lemma shutdown_forgets_singletons_witness :
  let live := _blconf_channel_shutdown test_two_singletons test_ref_count in
  objects (fst live) !! 0%nat = None
  /\ objects (fst live) !! 1%nat = Some (test_channel "b" None)
  /\ snd live !! 1%nat = Some 1%nat.
Proof.
  intros live.
  pose proof (@shutdown_forgets_singletons test_collaborators test_two_singletons
                test_ref_count "a") as Hs.
  fold live in Hs. destruct live as [st1 refs1].
  destruct Hs as (_ & _ & _ & Hentry & _). simpl.
  assert (forall n1 n2 o, singleton_lookup test_two_singletons n1 = Some o ->
                          singleton_lookup test_two_singletons n2 = Some o -> n1 = n2) as Hinj.
  { unfold singleton_lookup, test_two_singletons. simpl. intros n1 n2 o H1 H2.
    rewrite !lookup_insert_Some, lookup_empty in H1, H2.
    destruct H1 as [[<- <-]|[? [[<- <-]|[? ?]]]]; [| |done];
      destruct H2 as [[<- ?]|[? [[<- ?]|[? ?]]]]; done. }
  pose proof (Hentry Hinj "a"%string 0%nat eq_refl) as H0.
  pose proof (Hentry Hinj "b"%string 1%nat eq_refl) as H1.
  change (test_ref_count !! 0%nat) with (Some 1%nat) in H0.
  change (test_ref_count !! 1%nat) with (Some 2%nat) in H1.
  simpl in H0, H1. destruct H0 as [H0 _]. destruct H1 as [H1 H1r].
  split; [exact H0|]. split; [|exact H1r].
  exact (eq_trans H1 eq_refl).
Defined.

Lemma property_changed_cb_any_key_order_witness :
  snd (xfconf_gsettings_backend_property_changed_cb test_backend_two_swapped
         "/plugin/count" (GV_int 1))
  = snd (xfconf_gsettings_backend_property_changed_cb test_backend_two
           "/plugin/count" (GV_int 1))
  /\ changed_prop (fst (xfconf_gsettings_backend_property_changed_cb
                          test_backend_two_swapped "/plugin/count" (GV_int 1)))
     = changed_prop (fst (xfconf_gsettings_backend_property_changed_cb
                            test_backend_two "/plugin/count" (GV_int 1)))
  /\ length (snd (xfconf_gsettings_backend_property_changed_cb test_backend_two
                    "/plugin/count" (GV_int 1))) = 1%nat.
Proof.
  apply (property_changed_cb_any_key_order test_backend_two test_backend_two_swapped
           "/plugin/count" (GV_int 1)).
  - reflexivity.
  - reflexivity.
  - apply Permutation_swap.
Defined.

Lemma backend_write_then_event_witness :
  (let self' := snd (xfconf_gsettings_backend_write test_backend "/bar" (GV_int 5) 9) in
   changed_prop self' = <["/bar"%string := 9]> (changed_prop test_backend)
   /\ xfconf_gsettings_backend_property_changed_cb self' "/bar" (GV_int 5)
      = ({| channel := channel self';
            changed_prop := delete "/bar"%string (changed_prop test_backend);
            subscribed_prop := subscribed_prop test_backend |},
         [g_settings_backend_changed "/bar" 9]))
  /\ (let self' := snd (xfconf_gsettings_backend_write strict_backend "/foo" GV_unset 9) in
      self' = strict_backend
      /\ xfconf_gsettings_backend_property_changed_cb self' "/foo" (GV_int 5)
         = ({| channel := channel strict_backend;
               changed_prop := delete "/foo"%string (changed_prop strict_backend);
               subscribed_prop := subscribed_prop strict_backend |},
            [g_settings_backend_changed "/foo" 7])).
Proof.
  split.
  - intros self'.
    pose proof (backend_write_then_event test_backend "/bar"
                  (GV_int 5 : @GVariant test_collaborators) 9) as Hw.
    simpl in Hw. destruct Hw as (Hpend & Hev & _).
    split; [exact Hpend|]. apply (Hev eq_refl).
  - intros self'.
    pose proof (backend_write_then_event strict_backend "/foo"
                  (GV_unset : @GVariant strict_collaborators) 9) as Hw.
    simpl in Hw. destruct Hw as (Hsame & Hev).
    split; [exact Hsame|]. apply (Hev 7 (GV_int 5)). reflexivity.
Defined.

Lemma arrayv_roundtrip_witness :
  let channel := test_channel "apps" None in
  let property := Some "/panel/geometry"%string in
  blconf_channel_get_arrayv
    (snd (blconf_channel_set_arrayv channel property [GV_uint16 42; GV_int 1])) property
  = Some [GV_uint 42; GV_int 1]
  /\ blconf_channel_has_property
       (snd (blconf_channel_set_arrayv channel property [])) property = true
  /\ blconf_channel_get_arrayv
       (snd (blconf_channel_set_arrayv channel property [])) property = None.
Proof.
  intros channel property.
  destruct (arrayv_roundtrip channel
              (snd (blconf_channel_set_arrayv channel property [GV_uint16 42; GV_int 1]))
              property [GV_uint16 42; GV_int 1] test_cache_read_your_writes eq_refl)
    as (_ & _ & Hfull).
  destruct (arrayv_roundtrip channel
              (snd (blconf_channel_set_arrayv channel property []))
              property [] test_cache_read_your_writes eq_refl)
    as (Hhas & _ & Hempty).
  split; [exact Hfull|]. split; [exact Hhas|exact Hempty].
Defined.

Lemma own_property_event_is_local_witness :
  let channel := test_channel "apps" (Some "/panel"%string) in
  blconf_channel_property_changed channel "apps" "/panel/size" (GV_int 24)
  = [ {| sig_detail := "/size"; sig_property := "/size"; sig_value := GV_int 24 |} ]
  /\ blconf_channel_property_changed channel "other" "/panel/size" (GV_int 24) = [].
Proof.
  intros channel.
  destruct (own_property_event_is_local channel "apps" "/size" "/panel/size" (GV_int 24)
              eq_refl ltac:(discriminate) eq_refl) as [Hown Hother].
  split; [exact Hown|]. apply Hother. discriminate.
Defined.
